(** * Binary trie dictionary compiler: model and verification

    Shallow embedding of [scripts/compile_binary_dictionaries.py].

    Python values are modelled as follows.
    - A character is its code point ([ord]), an integer of [Z]; a [str] is the
      list of its code points.
    - A [Dict[str, int]] is the list of its items in insertion order (what
      [words.items()] iterates over); a dict has no two equal keys, which is
      the hypothesis [NoDup (map fst words)] where a statement needs it.
    - A [TrieNode] object is a node of an inductive tree: its [children] dict
      is the list of its values in insertion order (the key of a value is its
      [char], since [setdefault(ch, TrieNode(ch, node))] only ever stores a
      node of char [ch] under key [ch]).
    - The identity of a [TrieNode] object is the word prefix it stands for
      ([path]): it is fixed at construction by [TrieNode(ch, node)], that is by
      the [parent] reference and the char.  The fields the breadth-first pass
      mutates ([offset], [first_child], [next_sibling]) live in a store keyed
      by that identity, so that a reference to a node ([node.first_child]) is
      a key of the store and [node.first_child.offset] reads through it.
    - [bytes] are lists of integers; a file opened for writing is the list of
      the bytes written to it so far, which is what it holds when an
      exception closes it.
    - An exception is a value of [exn]; a call returns a [result].  The
      [while] loop of [build_trie] is run with a bound on its iterations,
      the number of nodes of the trie, which it never exceeds
      ([build_trie_not_exhausted]).
    - The Unicode tables behind [str.isdigit] and [int], and the limit of
      [int] on the length of a number, are a parameter ([Runtime]). *)

From Stdlib Require Import ZArith List Lia Bool Permutation Sorted.
From stdpp Require Import gmap list.
Import ListNotations.

Local Open Scope Z_scope.

(** ** Constants *)

Definition NODE_SIZE : Z := 10.
Definition MAX_OFFSET : Z := 0xFFFFFF.

(** ** Exceptions and results *)

Inductive exn : Type :=
| ValueError    (* raised by [build_trie], [_uint24] and [int] *)
| StructError   (* [struct.error], raised by [struct.pack] *)
| IndexError.   (* [parts[0]] on an empty list *)

Inductive result (A : Type) : Type :=
| Returned (a : A)
| Raised (e : exn)
| Exhausted.    (* the loop bound of the model ran out; never for [build_trie] *)

Arguments Returned {A} a.
Arguments Raised {A} e.
Arguments Exhausted {A}.

(** ** Trie nodes *)

#[local] Set Warnings "-register-all".

Inductive TrieNode : Type :=
  Node { path : list Z; char : Z; freq : Z; children : list TrieNode }.

(** [TrieNode(char, parent)]: frequency 0, no children. *)
Definition TrieNode_new (p : list Z) (ch : Z) : TrieNode :=
  {| path := p; char := ch; freq := 0; children := [] |}.

Definition set_freq (f : Z) (t : TrieNode) : TrieNode :=
  {| path := path t; char := char t; freq := f; children := children t |}.

Definition set_children (cs : list TrieNode) (t : TrieNode) : TrieNode :=
  {| path := path t; char := char t; freq := freq t; children := cs |}.

(** The mutable fields of the node objects, keyed by node identity.
    [__init__] sets [offset = 0], [first_child = None], [next_sibling = None]:
    these are the values read at a key that was never assigned. *)
Record Store : Type := mkStore {
  st_offset : gmap (list Z) Z;
  st_first_child : gmap (list Z) (list Z);
  st_next_sibling : gmap (list Z) (list Z)
}.

Definition empty_store : Store :=
  {| st_offset := ∅; st_first_child := ∅; st_next_sibling := ∅ |}.

Definition offset_of (st : Store) (x : list Z) : Z :=
  default 0 (st_offset st !! x).

Definition set_offset (x : list Z) (v : Z) (st : Store) : Store :=
  {| st_offset := <[x := v]> (st_offset st);
     st_first_child := st_first_child st;
     st_next_sibling := st_next_sibling st |}.

Definition set_first_child (x y : list Z) (st : Store) : Store :=
  {| st_offset := st_offset st;
     st_first_child := <[x := y]> (st_first_child st);
     st_next_sibling := st_next_sibling st |}.

Definition set_next_sibling (x y : list Z) (st : Store) : Store :=
  {| st_offset := st_offset st;
     st_first_child := st_first_child st;
     st_next_sibling := <[x := y]> (st_next_sibling st) |}.

(** ** build_trie, first loop: insertion of the words *)

(** [node = node.children.setdefault(ch, TrieNode(ch, node))] followed by the
    rest of the walk [k] on the node found or created; [p] is the identity of
    the node whose children these are. *)
Fixpoint setdefault_walk (p : list Z) (ch : Z) (k : TrieNode -> TrieNode)
    (cs : list TrieNode) : list TrieNode :=
  match cs with
  | [] => [k (TrieNode_new (p ++ [ch]) ch)]
  | c :: cs' =>
      if char c =? ch then k c :: cs'
      else c :: setdefault_walk p ch k cs'
  end.

(** The body of [for word, freq in words.items()], started at [node]. *)
Fixpoint insert (word : list Z) (f : Z) (node : TrieNode) : TrieNode :=
  match word with
  | [] => set_freq f node
  | ch :: word' =>
      set_children (setdefault_walk (path node) ch (insert word' f) (children node)) node
  end.

Definition CARET : Z := 94.   (* ord("^") *)

Definition root_node : TrieNode := TrieNode_new [] CARET.

Definition insert_all (words : list (list Z * Z)) (root : TrieNode) : TrieNode :=
  fold_left (fun node wf => insert (fst wf) (snd wf) node) words root.

(** ** build_trie, second loop: breadth-first layout *)

(** [sorted(children, key=lambda n: n.char)]: a stable sort by char. *)
Fixpoint insert_by_char (x : TrieNode) (l : list TrieNode) : list TrieNode :=
  match l with
  | [] => [x]
  | y :: l' => if char x <=? char y then x :: l else y :: insert_by_char x l'
  end.

Definition sorted_by_char (l : list TrieNode) : list TrieNode :=
  fold_right insert_by_char [] l.

(** [for left, right in zip(children, children[1:]): left.next_sibling = right] *)
Fixpoint link_siblings (cs : list TrieNode) (st : Store) : Store :=
  match cs with
  | lft :: ((rgt :: _) as rest) =>
      link_siblings rest (set_next_sibling (path lft) (path rgt) st)
  | _ => st
  end.

Fixpoint node_count (t : TrieNode) : nat :=
  S (list_sum (map node_count (children t))).

(** The [while queue:] loop, run for at most [fuel] iterations. *)
Fixpoint bfs_loop (fuel : nat) (queue nodes : list TrieNode) (current_offset : Z)
    (st : Store) : result (list TrieNode * Store) :=
  match queue with
  | [] => Returned (nodes, st)
  | node :: queue' =>
      match fuel with
      | O => Exhausted
      | S fuel' =>
          if current_offset >? MAX_OFFSET then Raised ValueError
          else
            let st1 := set_offset (path node) current_offset st in
            let nodes' := nodes ++ [node] in
            let current_offset' := current_offset + NODE_SIZE in
            let cs := sorted_by_char (children node) in
            match cs with
            | [] => bfs_loop fuel' queue' nodes' current_offset' st1
            | c0 :: _ =>
                let st2 := set_first_child (path node) (path c0) st1 in
                let st3 := link_siblings cs st2 in
                bfs_loop fuel' (queue' ++ cs) nodes' current_offset' st3
            end
      end
  end.

(** [build_trie]: the returned list of node objects, with the store that
    holds their mutable fields. The loop runs once per node of the trie. *)
Definition build_trie (words : list (list Z * Z)) : result (list TrieNode * Store) :=
  let root := insert_all words root_node in
  bfs_loop (node_count root) [root] [] 0 empty_store.

(** ** write_bin *)

(** [struct.pack(">H", v)] and [struct.pack(">B", v)]. *)
Definition pack_H (v : Z) : option (list Z) :=
  if (0 <=? v) && (v <=? 0xFFFF) then Some [Z.shiftr v 8; Z.land v 0xFF] else None.

Definition pack_B (v : Z) : option (list Z) :=
  if (0 <=? v) && (v <=? 0xFF) then Some [v] else None.

Definition _uint24 (value : Z) : option (list Z) :=
  if (value <? 0) || (value >? MAX_OFFSET) then None
  else Some [Z.land (Z.shiftr value 16) 0xFF; Z.land (Z.shiftr value 8) 0xFF;
             Z.land value 0xFF].

(** [node.first_child.offset if node.first_child else 0] *)
Definition first_child_offset (st : Store) (node : TrieNode) : Z :=
  match st_first_child st !! path node with
  | Some c => offset_of st c
  | None => 0
  end.

Definition next_sibling_offset (st : Store) (node : TrieNode) : Z :=
  match st_next_sibling st !! path node with
  | Some c => offset_of st c
  | None => 0
  end.

(** The body of [for node in nodes]: [f] is the content of the file so far.
    Each [f.write] appends; an exception leaves what was written before it. *)
Definition write_node (st : Store) (node : TrieNode) (f : list Z)
    : list Z * option exn :=
  match pack_H (char node) with
  | None => (f, Some StructError)
  | Some b =>
      let f := f ++ b in
      match pack_B (freq node) with
      | None => (f, Some StructError)
      | Some b =>
          let f := f ++ b in
          match _uint24 (first_child_offset st node) with
          | None => (f, Some ValueError)
          | Some b =>
              let f := f ++ b in
              match _uint24 (next_sibling_offset st node) with
              | None => (f, Some ValueError)
              | Some b =>
                  let f := f ++ b in
                  (f ++ [0], None)
              end
          end
      end
  end.

Fixpoint write_loop (st : Store) (nodes : list TrieNode) (f : list Z)
    : list Z * option exn :=
  match nodes with
  | [] => (f, None)
  | node :: rest =>
      match write_node st node f with
      | (f', None) => write_loop st rest f'
      | (f', Some e) => (f', Some e)
      end
  end.

(** [write_bin(nodes, out_file)]: the file is opened empty ([open("wb")]);
    the result is its final content and the exception raised, if any. *)
Definition write_bin (nodes : list TrieNode) (st : Store) : list Z * option exn :=
  write_loop st nodes [].

(** [build_trie] then [write_bin], as [compile_language] chains them. *)
Definition compile (words : list (list Z * Z)) : result (list Z * option exn) :=
  match build_trie words with
  | Returned (nodes, st) => Returned (write_bin nodes st)
  | Raised e => Raised e
  | Exhausted => Exhausted
  end.

(** ** parse_words *)

(** What [str.isdigit] and [int] take from the Python runtime, not from this
    repository: [isdigit_char c] says whether the Unicode database counts [c]
    as a digit for [str.isdigit]; [decimal_value c] is the value of [c] when
    [int] accepts it as a decimal digit; [int_max_str_digits] is the length
    above which [int] refuses a string of digits ([None]: no limit). *)
Record Runtime : Type := mkRuntime {
  isdigit_char : Z -> bool;
  decimal_value : Z -> option Z;
  int_max_str_digits : option nat
}.

(** A runtime whose digits are the ASCII digits [0]..[9], with CPython's
    default limit on the length of a number. *)
Definition ascii_runtime : Runtime :=
  {| isdigit_char := fun c => (48 <=? c) && (c <=? 57);
     decimal_value := fun c => if (48 <=? c) && (c <=? 57) then Some (c - 48) else None;
     int_max_str_digits := Some 4300%nat |}.

(** [str.isspace] on one character (the whitespace [strip()] and [split()]
    remove). *)
Definition is_space (c : Z) : bool :=
  ((9 <=? c) && (c <=? 13)) || ((28 <=? c) && (c <=? 32)) ||
  (c =? 0x85) || (c =? 0xA0) || (c =? 0x1680) ||
  ((0x2000 <=? c) && (c <=? 0x200A)) ||
  (c =? 0x2028) || (c =? 0x2029) || (c =? 0x202F) || (c =? 0x205F) || (c =? 0x3000).

Fixpoint lstrip (s : list Z) : list Z :=
  match s with
  | c :: s' => if is_space c then lstrip s' else s
  | [] => []
  end.

(** [s.strip()] *)
Definition strip (s : list Z) : list Z := rev (lstrip (rev (lstrip s))).

(** [s.replace(old, new)] for one-character strings. *)
Definition replace_char (old new : Z) (s : list Z) : list Z :=
  map (fun c => if c =? old then new else c) s.

(** [s.split()]: the maximal runs of non-whitespace characters; [tok] is the
    run being read. *)
Fixpoint split_from (s tok : list Z) : list (list Z) :=
  match s with
  | [] => match tok with [] => [] | _ => [tok] end
  | c :: s' =>
      if is_space c then
        match tok with [] => split_from s' [] | _ => tok :: split_from s' [] end
      else split_from s' (tok ++ [c])
  end.

Definition split (s : list Z) : list (list Z) := split_from s [].

(** [s.isdigit()] *)
Definition str_isdigit (rt : Runtime) (s : list Z) : bool :=
  match s with [] => false | _ => forallb (isdigit_char rt) s end.

(** [int(s)] for a string of digit characters: [ValueError] ([None]) when
    one of them is not a decimal digit or when the string is too long. *)
Fixpoint int_from (rt : Runtime) (acc : Z) (s : list Z) : option Z :=
  match s with
  | [] => Some acc
  | c :: s' =>
      match decimal_value rt c with
      | Some d => int_from rt (10 * acc + d) s'
      | None => None
      end
  end.

Definition py_int (rt : Runtime) (s : list Z) : option Z :=
  match s with
  | [] => None
  | _ =>
      match int_max_str_digits rt with
      | Some m => if (m <? length s)%nat then None else int_from rt 0 s
      | None => int_from rt 0 s
      end
  end.

(** [words[word] = v] on a dict kept as its list of items. *)
Fixpoint dict_set (k : list Z) (v : Z) (d : list (list Z * Z)) : list (list Z * Z) :=
  match d with
  | [] => [(k, v)]
  | (k', v') :: d' =>
      if decide (k = k') then (k, v) :: d' else (k', v') :: dict_set k v d'
  end.

Definition HASH : Z := 35.    (* ord("#") *)
Definition TAB : Z := 9.
Definition COMMA : Z := 44.
Definition SPACE : Z := 32.

(** [line.replace("\t", " ").replace(",", " ").split()] *)
Definition tokens (line : list Z) : list (list Z) :=
  split (replace_char COMMA SPACE (replace_char TAB SPACE line)).

(** [int(parts[1]) if len(parts) > 1 and parts[1].isdigit() else (1000 + count)] *)
Definition line_freq (rt : Runtime) (parts : list (list Z)) (count : Z) : result Z :=
  match parts with
  | _ :: tok :: _ =>
      if str_isdigit rt tok then
        match py_int rt tok with
        | Some v => Returned v
        | None => Raised ValueError
        end
      else Returned (1000 + count)
  | _ => Returned (1000 + count)
  end.

(** [max(0, min(255, freq))] *)
Definition clamp (v : Z) : Z := Z.max 0 (Z.min 255 v).

(** The body of [for raw in f] after the [max_words] test: the dict and the
    count after the line, or the exception it raises. *)
Definition parse_line (rt : Runtime) (raw : list Z) (words : list (list Z * Z))
    (count : Z) : result (list (list Z * Z) * Z) :=
  let line := strip raw in
  match line with
  | [] => Returned (words, count)
  | c :: _ =>
      if c =? HASH then Returned (words, count)
      else
        match tokens line with
        | [] => Raised IndexError
        | (word :: _) as parts =>
            match line_freq rt parts count with
            | Returned v => Returned (dict_set word (clamp v) words, count + 1)
            | Raised e => Raised e
            | Exhausted => Exhausted
            end
        end
  end.

Fixpoint parse_loop (rt : Runtime) (max_words : Z) (lines : list (list Z))
    (words : list (list Z * Z)) (count : Z) : result (list (list Z * Z)) :=
  match lines with
  | [] => Returned words
  | raw :: rest =>
      if count >=? max_words then Returned words
      else
        match parse_line rt raw words count with
        | Returned (words', count') => parse_loop rt max_words rest words' count'
        | Raised e => Raised e
        | Exhausted => Exhausted
        end
  end.

(** [parse_words(path, max_words)] on the lines of the file. *)
Definition parse_words (rt : Runtime) (lines : list (list Z)) (max_words : Z)
    : result (list (list Z * Z)) :=
  parse_loop rt max_words lines [] 0.

(** ** The trie as data, and the layout pass taken apart

    These definitions describe [build_trie]'s result; the theorems below
    relate them to [bfs_loop]. *)

(** All the nodes of a trie, the node itself first. *)
Fixpoint subnodes (t : TrieNode) : list TrieNode :=
  t :: concat (map subnodes (children t)).

Definition descendants (t : TrieNode) : list TrieNode :=
  concat (map subnodes (children t)).

Definition total_count (queue : list TrieNode) : nat :=
  list_sum (map node_count queue).

(** The trie [build_trie] lays out. *)
Definition trie_of (words : list (list Z * Z)) : TrieNode :=
  insert_all words root_node.

(** The order in which the [while] loop dequeues the nodes. *)
Fixpoint bfs_order (fuel : nat) (queue : list TrieNode) : list TrieNode :=
  match queue with
  | [] => []
  | node :: queue' =>
      match fuel with
      | O => []
      | S fuel' => node :: bfs_order fuel' (queue' ++ sorted_by_char (children node))
      end
  end.

(** The assignments of one iteration of the loop to the node objects. *)
Definition visit (node : TrieNode) (current_offset : Z) (st : Store) : Store :=
  let st1 := set_offset (path node) current_offset st in
  match sorted_by_char (children node) with
  | [] => st1
  | c0 :: _ => link_siblings (sorted_by_char (children node))
                 (set_first_child (path node) (path c0) st1)
  end.

(** The assignments of the whole loop, given the dequeuing order. *)
Fixpoint layout (nodes : list TrieNode) (current_offset : Z) (st : Store) : Store :=
  match nodes with
  | [] => st
  | node :: rest => layout rest (current_offset + NODE_SIZE) (visit node current_offset st)
  end.

(** The list and the store [build_trie] returns when it returns. *)
Definition order_of (words : list (list Z * Z)) : list TrieNode :=
  bfs_order (node_count (trie_of words)) [trie_of words].

Definition store_of (words : list (list Z * Z)) : Store :=
  layout (order_of words) 0 empty_store.

(** The second loop of [build_trie] and [write_bin], on a given trie. *)
Definition compile_tree (root : TrieNode) : result (list Z * option exn) :=
  match bfs_loop (node_count root) [root] [] 0 empty_store with
  | Returned (nodes, st) => Returned (write_bin nodes st)
  | Raised e => Raised e
  | Exhausted => Exhausted
  end.

(** Every node is named by its position: the path of a child is the path of
    its parent followed by the child's char, and no two children of a node
    have the same char (they are the values of a dict keyed by char). *)
Fixpoint well_named (p : list Z) (t : TrieNode) {struct t} : Prop :=
  match t with
  | Node p' _ _ cs =>
      p' = p /\ NoDup (map char cs) /\
      (fix all (l : list TrieNode) : Prop :=
         match l with
         | [] => True
         | c :: l' => well_named (p ++ [char c]) c /\ all l'
         end) cs
  end.

(** ** Tries up to the insertion order of the children

    [canon t] is [t] with the children of every node in sorted order;
    [cinsert] is the insertion of a word into such a trie, which puts a new
    child at its sorted place. They are used to compare the tries of one
    table populated in two orders. *)

Fixpoint canon (t : TrieNode) : TrieNode :=
  match t with
  | Node p c f cs => Node p c f (sorted_by_char (map canon cs))
  end.

Fixpoint csetdefault (p : list Z) (ch : Z) (k : TrieNode -> TrieNode)
    (cs : list TrieNode) : list TrieNode :=
  match cs with
  | [] => [k (TrieNode_new (p ++ [ch]) ch)]
  | c :: cs' =>
      if char c =? ch then k c :: cs'
      else if ch <? char c then k (TrieNode_new (p ++ [ch]) ch) :: cs
      else c :: csetdefault p ch k cs'
  end.

Fixpoint cinsert (word : list Z) (f : Z) (node : TrieNode) : TrieNode :=
  match word with
  | [] => set_freq f node
  | ch :: word' =>
      set_children (csetdefault (path node) ch (cinsert word' f) (children node)) node
  end.

Definition cinsert_all (words : list (list Z * Z)) (root : TrieNode) : TrieNode :=
  fold_left (fun node wf => cinsert (fst wf) (snd wf) node) words root.

(** The chars of a list are in ascending order. *)
Definition ascending (l : list TrieNode) : Prop :=
  StronglySorted (fun a b => char a <= char b) l.

(** ** Reading an encoded buffer

    The reader's view of the file: record [k] occupies the bytes
    [10 k .. 10 k + 9]; multi-byte fields are big-endian. *)

Definition byte_at (buf : list Z) (i : nat) : Z := nth i buf 0.

Definition rec_char (buf : list Z) (k : nat) : Z :=
  byte_at buf (10 * k) * 256 + byte_at buf (10 * k + 1).

Definition rec_freq (buf : list Z) (k : nat) : Z := byte_at buf (10 * k + 2).

Definition rec_first_child (buf : list Z) (k : nat) : Z :=
  byte_at buf (10 * k + 3) * 65536 + byte_at buf (10 * k + 4) * 256 +
  byte_at buf (10 * k + 5).

Definition rec_next_sibling (buf : list Z) (k : nat) : Z :=
  byte_at buf (10 * k + 6) * 65536 + byte_at buf (10 * k + 7) * 256 +
  byte_at buf (10 * k + 8).

(** Record [k] is in the buffer in full. *)
Definition record_written (buf : list Z) (k : nat) : Prop :=
  (10 * (k + 1) <= length buf)%nat.

(** ** Vocabulary of the statements *)

(** The content of the file when [write_bin] ends, by return or exception. *)
Definition output (nodes : list TrieNode) (st : Store) : list Z :=
  fst (write_bin nodes st).

(** The 10 bytes [write_node] appends for a node all of whose fields are in
    range. *)
Definition record (st : Store) (node : TrieNode) : list Z :=
  [Z.shiftr (char node) 8; Z.land (char node) 0xFF; freq node;
   Z.land (Z.shiftr (first_child_offset st node) 16) 0xFF;
   Z.land (Z.shiftr (first_child_offset st node) 8) 0xFF;
   Z.land (first_child_offset st node) 0xFF;
   Z.land (Z.shiftr (next_sibling_offset st node) 16) 0xFF;
   Z.land (Z.shiftr (next_sibling_offset st node) 8) 0xFF;
   Z.land (next_sibling_offset st node) 0xFF;
   0].

Definition offset_in_range (v : Z) : Prop := 0 <= v <= MAX_OFFSET.

(** Every offset assigned in the store fits 3 bytes. *)
Definition offsets_in_range (st : Store) : Prop :=
  forall x v, st_offset st !! x = Some v -> offset_in_range v.

(** The four fields of the node are in the range of their encoding. *)
Definition encodable (st : Store) (node : TrieNode) : Prop :=
  0 <= char node <= 0xFFFF /\ 0 <= freq node <= 0xFF /\
  offset_in_range (first_child_offset st node) /\
  offset_in_range (next_sibling_offset st node).

(** A node one of whose two offset fields cannot be stored in 3 bytes. *)
Definition offending (st : Store) (node : TrieNode) : Prop :=
  ~ offset_in_range (first_child_offset st node) \/
  ~ offset_in_range (next_sibling_offset st node).

(** Every character of every word of the table fits 16 bits. *)
Definition chars_in_range (words : list (list Z * Z)) : Prop :=
  Forall (fun wf => Forall (fun c => 0 <= c <= 0xFFFF) (fst wf)) words.

(** The frequency of an item, and of every item of a table, fits 8 bits. *)
Definition freq_in_range (wf : list Z * Z) : Prop := 0 <= snd wf <= 255.

Definition freqs_in_range (words : list (list Z * Z)) : Prop :=
  Forall freq_in_range words.

(** The characters [parse_words] replaces by or takes as separators. *)
Definition is_separator (c : Z) : Prop := c = TAB \/ c = SPACE \/ c = COMMA.

(** ** Looking a word up

    [find_node] follows a word from a node the way the insertion loop walks
    it, one lookup in [children] per character.  [read_node] follows it in
    the file the way the format lays it out (left child, right sibling):
    from a record, go to its first_child offset and along the next_sibling
    offsets until the char is found or the offset is 0. *)

(** [children.get(ch)] *)
Fixpoint get_child (ch : Z) (cs : list TrieNode) : option TrieNode :=
  match cs with
  | [] => None
  | c :: cs' => if char c =? ch then Some c else get_child ch cs'
  end.

Fixpoint find_node (word : list Z) (node : TrieNode) : option TrieNode :=
  match word with
  | [] => Some node
  | ch :: word' =>
      match get_child ch (children node) with
      | Some c => find_node word' c
      | None => None
      end
  end.

(** The frequency of the node a word leads to, if there is one. *)
Definition trie_freq (word : list Z) (node : TrieNode) : option Z :=
  option_map freq (find_node word node).

(** [words.get(w)] *)
Fixpoint dict_get (w : list Z) (words : list (list Z * Z)) : option Z :=
  match words with
  | [] => None
  | (k, f) :: rest => if decide (w = k) then Some f else dict_get w rest
  end.

(** [w.startswith(p)] *)
Fixpoint is_prefix (p w : list Z) : bool :=
  match p, w with
  | [], _ => true
  | a :: p', b :: w' => (a =? b) && is_prefix p' w'
  | _ :: _, [] => false
  end.

(** The record of char [c] in the chain of siblings that starts at byte
    offset [off] (record [off / 10]: the offsets of a compiled file are
    multiples of 10); at most [fuel] records are visited. *)
Fixpoint scan_siblings (fuel : nat) (buf : list Z) (off c : Z) : option nat :=
  match fuel with
  | O => None
  | S fuel' =>
      if off =? 0 then None
      else
        let k := Z.to_nat (off / NODE_SIZE) in
        if rec_char buf k =? c then Some k
        else scan_siblings fuel' buf (rec_next_sibling buf k) c
  end.

Fixpoint read_node (buf : list Z) (k : nat) (word : list Z) : option nat :=
  match word with
  | [] => Some k
  | c :: word' =>
      match scan_siblings (length buf) buf (rec_first_child buf k) c with
      | Some j => read_node buf j word'
      | None => None
      end
  end.

(** The frequency field of the record a word leads to from record 0. *)
Definition read_freq (buf : list Z) (word : list Z) : option Z :=
  option_map (rec_freq buf) (read_node buf 0 word).

(** The content of the file after [build_trie] returned and [write_bin]
    ended. *)
Definition file_of (words : list (list Z * Z)) : list Z :=
  output (order_of words) (store_of words).

(** The prefixes of a word, the empty one and the word itself included. *)
Fixpoint prefixes (w : list Z) : list (list Z) :=
  [] :: match w with
        | [] => []
        | c :: w' => map (cons c) (prefixes w')
        end.

(** The distinct prefixes of the keys of a table, with the empty word. *)
Definition prefix_set (words : list (list Z * Z)) : gset (list Z) :=
  list_to_set ([] :: concat (map (fun wf => prefixes (fst wf)) words)).

(** [not line or line.startswith("#")]: the lines the loop of [parse_words]
    passes over. *)
Definition is_skipped (raw : list Z) : bool :=
  match strip raw with
  | [] => true
  | c :: _ => c =? HASH
  end.

(** ** compile_language

    [word_list] is what the file system holds at
    [assets_dir / f"{lang}_words.txt"]: [None] when the path does not exist,
    the lines of the file otherwise.  The outcome tells what the call leaves
    at [out_dir / f"{lang}.bin"]. *)

Inductive lang_exn : Type :=
  | FileNotFoundError
  | Inner (e : exn).

Inductive outcome : Type :=
  | Compiled (out : list Z)
      (* returns [out_file], which holds [out] *)
  | Failed (e : lang_exn) (file : option (list Z))
      (* raises [e]; [file] is what [out_file] holds if [write_bin] opened
         it, [None] if the call did not get there *)
  | Unfinished.
      (* the loop bound of [bfs_loop] was reached *)

(** The default of [parse_words]' second parameter. *)
Definition DEFAULT_MAX_WORDS : Z := 50000.

Definition compile_language (rt : Runtime) (word_list : option (list (list Z)))
    : outcome :=
  match word_list with
  | None => Failed FileNotFoundError None
  | Some lines =>
      match parse_words rt lines DEFAULT_MAX_WORDS with
      | Raised e => Failed (Inner e) None
      | Exhausted => Unfinished
      | Returned words =>
          match build_trie words with
          | Raised e => Failed (Inner e) None
          | Exhausted => Unfinished
          | Returned (nodes, st) =>
              match write_bin nodes st with
              | (out, None) => Compiled out
              | (out, Some e) => Failed (Inner e) (Some out)
              end
          end
      end
  end.

(** ** Example inputs *)

(** The table of the specification's example. *)
Definition cat_car_can : list (list Z * Z) :=
  [([99; 97; 116], 50); ([99; 97; 114], 30); ([99; 97; 110], 10)].

(** The nodes of the trie of [cat_car_can]; the children of ['a'] are in
    insertion order ['t'], ['r'], ['n']. *)
Definition node_t : TrieNode := Node [99; 97; 116] 116 50 [].
Definition node_r : TrieNode := Node [99; 97; 114] 114 30 [].
Definition node_n : TrieNode := Node [99; 97; 110] 110 10 [].
Definition node_a : TrieNode := Node [99; 97] 97 0 [node_t; node_r; node_n].
Definition node_c : TrieNode := Node [99] 99 0 [node_a].
Definition node_root : TrieNode := Node [] 94 0 [node_c].

(** A table with one word, the single character U+1F600. *)
Definition astral_table : list (list Z * Z) := [([128512], 1)].

(** A table with the empty word as a key. *)
Definition empty_key_table : list (list Z * Z) := [([], 7); ([97], 3)].

(** A store in which the root's first child has offset [2^24]. *)
Definition overflow_store : Store :=
  {| st_offset := {[ [99] := 16777216 ]};
     st_first_child := {[ [] := [99] ]};
     st_next_sibling := ∅ |}.

(** The line [w 99...9] with 4301 digits. *)
Definition long_number_line : list Z := [119; 32] ++ List.repeat 57 4301.

(** A table with a frequency above 255 on a word that sorts before a word
    with the character U+1F600. *)
Definition freq_256_table : list (list Z * Z) := [([97], 256); ([128512], 1)].

(** The word list of the table [cat_car_can]: the lines [cat 50],
    [car,30] and [can<TAB>10]. *)
Definition cat_car_can_lines : list (list Z) :=
  [[99; 97; 116; 32; 53; 48]; [99; 97; 114; 44; 51; 48]; [99; 97; 110; 9; 49; 48]].

(* ================================================================== *)
(** * Verification *)
(* ================================================================== *)

(** Case analysis on the comparisons of chars in a goal. *)
Ltac cases_on_chars :=
  repeat match goal with
         | |- context [?a =? ?b] => destruct (Z.eqb_spec a b)
         | |- context [?a <? ?b] => destruct (Z.ltb_spec a b)
         | |- context [?a <=? ?b] => destruct (Z.leb_spec a b)
         end; try lia; try reflexivity.

(** ** The parser *)

Lemma clamp_range (v : Z) : 0 <= clamp v <= 255.
Proof. unfold clamp. lia. Qed.

Lemma clamp_id (v : Z) : 0 <= v <= 255 -> clamp v = v.
Proof. unfold clamp. lia. Qed.

Lemma clamp_high (v : Z) : 255 <= v -> clamp v = 255.
Proof. unfold clamp. lia. Qed.

Lemma dict_set_in_range (k : list Z) (v : Z) (d : list (list Z * Z)) :
  0 <= v <= 255 -> Forall freq_in_range d -> Forall freq_in_range (dict_set k v d).
Proof.
  intros Hv Hd. induction Hd as [|[k' v'] d' Hx Hd' IH]; simpl.
  - constructor; [exact Hv | constructor].
  - destruct (decide (k = k')); constructor; auto.
Qed.

Lemma dict_set_lookup (k : list Z) (v : Z) (d : list (list Z * Z)) :
  In (k, v) (dict_set k v d).
Proof.
  induction d as [|[k' v'] d' IH]; simpl; [now left|].
  destruct (decide (k = k')); [now left | now right].
Qed.

(** What the loop body does to the dict and the count on one line. *)
Lemma parse_line_cases (rt : Runtime) (raw : list Z) (ws ws' : list (list Z * Z))
    (count count' : Z) :
  parse_line rt raw ws count = Returned (ws', count') ->
  (ws' = ws /\ count' = count) \/
  exists word rest v,
    tokens (strip raw) = word :: rest /\
    line_freq rt (word :: rest) count = Returned v /\
    ws' = dict_set word (clamp v) ws /\ count' = count + 1.
Proof.
  unfold parse_line. destruct (strip raw) as [|c line] eqn:Hs.
  - intros [= <- <-]. now left.
  - destruct (c =? HASH); [intros [= <- <-]; now left|].
    destruct (tokens (c :: line)) as [|word rest] eqn:Ht; [discriminate|].
    destruct (line_freq rt (word :: rest) count) as [v| |] eqn:Hf; try discriminate.
    intros [= <- <-]. right. exists word, rest, v. auto.
Qed.

Lemma parse_line_in_range (rt : Runtime) (raw : list Z) (ws ws' : list (list Z * Z))
    (count count' : Z) :
  parse_line rt raw ws count = Returned (ws', count') ->
  Forall freq_in_range ws -> Forall freq_in_range ws'.
Proof.
  intros H Hws. apply parse_line_cases in H as [[-> _]|(word & rest & v & _ & _ & -> & _)].
  - exact Hws.
  - apply dict_set_in_range; [apply clamp_range | exact Hws].
Qed.

Lemma parse_loop_in_range (rt : Runtime) (max_words : Z) (lines : list (list Z)) :
  forall ws count words,
    Forall freq_in_range ws ->
    parse_loop rt max_words lines ws count = Returned words ->
    Forall freq_in_range words.
Proof.
  induction lines as [|raw rest IH]; simpl; intros ws count words Hws H.
  - now inversion H; subst.
  - destruct (count >=? max_words); [now inversion H; subst|].
    destruct (parse_line rt raw ws count) as [[ws' count']| |] eqn:Hl; try discriminate.
    eapply IH; [|exact H]. eapply parse_line_in_range; eauto.
Qed.

(** The frequency expression: a numeric token gives its value, anything else
    [1000 + count]. *)
Lemma line_freq_numeric (rt : Runtime) (word tok : list Z) (rest : list (list Z))
    (count v : Z) :
  str_isdigit rt tok = true -> py_int rt tok = Some v ->
  line_freq rt (word :: tok :: rest) count = Returned v.
Proof. intros Hd Hi. unfold line_freq. now rewrite Hd, Hi. Qed.

Lemma line_freq_not_numeric (rt : Runtime) (word tok : list Z) (rest : list (list Z))
    (count : Z) :
  str_isdigit rt tok = false ->
  line_freq rt (word :: tok :: rest) count = Returned (1000 + count).
Proof. intros Hd. unfold line_freq. now rewrite Hd. Qed.

Lemma line_freq_absent (rt : Runtime) (word : list Z) (count : Z) :
  line_freq rt [word] count = Returned (1000 + count).
Proof. reflexivity. Qed.

(** C6, as the specification states it, fails: on the line made of the word
    [w], a space and 4301 digits [9], the second token is numeric for
    [str.isdigit], its value is far above 255, and the loop body does not
    clamp it: [int] refuses a number of more than 4300 digits, and
    [parse_words] raises [ValueError]. *)
Lemma numeric_token_raises_ValueError :
  tokens (strip long_number_line) = [[119]; List.repeat 57 4301] /\
  str_isdigit ascii_runtime (List.repeat 57 4301) = true /\
  parse_line ascii_runtime long_number_line [] 0 = Raised ValueError /\
  parse_words ascii_runtime [long_number_line] 50000 = Raised ValueError.
Proof. vm_compute. repeat split; reflexivity. Qed.

(** C6, as the code has it: every frequency of the mapping [parse_words]
    returns is in [0,255].  On a line that is not skipped and has a first
    token, the loop body returns and stores for that token: the value of the
    second token clamped into [0,255] when that token is numeric and [int]
    converts it (255 when the value exceeds 255: no exception is raised for
    the excess), and [1000 + count] clamped, that is 255, when the second
    token is absent or not numeric; [count] is the number of lines accepted
    before.  When the second token is numeric and [int] refuses it, the loop
    body raises [ValueError] and stores nothing.  Conversely, on every line
    the loop body accepts, what it stores is one of these. *)
Theorem parse_words_frequency_clamped (rt : Runtime) :
  (forall lines max_words words,
     parse_words rt lines max_words = Returned words ->
     freqs_in_range words) /\
  (forall raw ws count word rest,
     0 <= count ->
     is_skipped raw = false ->
     tokens (strip raw) = word :: rest ->
     match rest with
     | tok :: _ =>
         if str_isdigit rt tok then
           match py_int rt tok with
           | Some v =>
               parse_line rt raw ws count =
                 Returned (dict_set word (Z.max 0 (Z.min 255 v)) ws, count + 1) /\
               0 <= Z.max 0 (Z.min 255 v) <= 255 /\
               (0 <= v <= 255 -> Z.max 0 (Z.min 255 v) = v) /\
               (255 <= v -> Z.max 0 (Z.min 255 v) = 255) /\
               (v <= 0 -> Z.max 0 (Z.min 255 v) = 0)
           | None => parse_line rt raw ws count = Raised ValueError
           end
         else parse_line rt raw ws count = Returned (dict_set word 255 ws, count + 1)
     | [] => parse_line rt raw ws count = Returned (dict_set word 255 ws, count + 1)
     end) /\
  (forall raw ws count ws' count',
     0 <= count ->
     parse_line rt raw ws count = Returned (ws', count') ->
     (ws' = ws /\ count' = count) \/
     exists word rest f,
       tokens (strip raw) = word :: rest /\
       ws' = dict_set word f ws /\ count' = count + 1 /\ 0 <= f <= 255 /\
       match rest with
       | tok :: _ =>
           if str_isdigit rt tok
           then exists v, py_int rt tok = Some v /\ f = Z.max 0 (Z.min 255 v) /\
                          (0 <= v <= 255 -> f = v) /\ (255 <= v -> f = 255)
           else f = Z.max 0 (Z.min 255 (1000 + count)) /\ f = 255
       | [] => f = Z.max 0 (Z.min 255 (1000 + count)) /\ f = 255
       end).
Proof.
  split; [|split].
  - intros lines max_words words H.
    eapply parse_loop_in_range; [|exact H]. constructor.
  - intros raw ws count word rest Hc Hs Ht.
    assert (Hd : clamp (1000 + count) = 255) by (apply clamp_high; lia).
    unfold is_skipped in Hs. unfold parse_line.
    destruct (strip raw) as [|c line]; [discriminate|]. rewrite Hs, Ht.
    destruct rest as [|tok rest']; cbn [line_freq]; [now rewrite Hd|].
    destruct (str_isdigit rt tok); [|now rewrite Hd].
    destruct (py_int rt tok) as [v|]; [|reflexivity].
    split; [reflexivity|]. repeat split; lia.
  - intros raw ws count ws' count' Hc H.
    apply parse_line_cases in H as [H|(word & rest & v & Ht & Hf & -> & ->)]; [now left|].
    right. exists word, rest, (clamp v). repeat split; auto; try apply clamp_range.
    destruct rest as [|tok rest'].
    + simpl in Hf. injection Hf as <-. split; [reflexivity|]. apply clamp_high. lia.
    + unfold line_freq in Hf. destruct (str_isdigit rt tok).
      * destruct (py_int rt tok) as [v'|]; [|discriminate]. injection Hf as ->.
        exists v. repeat split; auto using clamp_id, clamp_high.
      * injection Hf as <-. split; [reflexivity|]. apply clamp_high. lia.
Qed.

(** The lines ["foo, 9999"], then ["bar"], then ["foo\t7\n"]; and the loop
    body on the first of them. *)
Lemma parse_words_frequency_clamped_witness :
  freqs_in_range [([102; 111; 111], 7); ([98; 97; 114], 255)] /\
  parse_line ascii_runtime [102; 111; 111; 44; 32; 57; 57; 57; 57] [] 0 =
    Returned ([([102; 111; 111], 255)], 1).
Proof.
  split.
  - apply (proj1 (parse_words_frequency_clamped ascii_runtime)
             [[102; 111; 111; 44; 32; 57; 57; 57; 57]; [98; 97; 114];
              [102; 111; 111; 9; 55; 10]] 50000).
    reflexivity.
  - apply (proj1 (proj2 (parse_words_frequency_clamped ascii_runtime))
             [102; 111; 111; 44; 32; 57; 57; 57; 57] [] 0 [102; 111; 111]
             [[57; 57; 57; 57]]); [lia|reflexivity|reflexivity].
Defined.

Lemma split_from_spaces (s : list Z) :
  Forall (fun c => is_space c = true) s -> split_from s [] = [].
Proof.
  induction 1 as [|c s Hc Hs IH]; simpl; [reflexivity|]. now rewrite Hc.
Qed.

Lemma tokens_separators (line : list Z) :
  Forall is_separator line -> tokens line = [].
Proof.
  intros H. unfold tokens, split. apply split_from_spaces.
  unfold replace_char. rewrite map_map. apply Forall_map.
  eapply Forall_impl; [exact H|]. intros c [->|[->| ->]]; reflexivity.
Qed.

(** C9: on a line that is not empty once stripped and is made of tabs,
    spaces and commas only, the loop body raises [IndexError] (at
    [parts[0]], the list of tokens being empty): the line is not skipped.
    So does [parse_words] whenever the loop reaches such a line, that is
    with [count < max_words]. *)
Theorem separator_line_raises_IndexError (rt : Runtime) (raw : list Z)
    (ws : list (list Z * Z)) (count : Z) :
  strip raw <> [] ->
  Forall is_separator (strip raw) ->
  tokens (strip raw) = [] /\
  parse_line rt raw ws count = Raised IndexError /\
  (forall max_words rest,
     count < max_words ->
     parse_loop rt max_words (raw :: rest) ws count = Raised IndexError).
Proof.
  intros Hne Hsep.
  assert (Hl : parse_line rt raw ws count = Raised IndexError).
  { unfold parse_line. destruct (strip raw) as [|c line] eqn:Hs; [congruence|].
    rewrite (tokens_separators _ Hsep).
    inversion Hsep as [|? ? Hc0 _]; subst.
    destruct Hc0 as [->|[->| ->]]; reflexivity. }
  split; [now apply tokens_separators|]. split; [exact Hl|].
  intros max_words rest Hc.
  simpl. destruct (count >=? max_words) eqn:Hge; [lia|]. now rewrite Hl.
Qed.

(** The file whose only line is [","] followed by a newline. *)
Lemma separator_line_raises_IndexError_witness :
  tokens (strip [44; 10]) = [] /\
  parse_line ascii_runtime [44; 10] [] 0 = Raised IndexError /\
  (forall max_words rest,
     0 < max_words ->
     parse_loop ascii_runtime max_words ([44; 10] :: rest) [] 0 = Raised IndexError).
Proof.
  apply (separator_line_raises_IndexError ascii_runtime [44; 10] [] 0).
  - discriminate.
  - change (Forall is_separator [44]).
    constructor; [right; right; reflexivity | constructor].
Defined.

(** ** The cap on the number of entries *)

Lemma dict_set_length (k : list Z) (v : Z) (d : list (list Z * Z)) :
  (length (dict_set k v d) <= S (length d))%nat.
Proof.
  induction d as [|[k' v'] d IH]; simpl; [lia|].
  destruct (decide (k = k')); simpl; lia.
Qed.

Lemma parse_loop_length (rt : Runtime) (max_words : Z) (lines : list (list Z)) :
  forall ws count words,
    Z.of_nat (length ws) <= count ->
    parse_loop rt max_words lines ws count = Returned words ->
    Z.of_nat (length words) <= Z.max count max_words.
Proof.
  induction lines as [|raw rest IH]; simpl; intros ws count words Hws H.
  - injection H as <-. lia.
  - destruct (count >=? max_words) eqn:Hge; [injection H as <-; lia|].
    destruct (parse_line rt raw ws count) as [[ws' count']| |] eqn:Hl; try discriminate.
    apply parse_line_cases in Hl as [[-> ->]|(word & tl & v & _ & _ & -> & ->)].
    + eapply IH in H; [lia|exact Hws].
    + eapply IH in H; [lia|]. pose proof (dict_set_length word (clamp v) ws). lia.
Qed.

(** ** The tables the parser returns *)

Lemma split_from_nonempty (s : list Z) :
  forall tok, Forall (fun t => t <> []) (split_from s tok).
Proof.
  induction s as [|c s IH]; intros tok; simpl.
  - destruct tok; repeat constructor. discriminate.
  - destruct (is_space c); [|apply IH].
    destruct tok; [apply IH|]. constructor; [discriminate|apply IH].
Qed.

Lemma dict_set_keys (k : list Z) (v : Z) (d : list (list Z * Z)) :
  map fst (dict_set k v d) = map fst d \/
  (~ In k (map fst d) /\ map fst (dict_set k v d) = map fst d ++ [k]).
Proof.
  induction d as [|[k' v'] d IH]; simpl.
  - right. split; [tauto|reflexivity].
  - destruct (decide (k = k')) as [->|Hne]; simpl; [now left|].
    destruct IH as [->|[Hk ->]]; [now left|].
    right. split; [|reflexivity]. intros [E|Hin]; [congruence|contradiction].
Qed.

Lemma dict_set_keys_NoDup (k : list Z) (v : Z) (d : list (list Z * Z)) :
  NoDup (map fst d) -> NoDup (map fst (dict_set k v d)).
Proof.
  intros H. destruct (dict_set_keys k v d) as [->|[Hk ->]]; [exact H|].
  apply NoDup_app. split; [exact H|]. split; [|apply NoDup_singleton].
  intros x Hx Hx'. apply list_elem_of_singleton in Hx'. subst x.
  apply Hk. now apply list_elem_of_In.
Qed.

Lemma dict_set_keys_Forall (P : list Z -> Prop) (k : list Z) (v : Z)
    (d : list (list Z * Z)) :
  P k -> Forall P (map fst d) -> Forall P (map fst (dict_set k v d)).
Proof.
  intros Hk H. destruct (dict_set_keys k v d) as [->|[_ ->]]; [exact H|].
  apply Forall_app. split; [exact H|]. now constructor.
Qed.

(** What [build_trie] can rely on: the keys of a table returned by
    [parse_words] are distinct and none is the empty word, and its
    frequencies are in [0,255]. *)
Theorem parse_words_table (rt : Runtime) (lines : list (list Z)) (max_words : Z)
    (words : list (list Z * Z)) :
  parse_words rt lines max_words = Returned words ->
  NoDup (map fst words) /\
  Forall (fun wf => fst wf <> []) words /\
  freqs_in_range words.
Proof.
  intros H.
  assert (Hgen : forall lines ws count words,
            NoDup (map fst ws) -> Forall (fun w => w <> []) (map fst ws) ->
            parse_loop rt max_words lines ws count = Returned words ->
            NoDup (map fst words) /\ Forall (fun w => w <> []) (map fst words)).
  { clear. induction lines as [|raw rest IH]; simpl; intros ws count words Hnd Hne H.
    - injection H as <-. auto.
    - destruct (count >=? max_words); [injection H as <-; auto|].
      destruct (parse_line rt raw ws count) as [[ws' count']| |] eqn:Hl; try discriminate.
      apply parse_line_cases in Hl as [[-> ->]|(word & tl & v & Ht & _ & -> & ->)].
      + eapply IH; eauto.
      + eapply IH; [| |exact H].
        * now apply dict_set_keys_NoDup.
        * apply dict_set_keys_Forall; [|exact Hne].
          pose proof (split_from_nonempty
                        (replace_char COMMA SPACE (replace_char TAB SPACE (strip raw))) [])
            as Hs.
          unfold tokens, split in Ht. rewrite Ht in Hs. now inversion Hs. }
  destruct (Hgen lines [] 0 words) as [Hnd Hne]; [constructor|constructor|exact H|].
  split; [exact Hnd|]. split.
  - apply Forall_forall. intros wf Hwf. rewrite Forall_forall in Hne. apply Hne.
    apply list_elem_of_fmap. eauto.
  - eapply parse_loop_in_range; [|exact H]. constructor.
Qed.

(** The lines ["cat 50"], ["car,30"], ["can\t10"]. *)
Lemma parse_words_table_witness :
  NoDup (map fst cat_car_can) /\
  Forall (fun wf => fst wf <> []) cat_car_can /\
  freqs_in_range cat_car_can.
Proof.
  apply (parse_words_table ascii_runtime
           [[99; 97; 116; 32; 53; 48]; [99; 97; 114; 44; 51; 48];
            [99; 97; 110; 9; 49; 48]] 50000).
  reflexivity.
Defined.

(** ** The encoder *)

Lemma pack_H_Some (v : Z) :
  0 <= v <= 0xFFFF -> pack_H v = Some [Z.shiftr v 8; Z.land v 0xFF].
Proof.
  intros H. unfold pack_H.
  destruct (0 <=? v) eqn:E1; [|lia]. destruct (v <=? 0xFFFF) eqn:E2; [|lia]. reflexivity.
Qed.

Lemma pack_H_None (v : Z) : ~ 0 <= v <= 0xFFFF -> pack_H v = None.
Proof.
  intros H. unfold pack_H.
  destruct (0 <=? v) eqn:E1; [|reflexivity]. destruct (v <=? 0xFFFF) eqn:E2; [lia|reflexivity].
Qed.

Lemma pack_B_Some (v : Z) : 0 <= v <= 0xFF -> pack_B v = Some [v].
Proof.
  intros H. unfold pack_B.
  destruct (0 <=? v) eqn:E1; [|lia]. destruct (v <=? 0xFF) eqn:E2; [|lia]. reflexivity.
Qed.

Lemma pack_B_None (v : Z) : ~ 0 <= v <= 0xFF -> pack_B v = None.
Proof.
  intros H. unfold pack_B.
  destruct (0 <=? v) eqn:E1; [|reflexivity]. destruct (v <=? 0xFF) eqn:E2; [lia|reflexivity].
Qed.

Lemma uint24_Some (v : Z) :
  offset_in_range v ->
  _uint24 v = Some [Z.land (Z.shiftr v 16) 0xFF; Z.land (Z.shiftr v 8) 0xFF; Z.land v 0xFF].
Proof.
  unfold offset_in_range, _uint24. intros H.
  destruct (v <? 0) eqn:E1; [lia|]. destruct (v >? MAX_OFFSET) eqn:E2; [lia|]. reflexivity.
Qed.

Lemma uint24_None (v : Z) : ~ offset_in_range v -> _uint24 v = None.
Proof.
  unfold offset_in_range, _uint24. intros H.
  destruct (v <? 0) eqn:E1; [reflexivity|]. destruct (v >? MAX_OFFSET) eqn:E2; [reflexivity|lia].
Qed.

Lemma offset_in_range_dec (v : Z) : {offset_in_range v} + {~ offset_in_range v}.
Proof.
  unfold offset_in_range.
  destruct (Z_le_dec 0 v); [destruct (Z_le_dec v MAX_OFFSET)|]; [left|right|right]; lia.
Qed.

Lemma encodable_dec (st : Store) (node : TrieNode) :
  {encodable st node} + {~ encodable st node}.
Proof.
  unfold encodable.
  destruct (Z_le_dec 0 (char node)), (Z_le_dec (char node) 0xFFFF),
    (Z_le_dec 0 (freq node)), (Z_le_dec (freq node) 0xFF),
    (offset_in_range_dec (first_child_offset st node)),
    (offset_in_range_dec (next_sibling_offset st node));
    first [left; tauto | right; intros (? & ? & ? & ?); lia | right; tauto].
Qed.

Lemma write_node_encodable (st : Store) (node : TrieNode) (f : list Z) :
  encodable st node -> write_node st node f = (f ++ record st node, None).
Proof.
  intros (Hc & Hf & Hfc & Hns). unfold write_node.
  rewrite (pack_H_Some _ Hc), (pack_B_Some _ Hf), (uint24_Some _ Hfc), (uint24_Some _ Hns).
  unfold record. now rewrite <- !app_assoc.
Qed.

(** What is left in the file when a node cannot be encoded: [f] and the
    fields written before the exception. *)
Lemma write_node_not_encodable (st : Store) (node : TrieNode) (f : list Z) :
  ~ encodable st node ->
  exists e partial,
    write_node st node f = (f ++ partial, Some e) /\
    match pack_H (char node), pack_B (freq node),
          _uint24 (first_child_offset st node) with
    | None, _, _ => e = StructError /\ partial = []
    | Some c, None, _ => e = StructError /\ partial = c
    | Some c, Some q, None => e = ValueError /\ partial = c ++ q
    | Some c, Some q, Some b => e = ValueError /\ partial = c ++ q ++ b
    end.
Proof.
  intros Hne. unfold write_node.
  destruct (pack_H (char node)) as [c|] eqn:Ec;
    [|exists StructError, []; now rewrite app_nil_r].
  destruct (pack_B (freq node)) as [q|] eqn:Eq; [|exists StructError, c; auto].
  destruct (_uint24 (first_child_offset st node)) as [b|] eqn:Eb;
    [|exists ValueError, (c ++ q); now rewrite <- app_assoc].
  destruct (_uint24 (next_sibling_offset st node)) as [b'|] eqn:Eb';
    [|exists ValueError, (c ++ q ++ b); now rewrite <- !app_assoc].
  exfalso. apply Hne. unfold encodable.
  destruct (Z_le_dec 0 (char node)), (Z_le_dec (char node) 0xFFFF);
    try (rewrite pack_H_None in Ec by lia; discriminate).
  destruct (Z_le_dec 0 (freq node)), (Z_le_dec (freq node) 0xFF);
    try (rewrite pack_B_None in Eq by lia; discriminate).
  destruct (offset_in_range_dec (first_child_offset st node));
    [|rewrite uint24_None in Eb by assumption; discriminate].
  destruct (offset_in_range_dec (next_sibling_offset st node));
    [|rewrite uint24_None in Eb' by assumption; discriminate].
  auto.
Qed.

Lemma record_length (st : Store) (node : TrieNode) : length (record st node) = 10%nat.
Proof. reflexivity. Qed.

Lemma records_length (st : Store) (nodes : list TrieNode) :
  length (concat (map (record st) nodes)) = (10 * length nodes)%nat.
Proof.
  induction nodes as [|n ns IH]; simpl; [reflexivity|].
  rewrite IH. lia.
Qed.

Lemma write_loop_encodable (st : Store) (nodes : list TrieNode) :
  forall f, Forall (encodable st) nodes ->
    write_loop st nodes f = (f ++ concat (map (record st) nodes), None).
Proof.
  induction nodes as [|n ns IH]; simpl; intros f H.
  - now rewrite app_nil_r.
  - inversion H as [|? ? Hn Hns]; subst.
    rewrite (write_node_encodable _ _ _ Hn), (IH _ Hns).
    now rewrite <- app_assoc.
Qed.

Lemma write_loop_app (st : Store) (done rest : list TrieNode) (f : list Z) :
  Forall (encodable st) done ->
  write_loop st (done ++ rest) f =
  write_loop st rest (f ++ concat (map (record st) done)).
Proof.
  revert f. induction done as [|n ns IH]; simpl; intros f H.
  - now rewrite app_nil_r.
  - inversion H as [|? ? Hn Hns]; subst.
    rewrite (write_node_encodable _ _ _ Hn), (IH _ Hns).
    now rewrite <- app_assoc.
Qed.

(** The first node that cannot be encoded splits the list. *)
Lemma first_not_encodable (st : Store) (nodes : list TrieNode) :
  Exists (fun n => ~ encodable st n) nodes ->
  exists done node rest,
    nodes = done ++ node :: rest /\ Forall (encodable st) done /\ ~ encodable st node.
Proof.
  induction nodes as [|n ns IH]; intros H; [inversion H|].
  destruct (encodable_dec st n) as [Hn|Hn].
  - inversion H as [? ? Hx|? ? Hx]; subst; [contradiction|].
    destruct (IH Hx) as (done & node & rest & -> & Hd & Hnode).
    exists (n :: done), node, rest. repeat split; auto.
  - exists [], n, ns. repeat split; auto.
Qed.

Lemma offending_not_encodable (st : Store) (node : TrieNode) :
  offending st node -> ~ encodable st node.
Proof. intros [H|H] (_ & _ & H1 & H2); contradiction. Qed.

(** C2, as the code has it: if some first_child or next_sibling offset is
    outside [0, 16777215], [write_bin] raises at the first node it cannot
    encode; the records of the nodes before it are in the file in full, and
    they are followed by the fields of the failing node that were written
    before the exception: nothing if its char is out of range, the 2 char
    bytes if its frequency is, the char and frequency bytes (3 bytes) if its
    first_child offset is, and 6 bytes if only its next_sibling offset is. *)
Theorem write_bin_offset_out_of_range (nodes : list TrieNode) (st : Store) :
  Exists (offending st) nodes ->
  exists done node rest e partial,
    nodes = done ++ node :: rest /\
    Forall (encodable st) done /\
    write_bin nodes st = (concat (map (record st) done) ++ partial, Some e) /\
    length (concat (map (record st) done)) = (10 * length done)%nat /\
    match pack_H (char node), pack_B (freq node),
          _uint24 (first_child_offset st node) with
    | None, _, _ => e = StructError /\ partial = []
    | Some c, None, _ => e = StructError /\ partial = c
    | Some c, Some q, None => e = ValueError /\ partial = c ++ q
    | Some c, Some q, Some b => e = ValueError /\ partial = c ++ q ++ b
    end.
Proof.
  intros H.
  assert (H' : Exists (fun n => ~ encodable st n) nodes).
  { eapply Exists_impl; [exact H|]. intros n. apply offending_not_encodable. }
  destruct (first_not_encodable _ _ H') as (done & node & rest & -> & Hd & Hn).
  destruct (write_node_not_encodable st node (concat (map (record st) done)) Hn)
    as (e & partial & Hw & Hm).
  exists done, node, rest, e, partial. repeat split; auto.
  - unfold write_bin. rewrite (write_loop_app _ _ _ _ Hd). simpl. now rewrite Hw.
  - apply records_length.
Qed.

Lemma overflow_store_offending : offending overflow_store root_node.
Proof. left. vm_compute. intros [_ H]. now apply H. Qed.

(** The root alone, its first child at offset [2^24]: 3 bytes are written. *)
Lemma write_bin_offset_out_of_range_witness :
  exists done node rest e partial,
    [root_node] = done ++ node :: rest /\
    Forall (encodable overflow_store) done /\
    write_bin [root_node] overflow_store =
      (concat (map (record overflow_store) done) ++ partial, Some e) /\
    length (concat (map (record overflow_store) done)) = (10 * length done)%nat /\
    match pack_H (char node), pack_B (freq node),
          _uint24 (first_child_offset overflow_store node) with
    | None, _, _ => e = StructError /\ partial = []
    | Some c, None, _ => e = StructError /\ partial = c
    | Some c, Some q, None => e = ValueError /\ partial = c ++ q
    | Some c, Some q, Some b => e = ValueError /\ partial = c ++ q ++ b
    end.
Proof.
  apply (write_bin_offset_out_of_range [root_node] overflow_store).
  apply Exists_cons_hd. exact overflow_store_offending.
Defined.

(** C2, as the specification states it, fails: the root's first child is at
    offset [2^24], encoding raises, and the file holds the 3 first bytes of
    the root's record. *)
Lemma write_bin_emits_truncated_record :
  Exists (offending overflow_store) [root_node] /\
  write_bin [root_node] overflow_store = ([0; 94; 0], Some ValueError) /\
  ~ (exists k : nat, length (fst (write_bin [root_node] overflow_store)) = (10 * k)%nat).
Proof.
  assert (E : write_bin [root_node] overflow_store = ([0; 94; 0], Some ValueError))
    by (vm_compute; reflexivity).
  split; [apply Exists_cons_hd; exact overflow_store_offending|].
  split; [exact E|].
  intros [k Hk]. rewrite E in Hk. cbn [fst length] in Hk. lia.
Qed.

(** ** Tries *)

Lemma TrieNode_ind' (P : TrieNode -> Prop) :
  (forall p c f cs, Forall P cs -> P (Node p c f cs)) -> forall t, P t.
Proof.
  intros H. fix IH 1. intros [p c f cs]. apply H.
  induction cs as [|x cs IHcs]; constructor; [apply IH | exact IHcs].
Qed.

Lemma subnodes_unfold (t : TrieNode) : subnodes t = t :: descendants t.
Proof. destruct t; reflexivity. Qed.

Lemma node_count_unfold (t : TrieNode) :
  node_count t = S (total_count (children t)).
Proof. destruct t; reflexivity. Qed.

Lemma total_count_app (l1 l2 : list TrieNode) :
  total_count (l1 ++ l2) = (total_count l1 + total_count l2)%nat.
Proof. unfold total_count. now rewrite map_app, list_sum_app. Qed.

Lemma total_count_cons (t : TrieNode) (l : list TrieNode) :
  total_count (t :: l) = (node_count t + total_count l)%nat.
Proof. reflexivity. Qed.

Lemma total_count_perm (l1 l2 : list TrieNode) :
  Permutation l1 l2 -> total_count l1 = total_count l2.
Proof.
  induction 1; rewrite ?total_count_cons in *; lia.
Qed.

Lemma node_count_subnodes (t : TrieNode) : node_count t = length (subnodes t).
Proof.
  induction t as [p c f cs IH] using TrieNode_ind'. simpl. f_equal.
  induction IH as [|x l Hx Hl IHl]; simpl; [reflexivity|].
  rewrite length_app, <- Hx, <- IHl. reflexivity.
Qed.

Lemma total_count_concat (l : list TrieNode) :
  total_count l = length (concat (map subnodes l)).
Proof.
  induction l as [|x l IH]; simpl; [reflexivity|].
  rewrite total_count_cons, length_app, IH, node_count_subnodes. reflexivity.
Qed.

(** ** Sorting the children *)

Lemma insert_by_char_perm (x : TrieNode) (l : list TrieNode) :
  Permutation (insert_by_char x l) (x :: l).
Proof.
  induction l as [|y l IH]; simpl; [reflexivity|].
  destruct (char x <=? char y); [reflexivity|].
  rewrite IH. apply perm_swap.
Qed.

Lemma sorted_by_char_perm (l : list TrieNode) : Permutation (sorted_by_char l) l.
Proof.
  induction l as [|x l IH]; simpl; [reflexivity|].
  rewrite insert_by_char_perm. now constructor.
Qed.

Lemma sorted_by_char_nil (l : list TrieNode) : sorted_by_char l = [] -> l = [].
Proof.
  intros H. pose proof (Permutation_length (sorted_by_char_perm l)) as E.
  rewrite H in E. destruct l; [reflexivity|discriminate].
Qed.

Lemma subnodes_concat_perm (l1 l2 : list TrieNode) :
  Permutation l1 l2 ->
  Permutation (concat (map subnodes l1)) (concat (map subnodes l2)).
Proof.
  induction 1; simpl.
  - reflexivity.
  - now apply Permutation_app_head.
  - rewrite !app_assoc. apply Permutation_app_tail, Permutation_app_comm.
  - etransitivity; eauto.
Qed.

(** ** The breadth-first loop *)

Lemma bfs_order_length (fuel : nat) :
  forall queue, (total_count queue <= fuel)%nat ->
    length (bfs_order fuel queue) = total_count queue.
Proof.
  induction fuel as [|fuel IH]; intros [|node queue] Hf; try reflexivity.
  - rewrite total_count_cons, node_count_unfold in Hf. lia.
  - simpl. rewrite IH.
    + rewrite total_count_app, (total_count_perm _ _ (sorted_by_char_perm _)),
        total_count_cons, node_count_unfold. lia.
    + rewrite total_count_app, (total_count_perm _ _ (sorted_by_char_perm _)).
      rewrite total_count_cons, node_count_unfold in Hf. lia.
Qed.

Lemma bfs_order_perm (fuel : nat) :
  forall queue, (total_count queue <= fuel)%nat ->
    Permutation (bfs_order fuel queue) (concat (map subnodes queue)).
Proof.
  induction fuel as [|fuel IH]; intros [|node queue] Hf; try reflexivity.
  - rewrite total_count_cons, node_count_unfold in Hf. lia.
  - simpl bfs_order. rewrite IH.
    + simpl. rewrite subnodes_unfold. simpl. constructor.
      rewrite map_app, concat_app. unfold descendants.
      rewrite (Permutation_app_comm _ (concat (map subnodes queue))).
      apply Permutation_app_head.
      apply subnodes_concat_perm, sorted_by_char_perm.
    + rewrite total_count_app, (total_count_perm _ _ (sorted_by_char_perm _)).
      rewrite total_count_cons, node_count_unfold in Hf. lia.
Qed.

(** The loop returns when the offset of the last node it dequeues fits in
    3 bytes; its result is then the dequeuing order and its assignments. *)
Lemma bfs_loop_returns (fuel : nat) :
  forall queue nodes off st,
    (total_count queue <= fuel)%nat ->
    (queue = [] \/ off + 10 * (Z.of_nat (total_count queue) - 1) <= MAX_OFFSET) ->
    bfs_loop fuel queue nodes off st =
    Returned (nodes ++ bfs_order fuel queue, layout (bfs_order fuel queue) off st).
Proof.
  induction fuel as [|fuel IH]; intros [|node queue] nodes off st Hf Hfit;
    try (simpl; now rewrite app_nil_r).
  - rewrite total_count_cons, node_count_unfold in Hf. lia.
  - destruct Hfit as [Hfit|Hfit]; [discriminate|].
    assert (Hc : total_count (queue ++ sorted_by_char (children node)) =
                 (total_count (node :: queue) - 1)%nat).
    { rewrite total_count_app, (total_count_perm _ _ (sorted_by_char_perm _)),
        total_count_cons, node_count_unfold. lia. }
    assert (Hpos : (1 <= total_count (node :: queue))%nat).
    { rewrite total_count_cons, node_count_unfold. lia. }
    cbn [bfs_loop bfs_order layout].
    destruct (off >? MAX_OFFSET) eqn:Hoff; [lia|].
    unfold visit.
    destruct (sorted_by_char (children node)) as [|c0 cs] eqn:Hs.
    + rewrite app_nil_r in *. rewrite IH.
      * now rewrite <- app_assoc.
      * lia.
      * destruct queue; [now left|right]. unfold NODE_SIZE. lia.
    + rewrite IH.
      * now rewrite <- app_assoc.
      * lia.
      * right. unfold NODE_SIZE. lia.
Qed.

(** Otherwise it raises the capacity error. *)
Lemma bfs_loop_raises (fuel : nat) :
  forall queue nodes off st,
    (total_count queue <= fuel)%nat ->
    queue <> [] ->
    MAX_OFFSET < off + 10 * (Z.of_nat (total_count queue) - 1) ->
    bfs_loop fuel queue nodes off st = Raised ValueError.
Proof.
  induction fuel as [|fuel IH]; intros [|node queue] nodes off st Hf Hne Hbig;
    try congruence.
  - rewrite total_count_cons, node_count_unfold in Hf. lia.
  - assert (Hc : total_count (queue ++ sorted_by_char (children node)) =
                 (total_count (node :: queue) - 1)%nat).
    { rewrite total_count_app, (total_count_perm _ _ (sorted_by_char_perm _)),
        total_count_cons, node_count_unfold. lia. }
    assert (Hpos : (1 <= total_count (node :: queue))%nat).
    { rewrite total_count_cons, node_count_unfold. lia. }
    cbn [bfs_loop].
    destruct (off >? MAX_OFFSET) eqn:Hoff; [reflexivity|].
    assert (Hne' : queue ++ sorted_by_char (children node) <> []).
    { intros E. rewrite E in Hc. change (total_count []) with 0%nat in Hc. lia. }
    destruct (sorted_by_char (children node)) as [|c0 cs] eqn:Hs.
    + rewrite app_nil_r in *. apply IH; [lia|exact Hne'|unfold NODE_SIZE; lia].
    + apply IH; [lia|exact Hne'|unfold NODE_SIZE; lia].
Qed.

(** ** Insertion of a word *)

(** [setdefault] either finds the child of char [ch] or appends a new one. *)
Lemma setdefault_walk_cases (p : list Z) (ch : Z) (k : TrieNode -> TrieNode)
    (cs : list TrieNode) :
  (exists l1 c l2,
      cs = l1 ++ c :: l2 /\ char c = ch /\ Forall (fun x => char x <> ch) l1 /\
      setdefault_walk p ch k cs = l1 ++ k c :: l2) \/
  (Forall (fun x => char x <> ch) cs /\
   setdefault_walk p ch k cs = cs ++ [k (TrieNode_new (p ++ [ch]) ch)]).
Proof.
  induction cs as [|c cs IH]; simpl.
  - right. split; [constructor|reflexivity].
  - destruct (char c =? ch) eqn:E.
    + left. exists [], c, cs. repeat split; [lia|constructor].
    + destruct IH as [(l1 & c' & l2 & -> & Hc & Hl & ->)|[Hl ->]].
      * left. exists (c :: l1), c', l2. repeat split; auto.
        constructor; [lia|exact Hl].
      * right. split; [constructor; [lia|exact Hl]|reflexivity].
Qed.

Lemma insert_path (word : list Z) (f : Z) (t : TrieNode) :
  path (insert word f t) = path t.
Proof. destruct word; reflexivity. Qed.

Lemma insert_char (word : list Z) (f : Z) (t : TrieNode) :
  char (insert word f t) = char t.
Proof. destruct word; reflexivity. Qed.

Lemma insert_freq_nil (f : Z) (t : TrieNode) : freq (insert [] f t) = f.
Proof. reflexivity. Qed.

Lemma insert_freq_cons (ch : Z) (word : list Z) (f : Z) (t : TrieNode) :
  freq (insert (ch :: word) f t) = freq t.
Proof. reflexivity. Qed.

Lemma descendants_concat (l1 l2 : list TrieNode) :
  concat (map subnodes (l1 ++ l2)) =
  concat (map subnodes l1) ++ concat (map subnodes l2).
Proof. now rewrite map_app, concat_app. Qed.

(** A property of the chars and frequencies of all nodes is kept by an
    insertion whose chars and frequency have it. *)
Lemma insert_subnodes_Forall (Pc Pf : Z -> Prop) (f : Z) :
  Pf 0 -> Pf f ->
  forall word t,
    Forall Pc word ->
    Forall (fun n => Pc (char n) /\ Pf (freq n)) (subnodes t) ->
    Forall (fun n => Pc (char n) /\ Pf (freq n)) (subnodes (insert word f t)).
Proof.
  intros H0 Hf. induction word as [|ch word IH]; intros t Hw Ht.
  - rewrite subnodes_unfold in *. inversion Ht as [|? ? [Hc _] Hd]; subst.
    constructor; [split; [exact Hc|exact Hf]|exact Hd].
  - inversion Hw as [|? ? Hch Hw']; subst.
    rewrite subnodes_unfold in *. inversion Ht as [|? ? Hhd Hd]; subst.
    constructor; [exact Hhd|]. unfold descendants in *. cbn [insert set_children children].
    destruct (setdefault_walk_cases (path t) ch (insert word f) (children t))
      as [(l1 & c & l2 & E & Hc & _ & ->)|[_ ->]].
    + rewrite E in Hd. rewrite descendants_concat in *. cbn [map concat] in *.
      rewrite !Forall_app in *. destruct Hd as (H1 & H2 & H3).
      repeat split; auto.
    + rewrite descendants_concat. cbn [map concat]. rewrite app_nil_r.
      rewrite Forall_app. split; [exact Hd|].
      apply IH; [exact Hw'|]. repeat constructor; [exact Hch|exact H0].
Qed.

Lemma insert_all_subnodes_Forall (Pc Pf : Z -> Prop) :
  Pf 0 ->
  forall words t,
    Forall (fun wf => Forall Pc (fst wf) /\ Pf (snd wf)) words ->
    Forall (fun n => Pc (char n) /\ Pf (freq n)) (subnodes t) ->
    Forall (fun n => Pc (char n) /\ Pf (freq n)) (subnodes (insert_all words t)).
Proof.
  intros H0. induction words as [|[w f] words IH]; intros t Hw Ht; [exact Ht|].
  inversion Hw as [|? ? [Hc Hf] Hw']; subst. simpl in *.
  apply IH; [exact Hw'|]. now apply insert_subnodes_Forall.
Qed.

(** The nodes of the trie of a table whose chars fit 16 bits and whose
    frequencies fit 8 bits have chars and frequencies in range. *)
Lemma trie_of_fields_in_range (words : list (list Z * Z)) :
  chars_in_range words -> freqs_in_range words ->
  Forall (fun n => 0 <= char n <= 0xFFFF /\ 0 <= freq n <= 255)
    (subnodes (trie_of words)).
Proof.
  intros Hc Hf. unfold trie_of.
  apply (insert_all_subnodes_Forall (fun c => 0 <= c <= 0xFFFF) (fun q => 0 <= q <= 255)).
  - lia.
  - unfold chars_in_range, freqs_in_range in *. rewrite Forall_forall in *.
    intros wf Hin. split; [now apply Hc | now apply Hf].
  - repeat constructor; unfold CARET; simpl; lia.
Qed.

(** ** The store after the layout pass *)

Lemma link_siblings_offset (cs : list TrieNode) :
  forall st, st_offset (link_siblings cs st) = st_offset st.
Proof.
  induction cs as [|l [|r cs] IH]; intros st; try reflexivity.
  change (link_siblings (l :: r :: cs) st)
    with (link_siblings (r :: cs) (set_next_sibling (path l) (path r) st)).
  now rewrite IH.
Qed.

Lemma link_siblings_first_child (cs : list TrieNode) :
  forall st, st_first_child (link_siblings cs st) = st_first_child st.
Proof.
  induction cs as [|l [|r cs] IH]; intros st; try reflexivity.
  change (link_siblings (l :: r :: cs) st)
    with (link_siblings (r :: cs) (set_next_sibling (path l) (path r) st)).
  now rewrite IH.
Qed.

Lemma visit_offset (node : TrieNode) (off : Z) (st : Store) :
  st_offset (visit node off st) = <[path node := off]> (st_offset st).
Proof.
  unfold visit. destruct (sorted_by_char (children node)); [reflexivity|].
  now rewrite link_siblings_offset.
Qed.

Lemma visit_first_child (node : TrieNode) (off : Z) (st : Store) :
  st_first_child (visit node off st) =
  match sorted_by_char (children node) with
  | [] => st_first_child st
  | c0 :: _ => <[path node := path c0]> (st_first_child st)
  end.
Proof.
  unfold visit. destruct (sorted_by_char (children node)); [reflexivity|].
  now rewrite link_siblings_first_child.
Qed.

Lemma offset_of_in_range (st : Store) (x : list Z) :
  offsets_in_range st -> offset_in_range (offset_of st x).
Proof.
  intros H. unfold offset_of. destruct (st_offset st !! x) as [v|] eqn:E; simpl.
  - eapply H; eauto.
  - unfold offset_in_range, MAX_OFFSET. lia.
Qed.

Lemma layout_offsets_in_range (nodes : list TrieNode) :
  forall off st,
    0 <= off ->
    (nodes = [] \/ off + 10 * (Z.of_nat (length nodes) - 1) <= MAX_OFFSET) ->
    offsets_in_range st -> offsets_in_range (layout nodes off st).
Proof.
  induction nodes as [|n nodes IH]; intros off st H0 Hfit Hst; [exact Hst|].
  destruct Hfit as [Hfit|Hfit]; [discriminate|].
  cbn [layout length] in *. apply IH.
  - unfold NODE_SIZE. lia.
  - destruct nodes; [now left|right]. cbn [length] in *. unfold NODE_SIZE. lia.
  - intros x v. rewrite visit_offset, lookup_insert.
    case_decide; [|apply Hst]. intros [= <-]. unfold offset_in_range.
    assert (0 <= Z.of_nat (length nodes)) by lia. lia.
Qed.

Lemma field_offsets_in_range (st : Store) (node : TrieNode) :
  offsets_in_range st ->
  offset_in_range (first_child_offset st node) /\
  offset_in_range (next_sibling_offset st node).
Proof.
  intros H. unfold first_child_offset, next_sibling_offset.
  split.
  - destruct (st_first_child st !! path node); [now apply offset_of_in_range|].
    unfold offset_in_range, MAX_OFFSET. lia.
  - destruct (st_next_sibling st !! path node); [now apply offset_of_in_range|].
    unfold offset_in_range, MAX_OFFSET. lia.
Qed.

Lemma empty_store_offsets_in_range : offsets_in_range empty_store.
Proof. intros x v H. simpl in H. now rewrite lookup_empty in H. Qed.

(** ** build_trie *)

Lemma total_count_singleton (t : TrieNode) : total_count [t] = node_count t.
Proof. unfold total_count. simpl. lia. Qed.

Lemma order_of_length (words : list (list Z * Z)) :
  length (order_of words) = node_count (trie_of words).
Proof.
  unfold order_of. rewrite bfs_order_length; rewrite total_count_singleton; lia.
Qed.

Lemma order_of_perm (words : list (list Z * Z)) :
  Permutation (order_of words) (subnodes (trie_of words)).
Proof.
  unfold order_of. rewrite bfs_order_perm by (rewrite total_count_singleton; lia).
  simpl. now rewrite app_nil_r.
Qed.

Lemma order_of_head (words : list (list Z * Z)) :
  exists rest, order_of words = trie_of words :: rest.
Proof.
  unfold order_of. rewrite node_count_unfold. simpl. eauto.
Qed.

(** [build_trie] returns exactly when the offset of the last node fits. *)
Lemma build_trie_returns (words : list (list Z * Z)) :
  10 * (Z.of_nat (node_count (trie_of words)) - 1) <= MAX_OFFSET ->
  build_trie words = Returned (order_of words, store_of words).
Proof.
  intros H. unfold build_trie, store_of, order_of. fold (trie_of words).
  rewrite bfs_loop_returns; [reflexivity| |].
  - rewrite total_count_singleton. lia.
  - right. rewrite total_count_singleton. lia.
Qed.

Lemma build_trie_raises (words : list (list Z * Z)) :
  MAX_OFFSET < 10 * (Z.of_nat (node_count (trie_of words)) - 1) ->
  build_trie words = Raised ValueError.
Proof.
  intros H. unfold build_trie. fold (trie_of words).
  apply bfs_loop_raises; [| discriminate |].
  - rewrite total_count_singleton. lia.
  - rewrite total_count_singleton. lia.
Qed.

(** The loop bound of the model is never reached. *)
Lemma build_trie_not_exhausted (words : list (list Z * Z)) :
  build_trie words <> Exhausted.
Proof.
  destruct (Z_le_dec (10 * (Z.of_nat (node_count (trie_of words)) - 1)) MAX_OFFSET).
  - now rewrite build_trie_returns.
  - rewrite build_trie_raises by lia. discriminate.
Qed.

Lemma build_trie_inv (words : list (list Z * Z)) (nodes : list TrieNode) (st : Store) :
  build_trie words = Returned (nodes, st) ->
  nodes = order_of words /\ st = store_of words /\
  10 * (Z.of_nat (node_count (trie_of words)) - 1) <= MAX_OFFSET.
Proof.
  intros H.
  destruct (Z_le_dec (10 * (Z.of_nat (node_count (trie_of words)) - 1)) MAX_OFFSET) as [Hle|Hgt].
  - rewrite build_trie_returns in H by exact Hle. now inversion H.
  - rewrite build_trie_raises in H by lia. discriminate.
Qed.

Lemma store_of_offsets_in_range (words : list (list Z * Z)) :
  10 * (Z.of_nat (node_count (trie_of words)) - 1) <= MAX_OFFSET ->
  offsets_in_range (store_of words).
Proof.
  intros H. unfold store_of. apply layout_offsets_in_range.
  - lia.
  - right. now rewrite order_of_length.
  - apply empty_store_offsets_in_range.
Qed.

(** After a [build_trie] that returned, a node is encodable as soon as its
    char and frequency are in range: the offsets always are. *)
Lemma order_of_encodable (words : list (list Z * Z)) (node : TrieNode) :
  10 * (Z.of_nat (node_count (trie_of words)) - 1) <= MAX_OFFSET ->
  0 <= char node <= 0xFFFF -> 0 <= freq node <= 0xFF ->
  encodable (store_of words) node.
Proof.
  intros H Hc Hf. unfold encodable.
  destruct (field_offsets_in_range (store_of words) node
              (store_of_offsets_in_range _ H)) as [H1 H2].
  auto.
Qed.

(** C1, as the code has it: for a table whose characters all have code
    points at most 0xFFFF and whose frequencies are in [0,255], and whose
    trie has N nodes with 10 (N - 1) <= 16777215, [build_trie] returns the N
    nodes and [write_bin] writes exactly 10 N bytes without raising. *)
Theorem compile_succeeds (words : list (list Z * Z)) :
  chars_in_range words ->
  freqs_in_range words ->
  10 * (Z.of_nat (node_count (trie_of words)) - 1) <= MAX_OFFSET ->
  exists nodes st out,
    build_trie words = Returned (nodes, st) /\
    length nodes = node_count (trie_of words) /\
    write_bin nodes st = (out, None) /\
    compile words = Returned (out, None) /\
    length out = (10 * node_count (trie_of words))%nat.
Proof.
  intros Hc Hf Hn.
  assert (Henc : Forall (encodable (store_of words)) (order_of words)).
  { pose proof (trie_of_fields_in_range words Hc Hf) as Hall.
    rewrite <- (order_of_perm words) in Hall.
    eapply Forall_impl; [exact Hall|]. intros n [H1 H2].
    now apply order_of_encodable. }
  assert (Hw : write_bin (order_of words) (store_of words) =
               (concat (map (record (store_of words)) (order_of words)), None)).
  { unfold write_bin. now rewrite write_loop_encodable. }
  exists (order_of words), (store_of words),
    (concat (map (record (store_of words)) (order_of words))).
  repeat split.
  - now apply build_trie_returns.
  - apply order_of_length.
  - exact Hw.
  - unfold compile. rewrite build_trie_returns by exact Hn. now rewrite Hw.
  - now rewrite records_length, order_of_length.
Qed.

Lemma compile_succeeds_witness :
  exists nodes st out,
    build_trie cat_car_can = Returned (nodes, st) /\
    length nodes = node_count (trie_of cat_car_can) /\
    write_bin nodes st = (out, None) /\
    compile cat_car_can = Returned (out, None) /\
    length out = (10 * node_count (trie_of cat_car_can))%nat.
Proof.
  apply (compile_succeeds cat_car_can).
  - unfold chars_in_range, cat_car_can. repeat constructor; simpl; lia.
  - unfold freqs_in_range, cat_car_can. repeat constructor; simpl; lia.
  - vm_compute. discriminate.
Defined.

(** C1, as the specification states it, fails: the table with the one word
    U+1F600 has a trie of 2 nodes, and [write_bin] raises [struct.error] on
    the second one after writing the root's record. *)
Lemma compile_fails_on_astral_char :
  10 * (Z.of_nat (node_count (trie_of astral_table)) - 1) <= MAX_OFFSET /\
  compile astral_table = Returned ([0; 94; 0; 0; 0; 10; 0; 0; 0; 0], Some StructError).
Proof.
  split; [vm_compute; discriminate | vm_compute; reflexivity].
Qed.

(** ** The example of the specification *)

(** C7: for the table cat -> 50, car -> 30, can -> 10, [build_trie] returns 6
    nodes (the root, 'c', 'a', and 'n', 'r', 't'); the children of 'a' are
    linked in the order 'n', 'r', 't' (first_child of 'a' is 'n', then
    next_sibling twice, then none) and carry the frequencies 10, 30, 50;
    [write_bin] writes exactly these 60 bytes. *)
Theorem cat_car_can_compiles :
  exists st,
    build_trie cat_car_can =
      Returned ([node_root; node_c; node_a; node_n; node_r; node_t], st) /\
    node_count (trie_of cat_car_can) = 6%nat /\
    children node_a = [node_t; node_r; node_n] /\
    sorted_by_char (children node_a) = [node_n; node_r; node_t] /\
    (char node_n < char node_r < char node_t) /\
    (freq node_n = 10 /\ freq node_r = 30 /\ freq node_t = 50) /\
    st_first_child st !! path node_a = Some (path node_n) /\
    st_next_sibling st !! path node_n = Some (path node_r) /\
    st_next_sibling st !! path node_r = Some (path node_t) /\
    st_next_sibling st !! path node_t = None /\
    map (offset_of st) (map path [node_root; node_c; node_a; node_n; node_r; node_t]) =
      [0; 10; 20; 30; 40; 50] /\
    write_bin [node_root; node_c; node_a; node_n; node_r; node_t] st =
      ([0; 94;  0;  0; 0; 10;  0; 0; 0;  0;
        0; 99;  0;  0; 0; 20;  0; 0; 0;  0;
        0; 97;  0;  0; 0; 30;  0; 0; 0;  0;
        0; 110; 10; 0; 0; 0;   0; 0; 40; 0;
        0; 114; 30; 0; 0; 0;   0; 0; 50; 0;
        0; 116; 50; 0; 0; 0;   0; 0; 0;  0], None) /\
    length (fst (write_bin [node_root; node_c; node_a; node_n; node_r; node_t] st)) = 60%nat.
Proof.
  exists (store_of cat_car_can).
  split.
  { rewrite build_trie_returns by (vm_compute; discriminate).
    f_equal. }
  repeat split; try (vm_compute; reflexivity); vm_compute; lia.
Qed.

(** ** Reading back what [write_bin] wrote *)

Lemma write_loop_inv (st : Store) (nodes : list TrieNode) :
  forall f out,
    write_loop st nodes f = (out, None) ->
    Forall (encodable st) nodes /\ out = f ++ concat (map (record st) nodes).
Proof.
  induction nodes as [|n nodes IH]; simpl; intros f out H.
  - injection H as <-. split; [constructor | now rewrite app_nil_r].
  - destruct (encodable_dec st n) as [Hn|Hn].
    + rewrite (write_node_encodable _ _ _ Hn) in H.
      destruct (IH _ _ H) as [Hall ->]. split; [now constructor|].
      now rewrite <- app_assoc.
    + destruct (write_node_not_encodable st n f Hn) as (e & partial & Hw & _).
      rewrite Hw in H. discriminate.
Qed.

Lemma write_bin_inv (st : Store) (nodes : list TrieNode) (out : list Z) :
  write_bin nodes st = (out, None) ->
  Forall (encodable st) nodes /\ out = concat (map (record st) nodes).
Proof. intros H. now apply write_loop_inv in H. Qed.

Lemma byte_at_records (st : Store) (nodes : list TrieNode) :
  forall (k : nat) node (j : nat),
    nodes !! k = Some node -> (j < 10)%nat ->
    byte_at (concat (map (record st) nodes)) (10 * k + j) = nth j (record st node) 0.
Proof.
  unfold byte_at.
  induction nodes as [|n nodes IH]; intros k node j Hk Hj; [discriminate|].
  destruct k as [|k]; cbn [map concat].
  - injection Hk as ->. rewrite app_nth1 by (rewrite record_length; lia).
    f_equal.
  - rewrite app_nth2 by (rewrite record_length; lia).
    rewrite record_length.
    replace (10 * S k + j - 10)%nat with (10 * k + j)%nat by lia.
    now apply IH.
Qed.

Lemma be16_decode (v : Z) :
  0 <= v <= 0xFFFF -> Z.shiftr v 8 * 256 + Z.land v 0xFF = v.
Proof.
  intros H. rewrite Z.shiftr_div_pow2 by lia.
  change 0xFF with (Z.ones 8). rewrite Z.land_ones by lia.
  change (2 ^ 8) with 256. pose proof (Z.div_mod v 256). lia.
Qed.

Lemma be24_decode (v : Z) :
  offset_in_range v ->
  Z.land (Z.shiftr v 16) 0xFF * 65536 + Z.land (Z.shiftr v 8) 0xFF * 256 +
  Z.land v 0xFF = v.
Proof.
  unfold offset_in_range, MAX_OFFSET. intros H.
  rewrite !Z.shiftr_div_pow2 by lia.
  change 0xFF with (Z.ones 8). rewrite !Z.land_ones by lia.
  change (2 ^ 8) with 256. change (2 ^ 16) with 65536.
  assert (E1 : (v / 65536) mod 256 = v / 65536).
  { apply Z.mod_small. split; [apply Z.div_pos; lia|].
    apply Z.div_lt_upper_bound; lia. }
  assert (E2 : v / 256 = 256 * (v / 65536) + (v / 256) mod 256).
  { replace (v / 65536) with (v / 256 / 256) by (rewrite Z.div_div; [reflexivity|lia|lia]).
    apply Z.div_mod. lia. }
  rewrite E1. pose proof (Z.div_mod v 256). lia.
Qed.

Lemma write_node_fails_short (st : Store) (node : TrieNode) (f : list Z) :
  ~ encodable st node ->
  exists e partial,
    write_node st node f = (f ++ partial, Some e) /\ (length partial < 10)%nat.
Proof.
  intros Hne.
  destruct (write_node_not_encodable st node f Hne) as (e & partial & Hw & Hm).
  exists e, partial. split; [exact Hw|].
  unfold pack_H, pack_B, _uint24 in Hm.
  destruct ((0 <=? char node) && (char node <=? 0xFFFF)); [|destruct Hm as [_ ->]; simpl; lia].
  destruct ((0 <=? freq node) && (freq node <=? 0xFF)); [|destruct Hm as [_ ->]; simpl; lia].
  destruct ((first_child_offset st node <? 0) || (first_child_offset st node >? MAX_OFFSET));
    destruct Hm as [_ ->]; simpl; lia.
Qed.

Lemma all_encodable_or_not (st : Store) (nodes : list TrieNode) :
  Forall (encodable st) nodes \/ Exists (fun n => ~ encodable st n) nodes.
Proof.
  induction nodes as [|n nodes [IH|IH]].
  - left. constructor.
  - destruct (encodable_dec st n); [left; now constructor|right; now left].
  - right. now right.
Qed.

(** The file after [write_bin]: the records of the nodes that come before
    the first one that cannot be encoded, and fewer than 10 bytes more. *)
Lemma output_shape (st : Store) (nodes : list TrieNode) :
  exists done partial,
    output nodes st = concat (map (record st) done) ++ partial /\
    (length partial < 10)%nat /\
    Forall (encodable st) done /\
    (exists rest, nodes = done ++ rest) /\
    (snd (write_bin nodes st) = None -> done = nodes /\ partial = []).
Proof.
  destruct (all_encodable_or_not st nodes) as [Hall|Hex].
  - exists nodes, []. unfold output, write_bin.
    rewrite (write_loop_encodable _ _ _ Hall). cbn [fst snd app].
    split; [now rewrite app_nil_r|]. split; [simpl; lia|]. split; [exact Hall|].
    split; [exists []; now rewrite app_nil_r|auto].
  - destruct (first_not_encodable _ _ Hex) as (done & node & rest & -> & Hd & Hn).
    destruct (write_node_fails_short st node (concat (map (record st) done)) Hn)
      as (e & partial & Hw & Hlen).
    exists done, partial. unfold output, write_bin.
    rewrite (write_loop_app _ _ _ _ Hd). cbn [write_loop app]. rewrite Hw.
    cbn [fst snd].
    split; [reflexivity|]. split; [exact Hlen|]. split; [exact Hd|].
    split; [eauto|discriminate].
Qed.

(** The fields a reader finds in a record written in full are those of the
    node of the same index. *)
Lemma written_record_fields (st : Store) (nodes : list TrieNode)
    (k : nat) (node : TrieNode) :
  nodes !! k = Some node ->
  record_written (output nodes st) k ->
  encodable st node /\
  rec_char (output nodes st) k = char node /\
  rec_freq (output nodes st) k = freq node /\
  rec_first_child (output nodes st) k = first_child_offset st node /\
  rec_next_sibling (output nodes st) k = next_sibling_offset st node.
Proof.
  intros Hk Hwr.
  destruct (output_shape st nodes) as (done & partial & E & Hlen & Hd & [rest ->] & _).
  rewrite E in *.
  unfold record_written in Hwr. rewrite length_app, records_length in Hwr.
  assert (Hkd : (k < length done)%nat) by lia.
  rewrite lookup_app_l in Hk by exact Hkd.
  assert (Hn : encodable st node).
  { rewrite Forall_forall in Hd. apply Hd. eapply list_elem_of_lookup_2; eauto. }
  split; [exact Hn|].
  destruct Hn as (Hc & Hf & Hfc & Hns).
  assert (Hb : forall j, (j < 10)%nat ->
            byte_at (concat (map (record st) done) ++ partial) (10 * k + j) =
            nth j (record st node) 0).
  { intros j Hj. unfold byte_at. rewrite app_nth1 by (rewrite records_length; lia).
    now apply byte_at_records. }
  unfold rec_char, rec_freq, rec_first_child, rec_next_sibling.
  replace (10 * k)%nat with (10 * k + 0)%nat at 1 by lia.
  rewrite !Hb by lia. cbn [nth record].
  repeat split; [now apply be16_decode | now apply be24_decode | now apply be24_decode].
Qed.

(** When [write_bin] returns, every record is written in full. *)
Lemma returned_all_written (st : Store) (nodes : list TrieNode) (k : nat)
    (node : TrieNode) :
  snd (write_bin nodes st) = None ->
  nodes !! k = Some node ->
  record_written (output nodes st) k.
Proof.
  intros Hok Hk.
  destruct (output_shape st nodes) as (done & partial & E & _ & _ & _ & Hall).
  destruct (Hall Hok) as [-> ->]. rewrite E.
  unfold record_written. rewrite app_nil_r, records_length.
  apply lookup_lt_Some in Hk. lia.
Qed.

(** The record of a first node that can be encoded is written in full. *)
Lemma first_record_written (st : Store) (node : TrieNode) (rest : list TrieNode) :
  encodable st node -> record_written (output (node :: rest) st) 0.
Proof.
  intros Hn.
  destruct (output_shape st (node :: rest))
    as (done & partial & E & Hlen & Hd & [rest' Er] & Hall).
  unfold record_written. rewrite E, length_app, records_length.
  destruct done as [|d done]; [|simpl; lia].
  exfalso. simpl in Er. subst rest'.
  unfold output, write_bin in E. cbn [write_loop] in E.
  rewrite (write_node_encodable _ _ _ Hn) in E. simpl in E.
  assert (Hge : (10 <= length (fst (write_loop st rest (record st node))))%nat).
  { clear. generalize (record st node) (record_length st node). intros f Hf.
    assert (H : forall nodes f, (length f <= length (fst (write_loop st nodes f)))%nat).
    { induction nodes as [|n nodes IH]; intros g; simpl; [lia|].
      destruct (encodable_dec st n) as [Hn|Hn].
      - rewrite (write_node_encodable _ _ _ Hn). etransitivity; [|apply IH].
        rewrite length_app. lia.
      - destruct (write_node_fails_short st n g Hn) as (e & partial & -> & _).
        simpl. rewrite length_app. lia. }
    specialize (H rest f). lia. }
  destruct (write_loop st rest (record st node)) as [out e]. simpl in *. subst out.
  lia.
Qed.

(** ** Node identities *)

Lemma well_named_unfold (p : list Z) (t : TrieNode) :
  well_named p t <->
  path t = p /\ NoDup (map char (children t)) /\
  Forall (fun c => well_named (p ++ [char c]) c) (children t).
Proof.
  destruct t as [p' c f cs]. cbn [well_named path children].
  assert (E : forall l,
    (fix all (l : list TrieNode) : Prop :=
       match l with
       | [] => True
       | c :: l' => well_named (p ++ [char c]) c /\ all l'
       end) l <-> Forall (fun c => well_named (p ++ [char c]) c) l).
  { induction l as [|x l IH]; [split; constructor|].
    rewrite Forall_cons. now rewrite IH. }
  now rewrite E.
Qed.

Lemma well_named_path (p : list Z) (t : TrieNode) : well_named p t -> path t = p.
Proof. intros H. now apply well_named_unfold in H. Qed.

Lemma root_node_well_named : well_named [] root_node.
Proof. apply well_named_unfold. repeat split; constructor. Qed.

Lemma insert_well_named (f : Z) :
  forall word p t, well_named p t -> well_named p (insert word f t).
Proof.
  induction word as [|ch word IH]; intros p t H.
  - apply well_named_unfold in H. apply well_named_unfold. exact H.
  - apply well_named_unfold in H as (Hp & Hnd & Hcs). apply well_named_unfold.
    cbn [insert set_children path children]. split; [exact Hp|].
    destruct (setdefault_walk_cases (path t) ch (insert word f) (children t))
      as [(l1 & c & l2 & E & Hc & _ & ->)|[Hne ->]].
    + rewrite E in *. rewrite map_app in *. cbn [map] in *.
      rewrite insert_char. split; [exact Hnd|].
      rewrite Forall_app, Forall_cons in *.
      destruct Hcs as (H1 & H2 & H3). repeat split; auto.
      rewrite insert_char. now apply IH.
    + rewrite map_app. cbn [map]. rewrite insert_char. cbn [TrieNode_new char].
      split.
      * apply NoDup_app. repeat split; [exact Hnd| |apply NoDup_singleton].
        intros x Hx Hx'. apply list_elem_of_singleton in Hx'. subst x.
        apply list_elem_of_fmap in Hx as (y & Hy & Hin).
        rewrite Forall_forall in Hne. now apply (Hne y).
      * rewrite Forall_app. split; [exact Hcs|]. constructor; [|constructor].
        rewrite insert_char. cbn [TrieNode_new char]. apply IH.
        apply well_named_unfold. cbn. rewrite Hp. repeat split; constructor.
Qed.

Lemma insert_all_well_named (words : list (list Z * Z)) :
  forall p t, well_named p t -> well_named p (insert_all words t).
Proof.
  induction words as [|[w f] words IH]; intros p t H; [exact H|].
  apply IH. now apply insert_well_named.
Qed.

Lemma trie_of_well_named (words : list (list Z * Z)) : well_named [] (trie_of words).
Proof. apply insert_all_well_named, root_node_well_named. Qed.

(** The path of a node below [t] extends the path of [t] by the char of a
    child of [t] and more. *)
Lemma well_named_subnodes (t : TrieNode) :
  forall p, well_named p t ->
    Forall (fun n => exists s, path n = p ++ s) (subnodes t).
Proof.
  induction t as [p' c f cs IH] using TrieNode_ind'. intros p H.
  apply well_named_unfold in H as (Hp & _ & Hcs). cbn [path children] in *.
  cbn [subnodes children]. constructor; [exists []; now rewrite app_nil_r|].
  clear Hp. induction cs as [|x cs IHcs]; [constructor|].
  inversion IH as [|? ? Hx Hl]; subst. inversion Hcs as [|? ? Hwx Hwl]; subst.
  cbn [map concat]. apply Forall_app. split; [|now apply IHcs].
  eapply Forall_impl; [exact (Hx _ Hwx)|].
  intros n [s ->]. exists (char x :: s). now rewrite <- app_assoc.
Qed.

Lemma well_named_child_subnodes (p : list Z) (x : TrieNode) :
  well_named (p ++ [char x]) x ->
  Forall (fun n => exists s, path n = p ++ char x :: s) (subnodes x).
Proof.
  intros H. eapply Forall_impl; [exact (well_named_subnodes _ _ H)|].
  intros n [s ->]. exists s. now rewrite <- app_assoc.
Qed.

Lemma well_named_NoDup (t : TrieNode) :
  forall p, well_named p t -> NoDup (map path (subnodes t)).
Proof.
  induction t as [p' c f cs IH] using TrieNode_ind'. intros p H.
  apply well_named_unfold in H as (Hp & Hnd & Hcs). cbn [path children] in *.
  subst p'. cbn [subnodes children map path].
  assert (Hdesc : Forall (fun n => exists a s, path n = p ++ a :: s /\ In a (map char cs))
                    (concat (map subnodes cs)) /\
                  NoDup (map path (concat (map subnodes cs)))).
  { clear c f. induction cs as [|x cs IHcs]; [split; constructor|].
    inversion IH as [|? ? Hx Hl]; subst. inversion Hcs as [|? ? Hwx Hwl]; subst.
    cbn [map] in Hnd. apply NoDup_cons in Hnd as [Hnotin Hnd'].
    destruct (IHcs Hl Hnd' Hwl) as [Hpre Hnodup].
    pose proof (well_named_child_subnodes _ _ Hwx) as Hxs.
    cbn [map concat]. split.
    - apply Forall_app. split.
      + eapply Forall_impl; [exact Hxs|]. intros n [s ->].
        exists (char x), s. split; [reflexivity|now left].
      + eapply Forall_impl; [exact Hpre|]. intros n (a & s & -> & Ha).
        exists a, s. split; [reflexivity|now right].
    - rewrite map_app. apply NoDup_app. repeat split.
      + exact (Hx _ Hwx).
      + intros q Hq1 Hq2.
        apply list_elem_of_fmap in Hq1 as (n1 & -> & Hn1).
        apply list_elem_of_fmap in Hq2 as (n2 & E & Hn2).
        rewrite Forall_forall in Hxs, Hpre.
        destruct (Hxs _ Hn1) as [s1 E1].
        destruct (Hpre _ Hn2) as (a & s2 & E2 & Ha).
        rewrite E1, E2 in E. apply app_inv_head in E. injection E as Ea _.
        apply Hnotin. rewrite Ea. now apply list_elem_of_In.
      + exact Hnodup. }
  destruct Hdesc as [Hpre Hnodup].
  apply NoDup_cons. split; [|exact Hnodup].
  intros Hin. apply list_elem_of_fmap in Hin as (n & E & Hn).
  rewrite Forall_forall in Hpre. destruct (Hpre _ Hn) as (a & s & E' & _).
  rewrite E' in E. rewrite <- (app_nil_r p) in E at 1.
  apply app_inv_head in E. discriminate.
Qed.

(** The nodes [build_trie] returns are distinct objects. *)
Lemma order_of_NoDup (words : list (list Z * Z)) :
  NoDup (map path (order_of words)).
Proof.
  rewrite (order_of_perm words).
  eapply well_named_NoDup, trie_of_well_named.
Qed.

Lemma NoDup_path_inj (l : list TrieNode) (n1 n2 : TrieNode) :
  NoDup (map path l) -> In n1 l -> In n2 l -> path n1 = path n2 -> n1 = n2.
Proof.
  induction l as [|x l IH]; intros Hnd H1 H2 E; [contradiction|].
  cbn [map] in Hnd. apply NoDup_cons in Hnd as [Hx Hnd].
  destruct H1 as [->|H1], H2 as [->|H2]; auto.
  - exfalso. apply Hx. rewrite E. apply list_elem_of_In, in_map. exact H2.
  - exfalso. apply Hx. rewrite <- E. apply list_elem_of_In, in_map. exact H1.
Qed.

Lemma subnodes_well_named (t : TrieNode) :
  forall p, well_named p t -> Forall (fun n => well_named (path n) n) (subnodes t).
Proof.
  induction t as [p' c f cs IH] using TrieNode_ind'. intros p H.
  pose proof H as H'. apply well_named_unfold in H' as (Hp & _ & Hcs).
  cbn [path children] in *. subst p'. cbn [subnodes children].
  constructor; [exact H|].
  clear H. induction cs as [|x cs IHcs]; [constructor|].
  inversion IH as [|? ? Hx Hl]; subst. inversion Hcs as [|? ? Hwx Hwl]; subst.
  cbn [map concat]. apply Forall_app. split; [exact (Hx _ Hwx)|now apply IHcs].
Qed.

Lemma order_of_well_named (words : list (list Z * Z)) :
  Forall (fun n => well_named (path n) n) (order_of words).
Proof.
  rewrite (order_of_perm words).
  eapply subnodes_well_named, trie_of_well_named.
Qed.

Lemma well_named_child (n c : TrieNode) :
  well_named (path n) n -> In c (children n) -> path c = path n ++ [char c].
Proof.
  intros H Hc. apply well_named_unfold in H as (_ & _ & Hcs).
  rewrite Forall_forall in Hcs. apply list_elem_of_In in Hc.
  now apply well_named_path, Hcs.
Qed.

Lemma well_named_children_NoDup (n : TrieNode) :
  well_named (path n) n -> NoDup (map char (children n)).
Proof. intros H. now apply well_named_unfold in H as (_ & Hnd & _). Qed.

(** ** The root *)

Lemma insert_all_path (words : list (list Z * Z)) :
  forall t, path (insert_all words t) = path t.
Proof.
  induction words as [|[w f] words IH]; intros t; [reflexivity|].
  simpl. now rewrite IH, insert_path.
Qed.

Lemma insert_all_char (words : list (list Z * Z)) :
  forall t, char (insert_all words t) = char t.
Proof.
  induction words as [|[w f] words IH]; intros t; [reflexivity|].
  simpl. now rewrite IH, insert_char.
Qed.

(** Only the empty word assigns the frequency of the node an insertion
    starts at. *)
Lemma insert_all_freq_nonempty (words : list (list Z * Z)) :
  Forall (fun wf => fst wf <> []) words ->
  forall t, freq (insert_all words t) = freq t.
Proof.
  induction 1 as [|[w f] words Hw Hws IH]; intros t; [reflexivity|].
  simpl in *. rewrite IH. destruct w; [congruence|reflexivity].
Qed.

Lemma insert_all_freq_empty (words : list (list Z * Z)) (f : Z) :
  NoDup (map fst words) -> In ([], f) words ->
  forall t, freq (insert_all words t) = f.
Proof.
  induction words as [|[w f'] words IH]; intros Hnd Hin t; [contradiction|].
  cbn [map fst] in Hnd. apply NoDup_cons in Hnd as [Hw Hnd].
  destruct Hin as [E|Hin].
  - injection E as -> ->. simpl. rewrite insert_all_freq_nonempty; [reflexivity|].
    apply Forall_forall. intros [w' f''] Hin' E. simpl in E. subst w'.
    apply Hw. apply list_elem_of_fmap. exists ([], f''). auto.
  - simpl. now apply IH.
Qed.

Lemma trie_of_path (words : list (list Z * Z)) : path (trie_of words) = [].
Proof. unfold trie_of. now rewrite insert_all_path. Qed.

Lemma trie_of_char (words : list (list Z * Z)) : char (trie_of words) = CARET.
Proof. unfold trie_of. now rewrite insert_all_char. Qed.

(** ** The fields the layout pass assigns *)

Lemma layout_offset_other (nodes : list TrieNode) :
  forall off st x, x ∉ map path nodes ->
    st_offset (layout nodes off st) !! x = st_offset st !! x.
Proof.
  induction nodes as [|n nodes IH]; intros off st x Hx; [reflexivity|].
  cbn [layout map] in *. apply not_elem_of_cons in Hx as [Hne Hx].
  rewrite IH by exact Hx. rewrite visit_offset. now apply lookup_insert_ne.
Qed.

(** The [k]-th node dequeued is at offset [10 k]. *)
Lemma layout_offset_at (nodes : list TrieNode) :
  forall off st (k : nat) node,
    NoDup (map path nodes) -> nodes !! k = Some node ->
    offset_of (layout nodes off st) (path node) = off + 10 * Z.of_nat k.
Proof.
  induction nodes as [|n nodes IH]; intros off st k node Hnd Hk; [discriminate|].
  cbn [map] in Hnd. apply NoDup_cons in Hnd as [Hn Hnd].
  destruct k as [|k]; cbn [layout].
  - injection Hk as ->. unfold offset_of.
    rewrite layout_offset_other by exact Hn.
    rewrite visit_offset, lookup_insert_eq. simpl. lia.
  - rewrite (IH _ _ k node Hnd Hk). unfold NODE_SIZE. lia.
Qed.

Lemma layout_first_child_other (nodes : list TrieNode) :
  forall off st x, x ∉ map path nodes ->
    st_first_child (layout nodes off st) !! x = st_first_child st !! x.
Proof.
  induction nodes as [|n nodes IH]; intros off st x Hx; [reflexivity|].
  cbn [layout map] in *. apply not_elem_of_cons in Hx as [Hne Hx].
  rewrite IH by exact Hx. rewrite visit_first_child.
  destruct (sorted_by_char (children n)); [reflexivity|].
  now apply lookup_insert_ne.
Qed.

(** The first_child of a node is its first child in sorted order. *)
Lemma layout_first_child_at (nodes : list TrieNode) :
  forall off st node,
    NoDup (map path nodes) -> In node nodes ->
    st_first_child (layout nodes off st) !! path node =
    match sorted_by_char (children node) with
    | [] => st_first_child st !! path node
    | c0 :: _ => Some (path c0)
    end.
Proof.
  induction nodes as [|n nodes IH]; intros off st node Hnd Hin; [contradiction|].
  cbn [map] in Hnd. apply NoDup_cons in Hnd as [Hn Hnd].
  cbn [layout]. destruct Hin as [->|Hin].
  - rewrite layout_first_child_other by exact Hn.
    rewrite visit_first_child.
    destruct (sorted_by_char (children node)); [reflexivity|].
    apply lookup_insert_eq.
  - rewrite (IH _ _ node Hnd Hin).
    destruct (sorted_by_char (children node)) eqn:E; [|reflexivity].
    rewrite visit_first_child.
    destruct (sorted_by_char (children n)); [reflexivity|].
    apply lookup_insert_ne. intros E'. apply Hn. rewrite E'.
    apply list_elem_of_In, in_map. exact Hin.
Qed.

(** A next_sibling link joins two neighbours of a sorted list of children. *)
Lemma link_siblings_next (cs : list TrieNode) :
  forall st x y,
    st_next_sibling (link_siblings cs st) !! x = Some y ->
    st_next_sibling st !! x = Some y \/
    exists l1 a b l2, cs = l1 ++ a :: b :: l2 /\ path a = x /\ path b = y.
Proof.
  induction cs as [|l [|r cs] IH]; intros st x y H; try (now left).
  change (link_siblings (l :: r :: cs) st)
    with (link_siblings (r :: cs) (set_next_sibling (path l) (path r) st)) in H.
  apply IH in H as [H|(l1 & a & b & l2 & E & Ha & Hb)].
  - cbn [set_next_sibling st_next_sibling] in H.
    rewrite lookup_insert in H. case_decide as Hd.
    + injection H as <-. right. exists [], l, r, cs. auto.
    + now left.
  - right. exists (l :: l1), a, b, l2. rewrite E. auto.
Qed.

Lemma visit_next_sibling (node : TrieNode) (off : Z) (st : Store) (x y : list Z) :
  st_next_sibling (visit node off st) !! x = Some y ->
  st_next_sibling st !! x = Some y \/
  exists l1 a b l2,
    sorted_by_char (children node) = l1 ++ a :: b :: l2 /\ path a = x /\ path b = y.
Proof.
  unfold visit. destruct (sorted_by_char (children node)) as [|c0 cs] eqn:E.
  - now left.
  - intros H. apply link_siblings_next in H as [H|H]; [now left|now right].
Qed.

Lemma layout_next_sibling (nodes : list TrieNode) :
  forall off st x y,
    st_next_sibling (layout nodes off st) !! x = Some y ->
    st_next_sibling st !! x = Some y \/
    exists n l1 a b l2,
      In n nodes /\ sorted_by_char (children n) = l1 ++ a :: b :: l2 /\
      path a = x /\ path b = y.
Proof.
  induction nodes as [|n nodes IH]; intros off st x y H; [now left|].
  cbn [layout] in H. apply IH in H as [H|(n' & l1 & a & b & l2 & Hin & E & Ha & Hb)].
  - apply visit_next_sibling in H as [H|(l1 & a & b & l2 & E & Ha & Hb)]; [now left|].
    right. exists n, l1, a, b, l2. repeat split; auto. now left.
  - right. exists n', l1, a, b, l2. repeat split; auto. now right.
Qed.

(** ** The root record *)

Lemma insert_descendants_Forall (Pc Pf : Z -> Prop) (f : Z) (word : list Z) (t : TrieNode) :
  Pf 0 -> Pf f -> Forall Pc word ->
  Forall (fun n => Pc (char n) /\ Pf (freq n)) (descendants t) ->
  Forall (fun n => Pc (char n) /\ Pf (freq n)) (descendants (insert word f t)).
Proof.
  intros H0 Hf Hw Hd. destruct word as [|ch word]; [exact Hd|].
  inversion Hw as [|? ? Hch Hw']; subst.
  unfold descendants in *. cbn [insert set_children children].
  destruct (setdefault_walk_cases (path t) ch (insert word f) (children t))
    as [(l1 & c & l2 & E & Hc & _ & ->)|[_ ->]].
  - rewrite E in Hd. rewrite descendants_concat in *. cbn [map concat] in *.
    rewrite !Forall_app in *. destruct Hd as (H1 & H2 & H3).
    repeat split; auto. now apply insert_subnodes_Forall.
  - rewrite descendants_concat. cbn [map concat]. rewrite app_nil_r.
    rewrite Forall_app. split; [exact Hd|].
    apply insert_subnodes_Forall; auto. repeat constructor; [exact Hch|exact H0].
Qed.

Lemma insert_all_descendants_Forall (Pc Pf : Z -> Prop) :
  Pf 0 ->
  forall words t,
    Forall (fun wf => Forall Pc (fst wf) /\ Pf (snd wf)) words ->
    Forall (fun n => Pc (char n) /\ Pf (freq n)) (descendants t) ->
    Forall (fun n => Pc (char n) /\ Pf (freq n)) (descendants (insert_all words t)).
Proof.
  intros H0. induction words as [|[w f] words IH]; intros t Hw Ht; [exact Ht|].
  inversion Hw as [|? ? [Hc Hf] Hw']; subst. simpl in *.
  apply IH; [exact Hw'|]. now apply insert_descendants_Forall.
Qed.

(** The nodes after the root in the returned list are the nodes below it. *)
Lemma order_of_tail (words : list (list Z * Z)) (rest : list TrieNode) :
  order_of words = trie_of words :: rest ->
  Permutation rest (descendants (trie_of words)).
Proof.
  intros E. pose proof (order_of_perm words) as H.
  rewrite E, subnodes_unfold in H. now apply Permutation_cons_inv in H.
Qed.

Lemma store_of_root_offset (words : list (list Z * Z)) :
  offset_of (store_of words) (path (trie_of words)) = 0.
Proof.
  destruct (order_of_head words) as [rest E].
  unfold store_of.
  rewrite (layout_offset_at _ 0 empty_store 0 (trie_of words)).
  - lia.
  - apply order_of_NoDup.
  - now rewrite E.
Qed.

Lemma trie_of_root_encodable (words : list (list Z * Z)) :
  10 * (Z.of_nat (node_count (trie_of words)) - 1) <= MAX_OFFSET ->
  0 <= freq (trie_of words) <= 255 ->
  encodable (store_of words) (trie_of words).
Proof.
  intros Hfit Hf. apply order_of_encodable; [exact Hfit| |exact Hf].
  rewrite trie_of_char. unfold CARET. lia.
Qed.

(** C5, as the code has it: for a table none of whose keys is the empty
    word and on which [build_trie] returns, the first record written is the
    root's: the root has offset 0, the record is written in full, its char
    field is 0x5E and its frequency field is 0.  The code does not keep 0x5E
    out of the words: the other nodes, and the records written for them,
    have a char other than 0x5E provided no word contains it. *)
Theorem root_record_first (words : list (list Z * Z)) (nodes : list TrieNode)
    (st : Store) :
  Forall (fun wf => fst wf <> []) words ->
  build_trie words = Returned (nodes, st) ->
  exists root rest,
    nodes = root :: rest /\ root = trie_of words /\
    offset_of st (path root) = 0 /\
    record_written (output nodes st) 0 /\
    rec_char (output nodes st) 0 = 0x5E /\
    rec_freq (output nodes st) 0 = 0 /\
    (Forall (fun wf => ~ In 0x5E (fst wf)) words ->
     Forall (fun n => char n <> 0x5E) rest /\
     forall k node,
       nodes !! S k = Some node -> record_written (output nodes st) (S k) ->
       rec_char (output nodes st) (S k) <> 0x5E).
Proof.
  intros Hne Hb.
  apply build_trie_inv in Hb as (-> & -> & Hfit).
  destruct (order_of_head words) as [rest E].
  exists (trie_of words), rest. split; [exact E|]. split; [reflexivity|].
  split; [apply store_of_root_offset|].
  assert (Hfreq : freq (trie_of words) = 0).
  { unfold trie_of. now rewrite insert_all_freq_nonempty. }
  assert (Hwr : record_written (output (order_of words) (store_of words)) 0).
  { rewrite E. apply first_record_written.
    apply trie_of_root_encodable; [exact Hfit|]. rewrite Hfreq. lia. }
  assert (H0 : order_of words !! 0%nat = Some (trie_of words)) by now rewrite E.
  destruct (written_record_fields _ _ _ _ H0 Hwr) as (_ & Hc & Hf & _ & _).
  split; [exact Hwr|].
  split; [rewrite Hc; apply trie_of_char|].
  split; [now rewrite Hf|].
  intros Hcaret.
  assert (Hall : Forall (fun n => char n <> 0x5E /\ True) (descendants (trie_of words))).
  { apply (insert_all_descendants_Forall (fun c => c <> 0x5E) (fun _ => True)).
    - exact I.
    - apply Forall_forall. intros wf Hwf. split; [|exact I].
      rewrite Forall_forall in Hcaret. apply Forall_forall. intros c Hcw ->.
      apply (Hcaret wf Hwf). now apply list_elem_of_In.
    - constructor. }
  rewrite <- (order_of_tail _ _ E) in Hall.
  assert (Hrest : Forall (fun n => char n <> 0x5E) rest).
  { eapply Forall_impl; [exact Hall|]. now intros n [Hn _]. }
  split; [exact Hrest|].
  intros k node Hk Hwk.
  destruct (written_record_fields _ _ _ _ Hk Hwk) as (_ & -> & _).
  rewrite E in Hk. cbn in Hk. rewrite Forall_forall in Hrest.
  apply Hrest. eapply list_elem_of_lookup_2; eauto.
Qed.

Lemma cat_car_can_builds :
  build_trie cat_car_can = Returned (order_of cat_car_can, store_of cat_car_can).
Proof. apply build_trie_returns. vm_compute. discriminate. Qed.

Lemma root_record_first_witness :
  exists root rest,
    order_of cat_car_can = root :: rest /\ root = trie_of cat_car_can /\
    offset_of (store_of cat_car_can) (path root) = 0 /\
    record_written (output (order_of cat_car_can) (store_of cat_car_can)) 0 /\
    rec_char (output (order_of cat_car_can) (store_of cat_car_can)) 0 = 0x5E /\
    rec_freq (output (order_of cat_car_can) (store_of cat_car_can)) 0 = 0 /\
    (Forall (fun wf => ~ In 0x5E (fst wf)) cat_car_can ->
     Forall (fun n => char n <> 0x5E) rest /\
     forall k node,
       order_of cat_car_can !! S k = Some node ->
       record_written (output (order_of cat_car_can) (store_of cat_car_can)) (S k) ->
       rec_char (output (order_of cat_car_can) (store_of cat_car_can)) (S k) <> 0x5E).
Proof.
  apply (root_record_first cat_car_can).
  - unfold cat_car_can. repeat constructor; discriminate.
  - exact cat_car_can_builds.
Defined.

(** C5, as the specification states it, fails: a table that has the empty
    word as a key, with frequency 7, compiles, and the frequency field of
    the first record is 7. *)
Lemma root_record_frequency_not_zero :
  exists out,
    compile empty_key_table = Returned (out, None) /\
    rec_char out 0 = 0x5E /\ rec_freq out 0 = 7.
Proof.
  eexists. split; [vm_compute; reflexivity|]. split; reflexivity.
Qed.

(** C10: let [build_trie] return on a table.  When the table has the empty
    word as a key, with frequency [f], the walk over its zero characters
    ends at the root, the root node gets the frequency [f], and, [f] being
    in [0,255], the frequency field of the first record is [f]; when no key
    is the empty word they are 0. *)
Theorem empty_word_sets_root_frequency (words : list (list Z * Z))
    (nodes : list TrieNode) (st : Store) :
  NoDup (map fst words) ->
  build_trie words = Returned (nodes, st) ->
  exists root rest,
    nodes = root :: rest /\
    (forall f, In ([], f) words ->
       (forall node, insert [] f node = set_freq f node) /\
       freq root = f /\
       (0 <= f <= 255 ->
        record_written (output nodes st) 0 /\ rec_freq (output nodes st) 0 = f)) /\
    (~ In [] (map fst words) ->
       freq root = 0 /\
       record_written (output nodes st) 0 /\ rec_freq (output nodes st) 0 = 0).
Proof.
  intros Hnd Hb.
  apply build_trie_inv in Hb as (-> & -> & Hfit).
  destruct (order_of_head words) as [rest E].
  exists (trie_of words), rest. split; [exact E|].
  assert (H0 : order_of words !! 0%nat = Some (trie_of words)) by now rewrite E.
  assert (Hrec : forall f, freq (trie_of words) = f -> 0 <= f <= 255 ->
            record_written (output (order_of words) (store_of words)) 0 /\
            rec_freq (output (order_of words) (store_of words)) 0 = f).
  { intros f Hf Hr.
    assert (Hwr : record_written (output (order_of words) (store_of words)) 0).
    { rewrite E. apply first_record_written.
      apply trie_of_root_encodable; [exact Hfit|]. now rewrite Hf. }
    split; [exact Hwr|].
    destruct (written_record_fields _ _ _ _ H0 Hwr) as (_ & _ & -> & _). exact Hf. }
  split.
  - intros f Hin. split; [reflexivity|].
    assert (Hf : freq (trie_of words) = f) by (now apply insert_all_freq_empty).
    split; [exact Hf|]. now apply Hrec.
  - intros Hno.
    assert (Hf : freq (trie_of words) = 0).
    { unfold trie_of. rewrite insert_all_freq_nonempty; [reflexivity|].
      apply Forall_forall. intros [w f] Hin Ew. simpl in Ew. subst w.
      apply Hno. apply in_map_iff. exists ([], f). split; [reflexivity|].
      now apply list_elem_of_In. }
    split; [exact Hf|]. apply Hrec; [exact Hf|lia].
Qed.

Lemma empty_key_table_builds :
  build_trie empty_key_table =
  Returned (order_of empty_key_table, store_of empty_key_table).
Proof. apply build_trie_returns. vm_compute. discriminate. Qed.

Lemma empty_word_sets_root_frequency_witness :
  exists root rest,
    order_of empty_key_table = root :: rest /\
    (forall f, In ([], f) empty_key_table ->
       (forall node, insert [] f node = set_freq f node) /\
       freq root = f /\
       (0 <= f <= 255 ->
        record_written (output (order_of empty_key_table) (store_of empty_key_table)) 0 /\
        rec_freq (output (order_of empty_key_table) (store_of empty_key_table)) 0 = f)) /\
    (~ In [] (map fst empty_key_table) ->
       freq root = 0 /\
       record_written (output (order_of empty_key_table) (store_of empty_key_table)) 0 /\
       rec_freq (output (order_of empty_key_table) (store_of empty_key_table)) 0 = 0).
Proof.
  apply (empty_word_sets_root_frequency empty_key_table).
  - unfold empty_key_table. cbn [map fst].
    apply NoDup_cons. split; [|apply NoDup_singleton].
    intros H. apply list_elem_of_singleton in H. discriminate.
  - exact empty_key_table_builds.
Defined.

(** ** Sentinels *)

Lemma store_of_leaf_first_child (words : list (list Z * Z)) (node : TrieNode) :
  In node (order_of words) -> children node = [] ->
  st_first_child (store_of words) !! path node = None.
Proof.
  intros Hin Hc. unfold store_of.
  rewrite layout_first_child_at; [|apply order_of_NoDup|exact Hin].
  rewrite Hc. reflexivity.
Qed.

Lemma sorted_children_NoDup (n : TrieNode) :
  well_named (path n) n -> NoDup (map char (sorted_by_char (children n))).
Proof.
  intros H. rewrite (sorted_by_char_perm (children n)).
  now apply well_named_children_NoDup.
Qed.

(** No next_sibling link leaves the last child of a node. *)
Lemma store_of_last_sibling (words : list (list Z * Z)) (parent node : TrieNode) :
  In parent (order_of words) ->
  last (sorted_by_char (children parent)) = Some node ->
  st_next_sibling (store_of words) !! path node = None.
Proof.
  intros Hpar Hlast.
  destruct (st_next_sibling (store_of words) !! path node) as [y|] eqn:Hy;
    [exfalso|reflexivity].
  unfold store_of in Hy.
  apply layout_next_sibling in Hy as [Hy|(n & l1 & a & b & l2 & Hn & E & Ha & Hb)].
  { simpl in Hy. now rewrite lookup_empty in Hy. }
  pose proof (order_of_well_named words) as Hwn. rewrite Forall_forall in Hwn.
  assert (Hwn_n : well_named (path n) n) by (apply Hwn; now apply list_elem_of_In).
  assert (Hwn_p : well_named (path parent) parent)
    by (apply Hwn; now apply list_elem_of_In).
  assert (Ha_in : In a (children n)).
  { apply list_elem_of_In. rewrite <- (sorted_by_char_perm (children n)), E.
    apply elem_of_app. right. apply elem_of_cons. now left. }
  assert (Hnode_in : In node (children parent)).
  { apply list_elem_of_In. rewrite <- (sorted_by_char_perm (children parent)).
    eapply last_Some_elem_of; eauto. }
  pose proof (well_named_child _ _ Hwn_n Ha_in) as Epa.
  pose proof (well_named_child _ _ Hwn_p Hnode_in) as Epn.
  rewrite Ha, Epn in Epa. apply app_inj_tail in Epa as [Epath Echar].
  assert (n = parent).
  { apply (NoDup_path_inj (order_of words)); auto using order_of_NoDup. }
  subst n.
  pose proof (sorted_children_NoDup _ Hwn_p) as Hnd.
  rewrite E in Hlast, Hnd.
  rewrite last_app_cons, last_cons_cons in Hlast.
  apply last_Some_elem_of in Hlast.
  rewrite map_app in Hnd. cbn [map] in Hnd.
  apply NoDup_app in Hnd as (_ & _ & Hnd). apply NoDup_cons in Hnd as [Hnotin _].
  apply Hnotin. rewrite <- Echar. change (char node ∈ map char (b :: l2)).
  apply list_elem_of_fmap. exists node. split; [reflexivity|exact Hlast].
Qed.

(** Nor the root, which is nobody's child. *)
Lemma store_of_root_sibling (words : list (list Z * Z)) :
  st_next_sibling (store_of words) !! path (trie_of words) = None.
Proof.
  rewrite trie_of_path.
  destruct (st_next_sibling (store_of words) !! []) as [y|] eqn:Hy; [exfalso|reflexivity].
  unfold store_of in Hy.
  apply layout_next_sibling in Hy as [Hy|(n & l1 & a & b & l2 & Hn & E & Ha & Hb)].
  { simpl in Hy. now rewrite lookup_empty in Hy. }
  pose proof (order_of_well_named words) as Hwn. rewrite Forall_forall in Hwn.
  assert (Hwn_n : well_named (path n) n) by (apply Hwn; now apply list_elem_of_In).
  assert (Ha_in : In a (children n)).
  { apply list_elem_of_In. rewrite <- (sorted_by_char_perm (children n)), E.
    apply elem_of_app. right. apply elem_of_cons. now left. }
  pose proof (well_named_child _ _ Hwn_n Ha_in) as Epa.
  rewrite Ha in Epa. now destruct (path n).
Qed.

(** C4: let [build_trie] return on a table.  In what [write_bin] writes,
    the first_child field of the record of a node without children is 0; the
    next_sibling field of the record of the last child (in sorted order) of
    every node, and of the root, is 0; the [k]-th node of the list has
    offset [10 k], so that every node but the root has an offset of at least
    10.  This holds of every record written in full, which is every record
    when [write_bin] returns. *)
Theorem sentinel_offsets (words : list (list Z * Z)) (nodes : list TrieNode)
    (st : Store) :
  build_trie words = Returned (nodes, st) ->
  (forall k node,
     nodes !! k = Some node -> record_written (output nodes st) k ->
     children node = [] -> rec_first_child (output nodes st) k = 0) /\
  (forall k node parent,
     nodes !! k = Some node -> record_written (output nodes st) k ->
     In parent nodes ->
     last (sorted_by_char (children parent)) = Some node ->
     rec_next_sibling (output nodes st) k = 0) /\
  (nodes !! 0%nat = Some (trie_of words) /\
   (record_written (output nodes st) 0 -> rec_next_sibling (output nodes st) 0 = 0)) /\
  (forall k node,
     nodes !! k = Some node -> offset_of st (path node) = 10 * Z.of_nat k) /\
  (forall k node,
     nodes !! S k = Some node -> 10 <= offset_of st (path node)) /\
  (snd (write_bin nodes st) = None ->
   forall k node, nodes !! k = Some node -> record_written (output nodes st) k).
Proof.
  intros Hb.
  apply build_trie_inv in Hb as (-> & -> & Hfit).
  assert (Hoff : forall k node,
            order_of words !! k = Some node ->
            offset_of (store_of words) (path node) = 10 * Z.of_nat k).
  { intros k node Hk. unfold store_of.
    rewrite (layout_offset_at _ 0 empty_store k node); [lia|apply order_of_NoDup|exact Hk]. }
  assert (H0 : order_of words !! 0%nat = Some (trie_of words)).
  { destruct (order_of_head words) as [rest E]. now rewrite E. }
  split; [|split; [|split; [split|split; [|split]]]].
  - intros k node Hk Hwr Hleaf.
    destruct (written_record_fields _ _ _ _ Hk Hwr) as (_ & _ & _ & -> & _).
    unfold first_child_offset. rewrite store_of_leaf_first_child; auto.
    apply list_elem_of_In. eapply list_elem_of_lookup_2; eauto.
  - intros k node parent Hk Hwr Hpar Hlast.
    destruct (written_record_fields _ _ _ _ Hk Hwr) as (_ & _ & _ & _ & ->).
    unfold next_sibling_offset. now rewrite (store_of_last_sibling words parent node).
  - exact H0.
  - intros Hwr.
    destruct (written_record_fields _ _ _ _ H0 Hwr) as (_ & _ & _ & _ & ->).
    unfold next_sibling_offset. now rewrite store_of_root_sibling.
  - exact Hoff.
  - intros k node Hk. rewrite (Hoff _ _ Hk). lia.
  - intros Hok k node Hk. eapply returned_all_written; eauto.
Qed.

Lemma sentinel_offsets_witness :
  (forall k node,
     order_of cat_car_can !! k = Some node ->
     record_written (output (order_of cat_car_can) (store_of cat_car_can)) k ->
     children node = [] ->
     rec_first_child (output (order_of cat_car_can) (store_of cat_car_can)) k = 0) /\
  (forall k node parent,
     order_of cat_car_can !! k = Some node ->
     record_written (output (order_of cat_car_can) (store_of cat_car_can)) k ->
     In parent (order_of cat_car_can) ->
     last (sorted_by_char (children parent)) = Some node ->
     rec_next_sibling (output (order_of cat_car_can) (store_of cat_car_can)) k = 0) /\
  (order_of cat_car_can !! 0%nat = Some (trie_of cat_car_can) /\
   (record_written (output (order_of cat_car_can) (store_of cat_car_can)) 0 ->
    rec_next_sibling (output (order_of cat_car_can) (store_of cat_car_can)) 0 = 0)) /\
  (forall k node,
     order_of cat_car_can !! k = Some node ->
     offset_of (store_of cat_car_can) (path node) = 10 * Z.of_nat k) /\
  (forall k node,
     order_of cat_car_can !! S k = Some node ->
     10 <= offset_of (store_of cat_car_can) (path node)) /\
  (snd (write_bin (order_of cat_car_can) (store_of cat_car_can)) = None ->
   forall k node,
     order_of cat_car_can !! k = Some node ->
     record_written (output (order_of cat_car_can) (store_of cat_car_can)) k).
Proof.
  apply (sentinel_offsets cat_car_can).
  exact cat_car_can_builds.
Defined.

(** ** The characters of the words are the characters of the nodes *)

Lemma insert_keeps_chars (f : Z) :
  forall word t x,
    In x (map char (subnodes t)) -> In x (map char (subnodes (insert word f t))).
Proof.
  induction word as [|ch word IH]; intros t x Hx.
  - rewrite subnodes_unfold in *. exact Hx.
  - rewrite subnodes_unfold in *. cbn [map] in *. destruct Hx as [Hx|Hx]; [now left|].
    right. unfold descendants in *. cbn [insert set_children children].
    destruct (setdefault_walk_cases (path t) ch (insert word f) (children t))
      as [(l1 & c & l2 & E & Hc & _ & ->)|[_ ->]].
    + rewrite E in Hx. rewrite descendants_concat in *. cbn [map concat] in *.
      rewrite !map_app, !in_app_iff in *.
      destruct Hx as [Hx|[Hx|Hx]]; auto.
    + rewrite descendants_concat, map_app, in_app_iff. now left.
Qed.

Lemma insert_keeps_descendant_chars (f : Z) (word : list Z) (t : TrieNode) (x : Z) :
  In x (map char (descendants t)) ->
  In x (map char (descendants (insert word f t))).
Proof.
  intros Hx. destruct word as [|ch word]; [exact Hx|].
  unfold descendants in *. cbn [insert set_children children].
  destruct (setdefault_walk_cases (path t) ch (insert word f) (children t))
    as [(l1 & c & l2 & E & Hc & _ & ->)|[_ ->]].
  - rewrite E in Hx. rewrite descendants_concat in *. cbn [map concat] in *.
    rewrite !map_app, !in_app_iff in *.
    destruct Hx as [Hx|[Hx|Hx]]; auto using insert_keeps_chars.
  - rewrite descendants_concat, map_app, in_app_iff. now left.
Qed.

Lemma insert_adds_chars (f : Z) :
  forall word t c, In c word -> In c (map char (descendants (insert word f t))).
Proof.
  induction word as [|ch word IH]; intros t c Hc; [contradiction|].
  assert (Hsub : forall c0, char c0 = ch ->
            In c (map char (subnodes (insert word f c0)))).
  { intros c0 E. rewrite subnodes_unfold. cbn [map]. rewrite insert_char.
    destruct Hc as [<-|Hc]; [now left|right]. now apply IH. }
  unfold descendants. cbn [insert set_children children].
  destruct (setdefault_walk_cases (path t) ch (insert word f) (children t))
    as [(l1 & c0 & l2 & E & Hc0 & _ & ->)|[_ ->]].
  - rewrite descendants_concat. cbn [map concat].
    rewrite !map_app, !in_app_iff. right. left. now apply Hsub.
  - rewrite descendants_concat. cbn [map concat].
    rewrite !map_app, !in_app_iff. right. left. now apply Hsub.
Qed.

Lemma insert_all_keeps_descendant_chars (words : list (list Z * Z)) :
  forall t x,
    In x (map char (descendants t)) ->
    In x (map char (descendants (insert_all words t))).
Proof.
  induction words as [|[w f] words IH]; intros t x Hx; [exact Hx|].
  simpl. apply IH. now apply insert_keeps_descendant_chars.
Qed.

(** Every character of every word is the char of a node below the root. *)
Lemma trie_of_word_chars (words : list (list Z * Z)) (w : list Z) (f c : Z) :
  In (w, f) words -> In c w -> In c (map char (descendants (trie_of words))).
Proof.
  unfold trie_of. generalize root_node.
  induction words as [|[w' f'] words IH]; intros t Hin Hc; [contradiction|].
  destruct Hin as [E|Hin].
  - injection E as -> ->. simpl.
    apply insert_all_keeps_descendant_chars. now apply insert_adds_chars.
  - simpl. now apply IH.
Qed.

Lemma trie_of_freqs_in_range (words : list (list Z * Z)) :
  freqs_in_range words ->
  Forall (fun n => 0 <= freq n <= 255) (subnodes (trie_of words)).
Proof.
  intros Hf.
  assert (H : Forall (fun n => True /\ 0 <= freq n <= 255) (subnodes (trie_of words))).
  { apply (insert_all_subnodes_Forall (fun _ => True) (fun q => 0 <= q <= 255)).
    - lia.
    - unfold freqs_in_range in Hf. rewrite Forall_forall in *.
      intros wf Hin. split; [|now apply Hf]. apply Forall_forall. auto.
    - repeat constructor; simpl; lia. }
  eapply Forall_impl; [exact H|]. now intros n [_ Hn].
Qed.

(** ** Characters outside the 16-bit range *)

Lemma pack_H_Some_inv (v : Z) (b : list Z) : pack_H v = Some b -> 0 <= v <= 0xFFFF.
Proof.
  intros H. destruct (Z_le_dec 0 v), (Z_le_dec v 0xFFFF); try lia;
    rewrite pack_H_None in H by lia; discriminate.
Qed.

Lemma pack_B_Some_inv (v : Z) (b : list Z) : pack_B v = Some b -> 0 <= v <= 0xFF.
Proof.
  intros H. destruct (Z_le_dec 0 v), (Z_le_dec v 0xFF); try lia;
    rewrite pack_B_None in H by lia; discriminate.
Qed.

(** C8, as the specification states it, fails: in the table a -> 256,
    U+1F600 -> 1 a word has a character above 0xFFFF, [build_trie] returns
    the root, ['a'] and the node of U+1F600 in this order, and [write_bin]
    raises [struct.error] while packing the frequency of ['a'], whose two char
    bytes are in the file after the root's record; the char field of the
    node of U+1F600 is never packed. *)
Lemma struct_error_on_frequency_first :
  (exists w f c, In (w, f) freq_256_table /\ In c w /\ 0xFFFF < c) /\
  build_trie freq_256_table =
    Returned (order_of freq_256_table, store_of freq_256_table) /\
  map char (order_of freq_256_table) = [94; 97; 128512] /\
  map freq (order_of freq_256_table) = [0; 256; 1] /\
  pack_H 97 = Some [0; 97] /\ pack_B 256 = None /\
  write_bin (order_of freq_256_table) (store_of freq_256_table) =
    ([0; 94; 0; 0; 0; 10; 0; 0; 0; 0; 0; 97], Some StructError).
Proof.
  split.
  { exists [128512], 1, 128512. split; [right; now left|]. split; [now left|lia]. }
  split; [apply build_trie_returns; vm_compute; discriminate|].
  vm_compute. repeat split; reflexivity.
Qed.

(** C8, as the code has it: let [build_trie] return on a table.  If some
    word has a character above 0xFFFF, [write_bin] raises [struct.error] at
    the first node whose char or frequency [struct.pack] refuses, after the
    full records of the nodes before it; when the frequencies of the table
    are in [0,255] (as the parser delivers them) that node is refused for
    its char, and no byte of its record is written.  For such a table
    [write_bin] succeeds exactly when every character of every word is in
    [0, 0xFFFF]. *)
Theorem astral_char_raises_struct_error (words : list (list Z * Z))
    (nodes : list TrieNode) (st : Store) :
  build_trie words = Returned (nodes, st) ->
  ((exists w f c, In (w, f) words /\ In c w /\ 0xFFFF < c) ->
   exists done node rest partial,
     nodes = done ++ node :: rest /\
     Forall (encodable st) done /\
     write_bin nodes st = (concat (map (record st) done) ++ partial, Some StructError) /\
     length (concat (map (record st) done)) = (10 * length done)%nat /\
     (pack_H (char node) = None /\ partial = [] \/
      pack_H (char node) = Some partial /\ pack_B (freq node) = None) /\
     (freqs_in_range words -> pack_H (char node) = None /\ partial = [])) /\
  (freqs_in_range words ->
   (chars_in_range words <-> snd (write_bin nodes st) = None)).
Proof.
  intros Hb. apply build_trie_inv in Hb as (-> & -> & Hfit).
  assert (Hchar : forall w f c, In (w, f) words -> In c w ->
            exists n, n ∈ order_of words /\ char n = c).
  { intros w f c Hw Hc.
    pose proof (trie_of_word_chars words w f c Hw Hc) as Hin.
    apply in_map_iff in Hin as (n & En & Hn). exists n. split; [|exact En].
    rewrite (order_of_perm words), subnodes_unfold.
    apply elem_of_cons. right. now apply list_elem_of_In. }
  split.
  - intros (w & f & c & Hw & Hc & Hbig).
    destruct (Hchar w f c Hw Hc) as (n & Hn & En).
    assert (Hex : Exists (fun n => ~ encodable (store_of words) n) (order_of words)).
    { apply Exists_exists. exists n. split; [exact Hn|].
      intros (Hcn & _). lia. }
    destruct (first_not_encodable _ _ Hex) as (done & node & rest & E & Hd & Hnode).
    assert (Hin : node ∈ order_of words).
    { rewrite E. apply elem_of_app. right. apply elem_of_cons. now left. }
    destruct (write_node_not_encodable (store_of words) node
                (concat (map (record (store_of words)) done)) Hnode)
      as (e & partial & Hwn & Hm).
    assert (Hcases : e = StructError /\
              (pack_H (char node) = None /\ partial = [] \/
               pack_H (char node) = Some partial /\ pack_B (freq node) = None)).
    { destruct (pack_H (char node)) as [b|] eqn:Eh; [|destruct Hm; auto].
      destruct (pack_B (freq node)) as [q|] eqn:Eq; [|destruct Hm as [-> ->]; auto].
      exfalso. apply Hnode. apply order_of_encodable; [exact Hfit| |].
      - eapply pack_H_Some_inv; eauto.
      - eapply pack_B_Some_inv; eauto. }
    destruct Hcases as [-> Hcases].
    exists done, node, rest, partial. repeat split; auto.
    + unfold write_bin. rewrite E, (write_loop_app _ _ _ _ Hd). simpl. now rewrite Hwn.
    + apply records_length.
    + destruct Hcases as [[H1 H2]|[H1 H2]]; [exact H1|exfalso].
      pose proof (trie_of_freqs_in_range words H) as Hfreq.
      rewrite <- (order_of_perm words) in Hfreq. rewrite Forall_forall in Hfreq.
      rewrite pack_B_Some in H2 by (apply (Hfreq node Hin)). discriminate.
    + destruct Hcases as [[H1 H2]|[H1 H2]]; [exact H2|exfalso].
      pose proof (trie_of_freqs_in_range words H) as Hfreq.
      rewrite <- (order_of_perm words) in Hfreq. rewrite Forall_forall in Hfreq.
      rewrite pack_B_Some in H2 by (apply (Hfreq node Hin)). discriminate.
  - intros Hf. split.
    + intros Hc.
      assert (Henc : Forall (encodable (store_of words)) (order_of words)).
      { pose proof (trie_of_fields_in_range words Hc Hf) as Hall.
        rewrite <- (order_of_perm words) in Hall.
        eapply Forall_impl; [exact Hall|]. intros n [H1 H2].
        now apply order_of_encodable. }
      unfold write_bin. now rewrite write_loop_encodable.
    + intros Hok.
      destruct (write_bin (order_of words) (store_of words)) as [out e] eqn:Hw.
      simpl in Hok. subst e. apply write_bin_inv in Hw as [Henc _].
      rewrite Forall_forall in Henc.
      unfold chars_in_range. apply Forall_forall. intros [w f] Hw.
      apply Forall_forall. intros c Hc. simpl in Hc.
      destruct (Hchar w f c) as (n & Hn & <-);
        [now apply list_elem_of_In | now apply list_elem_of_In|].
      now destruct (Henc n Hn).
Qed.

Lemma astral_table_builds :
  build_trie astral_table = Returned (order_of astral_table, store_of astral_table).
Proof. apply build_trie_returns. vm_compute. discriminate. Qed.

Lemma astral_char_raises_struct_error_witness :
  exists done node rest,
    order_of astral_table = done ++ node :: rest /\
    Forall (encodable (store_of astral_table)) done /\
    write_bin (order_of astral_table) (store_of astral_table) =
      (concat (map (record (store_of astral_table)) done), Some StructError) /\
    pack_H (char node) = None.
Proof.
  destruct (proj1 (astral_char_raises_struct_error astral_table _ _ astral_table_builds))
    as (done & node & rest & partial & E & Hd & Hw & _ & _ & Hf).
  { exists [128512], 1, 128512. split; [now left|]. split; [now left|]. lia. }
  destruct Hf as [Hp Hnil].
  { repeat constructor; simpl; lia. }
  exists done, node, rest. rewrite Hnil, app_nil_r in Hw. auto.
Defined.

(** ** Independence of the insertion order *)

Lemma canon_path (t : TrieNode) : path (canon t) = path t.
Proof. destruct t; reflexivity. Qed.

Lemma canon_char (t : TrieNode) : char (canon t) = char t.
Proof. destruct t; reflexivity. Qed.

Lemma canon_freq (t : TrieNode) : freq (canon t) = freq t.
Proof. destruct t; reflexivity. Qed.

Lemma canon_children (t : TrieNode) :
  children (canon t) = sorted_by_char (map canon (children t)).
Proof. destruct t; reflexivity. Qed.

Lemma insert_by_char_map (g : TrieNode -> TrieNode) (x : TrieNode) (l : list TrieNode) :
  (forall y, char (g y) = char y) ->
  insert_by_char (g x) (map g l) = map g (insert_by_char x l).
Proof.
  intros Hg. induction l as [|y l IH]; simpl; [reflexivity|].
  rewrite !Hg. destruct (char x <=? char y); simpl; [reflexivity|]. now rewrite IH.
Qed.

Lemma sorted_by_char_map (g : TrieNode -> TrieNode) (l : list TrieNode) :
  (forall y, char (g y) = char y) ->
  sorted_by_char (map g l) = map g (sorted_by_char l).
Proof.
  intros Hg. induction l as [|x l IH]; simpl; [reflexivity|].
  rewrite IH. now apply insert_by_char_map.
Qed.

Lemma insert_by_char_ascending (x : TrieNode) (l : list TrieNode) :
  ascending l -> ascending (insert_by_char x l).
Proof.
  unfold ascending. induction 1 as [|y l Hl IH Hy]; simpl.
  - repeat constructor.
  - destruct (char x <=? char y) eqn:E.
    + constructor; [now constructor|].
      constructor; [lia|]. eapply Forall_impl; [exact Hy|]. intros z Hz. simpl in *. lia.
    + constructor; [exact IH|].
      rewrite (insert_by_char_perm x l). constructor; [lia|exact Hy].
Qed.

Lemma sorted_by_char_ascending (l : list TrieNode) : ascending (sorted_by_char l).
Proof.
  induction l as [|x l IH]; simpl; [constructor|].
  now apply insert_by_char_ascending.
Qed.

Lemma sorted_by_char_id (l : list TrieNode) : ascending l -> sorted_by_char l = l.
Proof.
  unfold ascending. induction 1 as [|x l Hl IH Hx]; simpl; [reflexivity|].
  rewrite IH. destruct l as [|y l]; [reflexivity|]. simpl.
  inversion Hx as [|? ? Hxy _]; subst. destruct (char x <=? char y) eqn:E; [reflexivity|lia].
Qed.

Lemma sorted_by_char_idem (l : list TrieNode) :
  sorted_by_char (sorted_by_char l) = sorted_by_char l.
Proof. apply sorted_by_char_id, sorted_by_char_ascending. Qed.

Lemma canon_sorted_children (t : TrieNode) :
  sorted_by_char (children (canon t)) = map canon (sorted_by_char (children t)).
Proof.
  rewrite canon_children, sorted_by_char_idem.
  apply sorted_by_char_map, canon_char.
Qed.

Lemma bfs_order_canon (fuel : nat) :
  forall queue, bfs_order fuel (map canon queue) = map canon (bfs_order fuel queue).
Proof.
  induction fuel as [|fuel IH]; intros [|n queue]; try reflexivity.
  cbn [map bfs_order]. f_equal.
  rewrite canon_sorted_children, <- map_app. apply IH.
Qed.

Lemma link_siblings_canon (cs : list TrieNode) :
  forall st, link_siblings (map canon cs) st = link_siblings cs st.
Proof.
  induction cs as [|l [|r cs] IH]; intros st; try reflexivity.
  change (link_siblings (map canon (l :: r :: cs)) st)
    with (link_siblings (map canon (r :: cs))
            (set_next_sibling (path (canon l)) (path (canon r)) st)).
  rewrite IH, !canon_path. reflexivity.
Qed.

Lemma visit_canon (n : TrieNode) (off : Z) (st : Store) :
  visit (canon n) off st = visit n off st.
Proof.
  unfold visit. rewrite canon_sorted_children, canon_path.
  destruct (sorted_by_char (children n)) as [|c0 cs]; [reflexivity|].
  cbn [map]. rewrite canon_path.
  change (canon c0 :: map canon cs) with (map canon (c0 :: cs)).
  now rewrite link_siblings_canon.
Qed.

Lemma layout_canon (nodes : list TrieNode) :
  forall off st, layout (map canon nodes) off st = layout nodes off st.
Proof.
  induction nodes as [|n nodes IH]; intros off st; [reflexivity|].
  cbn [map layout]. now rewrite visit_canon, IH.
Qed.

Lemma node_count_canon (t : TrieNode) : node_count (canon t) = node_count t.
Proof.
  induction t as [p c f cs IH] using TrieNode_ind'.
  rewrite !node_count_unfold. f_equal. cbn [canon children].
  rewrite (total_count_perm _ _ (sorted_by_char_perm _)).
  unfold total_count. rewrite map_map. f_equal.
  induction IH as [|x l Hx Hl IHl]; simpl; [reflexivity|]. now rewrite Hx, IHl.
Qed.

Lemma write_node_canon (st : Store) (n : TrieNode) (f : list Z) :
  write_node st (canon n) f = write_node st n f.
Proof.
  unfold write_node, first_child_offset, next_sibling_offset.
  now rewrite canon_char, canon_freq, canon_path.
Qed.

Lemma write_loop_canon (st : Store) (nodes : list TrieNode) :
  forall f, write_loop st (map canon nodes) f = write_loop st nodes f.
Proof.
  induction nodes as [|n nodes IH]; intros f; [reflexivity|].
  cbn [map write_loop]. rewrite write_node_canon.
  destruct (write_node st n f) as [f' [e|]]; [reflexivity|apply IH].
Qed.

(** The output depends on the trie only up to the order of the children. *)
Lemma compile_tree_canon (t : TrieNode) : compile_tree (canon t) = compile_tree t.
Proof.
  unfold compile_tree. rewrite node_count_canon.
  assert (Hc : total_count [canon t] = node_count t)
    by (rewrite total_count_singleton; apply node_count_canon).
  assert (Ht : total_count [t] = node_count t) by apply total_count_singleton.
  destruct (Z_le_dec (10 * (Z.of_nat (node_count t) - 1)) MAX_OFFSET) as [Hle|Hgt].
  - rewrite (bfs_loop_returns _ [canon t]) by (rewrite Hc; [lia || (right; lia)]).
    rewrite (bfs_loop_returns _ [t]) by (rewrite Ht; [lia || (right; lia)]).
    cbn [app]. change [canon t] with (map canon [t]).
    rewrite bfs_order_canon, layout_canon. unfold write_bin.
    now rewrite write_loop_canon.
  - rewrite (bfs_loop_raises _ [canon t]) by (rewrite ?Hc; first [lia | discriminate]).
    rewrite (bfs_loop_raises _ [t]) by (rewrite ?Ht; first [lia | discriminate]).
    reflexivity.
Qed.

Lemma compile_compile_tree (words : list (list Z * Z)) :
  compile words = compile_tree (trie_of words).
Proof. reflexivity. Qed.

Lemma cinsert_path (word : list Z) (f : Z) (t : TrieNode) :
  path (cinsert word f t) = path t.
Proof. destruct word; reflexivity. Qed.

Lemma cinsert_char (word : list Z) (f : Z) (t : TrieNode) :
  char (cinsert word f t) = char t.
Proof. destruct word; reflexivity. Qed.

(** Sorting in a child and looking up another char commute. *)
Lemma csetdefault_insert_other (p : list Z) (ch : Z) (k : TrieNode -> TrieNode)
    (y : TrieNode) (l : list TrieNode) :
  (forall z, char (k z) = char z) -> char y <> ch ->
  csetdefault p ch k (insert_by_char y l) = insert_by_char y (csetdefault p ch k l).
Proof.
  intros Hk Hy. induction l as [|s l IH].
  - cbn [insert_by_char csetdefault]. rewrite Hk. cbn [TrieNode_new char].
    cases_on_chars.
  - cbn [insert_by_char csetdefault].
    destruct (Z.leb_spec (char y) (char s)).
    + cbn [csetdefault].
      destruct (Z.eqb_spec (char y) ch); [contradiction|].
      destruct (Z.eqb_spec (char s) ch).
      * destruct (Z.ltb_spec ch (char y)); [lia|].
        cbn [insert_by_char]. rewrite Hk. cases_on_chars.
      * destruct (Z.ltb_spec ch (char s)).
        -- cbn [insert_by_char]. rewrite Hk. cbn [TrieNode_new char].
           destruct (Z.ltb_spec ch (char y)), (Z.leb_spec (char y) ch); try lia.
           ++ cases_on_chars.
           ++ reflexivity.
        -- destruct (Z.ltb_spec ch (char y)); [lia|].
           cbn [insert_by_char]. cases_on_chars.
    + cbn [csetdefault].
      destruct (Z.eqb_spec (char s) ch).
      * cbn [insert_by_char]. rewrite Hk. cases_on_chars.
      * destruct (Z.ltb_spec ch (char s)).
        -- cbn [insert_by_char]. rewrite Hk. cbn [TrieNode_new char].
           destruct (Z.leb_spec (char y) ch); [lia|]. cases_on_chars.
        -- rewrite IH. cbn [insert_by_char]. cases_on_chars.
Qed.

(** Sorting in the child of char [ch] and then walking into it is sorting in
    the child walked into. *)
Lemma csetdefault_insert_same (p : list Z) (ch : Z) (k : TrieNode -> TrieNode)
    (x : TrieNode) (l : list TrieNode) :
  (forall z, char (k z) = char z) -> char x = ch -> ~ In ch (map char l) ->
  csetdefault p ch k (insert_by_char x l) = insert_by_char (k x) l.
Proof.
  intros Hk Hx Hl. induction l as [|s l IH].
  - cbn [insert_by_char csetdefault]. cases_on_chars.
  - cbn [map] in Hl. cbn [insert_by_char]. rewrite Hk.
    assert (char s <> ch) by (intros E; apply Hl; now left).
    destruct (Z.leb_spec (char x) (char s)).
    + cbn [csetdefault]. cases_on_chars.
    + cbn [csetdefault]. destruct (Z.eqb_spec (char s) ch); [contradiction|].
      destruct (Z.ltb_spec ch (char s)); [lia|].
      rewrite IH; [reflexivity|]. intros Hin. apply Hl. now right.
Qed.

Lemma canon_new (p : list Z) (ch : Z) : canon (TrieNode_new p ch) = TrieNode_new p ch.
Proof. reflexivity. Qed.

Lemma canon_set_freq (f : Z) (t : TrieNode) : canon (set_freq f t) = set_freq f (canon t).
Proof. destruct t; reflexivity. Qed.

(** Inserting a word and sorting the children is inserting it into the
    sorted trie. *)
Lemma canon_insert (f : Z) :
  forall word p t, well_named p t -> canon (insert word f t) = cinsert word f (canon t).
Proof.
  induction word as [|ch word IH]; intros p t H; [apply canon_set_freq|].
  apply well_named_unfold in H as (Hp & Hnd & Hcs).
  destruct t as [p' c q cs]. cbn [path children] in *. subst p'.
  cbn [insert cinsert canon]. unfold set_children.
  cbn [canon path char freq children]. f_equal.
  induction cs as [|x cs IHcs].
  - cbn [setdefault_walk map sorted_by_char fold_right insert_by_char csetdefault].
    f_equal. rewrite (IH (p ++ [ch])); [now rewrite canon_new|].
    apply well_named_unfold. repeat split; constructor.
  - cbn [map] in Hnd. apply NoDup_cons in Hnd as [Hx Hnd].
    inversion Hcs as [|? ? Hwx Hwl]; subst.
    cbn [setdefault_walk]. destruct (Z.eqb_spec (char x) ch) as [E|E].
    + cbn [map sorted_by_char fold_right].
      rewrite (IH _ _ Hwx).
      rewrite csetdefault_insert_same; [reflexivity|apply cinsert_char| |].
      * now rewrite canon_char.
      * intros Hin. apply Hx. rewrite E.
        rewrite (sorted_by_char_perm (map canon cs)) in Hin.
        rewrite map_map in Hin. apply list_elem_of_In.
        erewrite map_ext; [exact Hin|]. intros a. symmetry. apply canon_char.
    + cbn [map sorted_by_char fold_right].
      change (fold_right insert_by_char [] ?l) with (sorted_by_char l).
      rewrite (IHcs Hnd Hwl).
      rewrite csetdefault_insert_other; [reflexivity|apply cinsert_char|].
      now rewrite canon_char.
Qed.

Lemma canon_insert_all (words : list (list Z * Z)) :
  forall p t, well_named p t ->
    canon (insert_all words t) = cinsert_all words (canon t).
Proof.
  induction words as [|[w f] words IH]; intros p t H; [reflexivity|].
  simpl. rewrite (IH p) by now apply insert_well_named.
  now rewrite (canon_insert f w p).
Qed.

Lemma csetdefault_ext (p : list Z) (ch : Z) (k1 k2 : TrieNode -> TrieNode)
    (cs : list TrieNode) :
  (forall z, k1 z = k2 z) -> csetdefault p ch k1 cs = csetdefault p ch k2 cs.
Proof.
  intros H. induction cs as [|c cs IH]; simpl; rewrite ?H, ?IH; reflexivity.
Qed.

Lemma csetdefault_same (p : list Z) (ch : Z) (k1 k2 : TrieNode -> TrieNode)
    (cs : list TrieNode) :
  (forall z, char (k2 z) = char z) ->
  csetdefault p ch k1 (csetdefault p ch k2 cs) =
  csetdefault p ch (fun z => k1 (k2 z)) cs.
Proof.
  intros Hk. induction cs as [|c cs IH].
  - cbn [csetdefault]. rewrite Hk. cbn [TrieNode_new char]. cases_on_chars.
  - cbn [csetdefault]. destruct (Z.eqb_spec (char c) ch).
    + cbn [csetdefault]. rewrite Hk. cases_on_chars.
    + destruct (Z.ltb_spec ch (char c)).
      * cbn [csetdefault]. rewrite Hk. cbn [TrieNode_new char]. cases_on_chars.
      * cbn [csetdefault]. rewrite IH. cases_on_chars.
Qed.

Lemma csetdefault_comm (p : list Z) (c1 c2 : Z) (k1 k2 : TrieNode -> TrieNode)
    (cs : list TrieNode) :
  (forall z, char (k1 z) = char z) -> (forall z, char (k2 z) = char z) ->
  c1 <> c2 ->
  csetdefault p c1 k1 (csetdefault p c2 k2 cs) =
  csetdefault p c2 k2 (csetdefault p c1 k1 cs).
Proof.
  intros H1 H2 Hne. induction cs as [|c cs IH].
  - cbn [csetdefault]. rewrite H1, H2. cbn [TrieNode_new char]. cases_on_chars.
  - cbn [csetdefault].
    destruct (Z.eqb_spec (char c) c1), (Z.eqb_spec (char c) c2); try lia.
    + destruct (Z.ltb_spec c2 (char c)); cbn [csetdefault];
        rewrite ?H1, ?H2; cbn [TrieNode_new char]; cases_on_chars.
    + destruct (Z.ltb_spec c1 (char c)); cbn [csetdefault];
        rewrite ?H1, ?H2; cbn [TrieNode_new char]; cases_on_chars.
    + destruct (Z.ltb_spec c1 (char c)), (Z.ltb_spec c2 (char c)); cbn [csetdefault];
        rewrite ?H1, ?H2; cbn [TrieNode_new char]; cases_on_chars.
      now rewrite IH.
Qed.

(** Insertions of two different words commute on the sorted trie. *)
Lemma cinsert_comm (f1 f2 : Z) :
  forall w1 w2 t, w1 <> w2 ->
    cinsert w1 f1 (cinsert w2 f2 t) = cinsert w2 f2 (cinsert w1 f1 t).
Proof.
  induction w1 as [|c1 w1 IH]; intros [|c2 w2] t Hne.
  - congruence.
  - destruct t; reflexivity.
  - destruct t; reflexivity.
  - cbn [cinsert]. destruct t as [p c q cs]. unfold set_children.
    cbn [path char freq children]. f_equal.
    destruct (Z.eq_dec c1 c2) as [->|Hc].
    + rewrite !csetdefault_same by (intros; apply cinsert_char).
      apply csetdefault_ext. intros z. apply IH. congruence.
    + apply csetdefault_comm; auto; intros; apply cinsert_char.
Qed.

Lemma cinsert_all_perm (words1 words2 : list (list Z * Z)) :
  Permutation words1 words2 -> NoDup (map fst words1) ->
  forall t, cinsert_all words1 t = cinsert_all words2 t.
Proof.
  induction 1 as [|x l l' Hp IH|x y l|l l' l'' Hp1 IH1 Hp2 IH2]; intros Hnd t.
  - reflexivity.
  - cbn [map] in Hnd. apply NoDup_cons in Hnd as [_ Hnd]. simpl. now apply IH.
  - cbn [map] in Hnd. apply NoDup_cons in Hnd as [Hy _].
    simpl. rewrite cinsert_comm; [reflexivity|].
    intros E. apply Hy. rewrite E. apply elem_of_cons. now left.
  - rewrite IH1 by exact Hnd. apply IH2. now rewrite <- Hp1.
Qed.

(** C3: two tables with the same keys and values, populated in different
    orders, compile to the same result: the same bytes written, and the same
    exception if one is raised. *)
Theorem compile_deterministic (words1 words2 : list (list Z * Z)) :
  NoDup (map fst words1) ->
  Permutation words1 words2 ->
  compile words1 = compile words2.
Proof.
  intros Hnd Hp.
  rewrite !compile_compile_tree, <- (compile_tree_canon (trie_of words1)),
    <- (compile_tree_canon (trie_of words2)).
  unfold trie_of.
  rewrite !(canon_insert_all _ [] root_node) by apply root_node_well_named.
  now rewrite (cinsert_all_perm words1 words2).
Qed.

Lemma cat_car_can_keys_NoDup : NoDup (map fst cat_car_can).
Proof.
  unfold cat_car_can. cbn [map fst].
  repeat (apply NoDup_cons; split;
          [intros H; repeat (apply elem_of_cons in H as [H|H]; [discriminate|]);
           now apply elem_of_nil in H|]).
  apply NoDup_nil_2.
Qed.

(** The example table populated in the order can, car, cat. *)
Lemma compile_deterministic_witness :
  compile cat_car_can = compile (rev cat_car_can).
Proof.
  apply (compile_deterministic cat_car_can (rev cat_car_can)).
  - exact cat_car_can_keys_NoDup.
  - apply Permutation_rev.
Defined.

(** ** The links point at the children *)

Lemma subnodes_self (t : TrieNode) : In t (subnodes t).
Proof. rewrite subnodes_unfold. now left. Qed.

Lemma subnodes_children_closed (t : TrieNode) :
  forall n c, In n (subnodes t) -> In c (children n) -> In c (subnodes t).
Proof.
  induction t as [p ch f cs IH] using TrieNode_ind'. intros n c Hn Hc.
  rewrite subnodes_unfold in *. unfold descendants in *. cbn [children] in *.
  right. apply in_concat.
  destruct Hn as [<-|Hn].
  - exists (subnodes c). split; [now apply in_map|apply subnodes_self].
  - apply in_concat in Hn as (l & Hl & Hn).
    apply in_map_iff in Hl as (x & <- & Hx).
    exists (subnodes x). split; [now apply in_map|].
    rewrite Forall_forall in IH.
    eapply (IH x); [now apply list_elem_of_In | exact Hn | exact Hc].
Qed.

Lemma order_of_children_closed (words : list (list Z * Z)) (n c : TrieNode) :
  In n (order_of words) -> In c (children n) -> In c (order_of words).
Proof.
  intros Hn Hc. apply list_elem_of_In. rewrite (order_of_perm words).
  apply list_elem_of_In. apply (subnodes_children_closed _ n); auto.
  apply list_elem_of_In. rewrite <- (order_of_perm words). now apply list_elem_of_In.
Qed.

(** A child is not the first node of the list. *)
Lemma order_of_child_index (words : list (list Z * Z)) (n c : TrieNode) :
  In n (order_of words) -> In c (children n) ->
  exists j, order_of words !! S j = Some c.
Proof.
  intros Hn Hc.
  pose proof (order_of_children_closed _ _ _ Hn Hc) as Hin.
  apply list_elem_of_In, list_elem_of_lookup in Hin as [j Hj].
  destruct j as [|j]; [exfalso|eauto].
  destruct (order_of_head words) as [rest E]. rewrite E in Hj. injection Hj as <-.
  pose proof (order_of_well_named words) as Hwn. rewrite Forall_forall in Hwn.
  assert (Hwn_n : well_named (path n) n) by (apply Hwn; now apply list_elem_of_In).
  pose proof (well_named_child _ _ Hwn_n Hc) as Ep.
  rewrite trie_of_path in Ep. now destruct (path n).
Qed.

Lemma link_siblings_other (cs : list TrieNode) :
  forall st x, ~ In x (map path cs) ->
    st_next_sibling (link_siblings cs st) !! x = st_next_sibling st !! x.
Proof.
  induction cs as [|l [|r cs] IH]; intros st x Hx; try reflexivity.
  change (link_siblings (l :: r :: cs) st)
    with (link_siblings (r :: cs) (set_next_sibling (path l) (path r) st)).
  rewrite IH by (intros H; apply Hx; now right).
  cbn [set_next_sibling st_next_sibling]. apply lookup_insert_ne.
  intros E. apply Hx. now left.
Qed.

Lemma link_siblings_at (l1 : list TrieNode) :
  forall st a b l2,
    NoDup (map path (l1 ++ a :: b :: l2)) ->
    st_next_sibling (link_siblings (l1 ++ a :: b :: l2) st) !! path a = Some (path b).
Proof.
  induction l1 as [|x l1 IH]; intros st a b l2 Hnd.
  - change (link_siblings ([] ++ a :: b :: l2) st)
      with (link_siblings (b :: l2) (set_next_sibling (path a) (path b) st)).
    cbn [app map] in Hnd. apply NoDup_cons in Hnd as [Ha _].
    rewrite link_siblings_other.
    + cbn [set_next_sibling st_next_sibling]. apply lookup_insert_eq.
    + intros H. apply Ha. now apply list_elem_of_In.
  - cbn [app map] in Hnd. apply NoDup_cons in Hnd as [_ Hnd].
    destruct l1 as [|y l1].
    + change (link_siblings ([x] ++ a :: b :: l2) st)
        with (link_siblings ([] ++ a :: b :: l2) (set_next_sibling (path x) (path a) st)).
      now apply IH.
    + change (link_siblings ((x :: y :: l1) ++ a :: b :: l2) st)
        with (link_siblings ((y :: l1) ++ a :: b :: l2)
                (set_next_sibling (path x) (path y) st)).
      now apply IH.
Qed.

Lemma visit_next_sibling_other (m : TrieNode) (off : Z) (st : Store) (x : list Z) :
  (forall c, In c (children m) -> path c <> x) ->
  st_next_sibling (visit m off st) !! x = st_next_sibling st !! x.
Proof.
  intros H. unfold visit.
  destruct (sorted_by_char (children m)) as [|c0 cs] eqn:E; [reflexivity|].
  rewrite link_siblings_other; [reflexivity|].
  intros Hin. apply in_map_iff in Hin as (c & Ec & Hc).
  apply (H c); [|exact Ec].
  apply list_elem_of_In. rewrite <- (sorted_by_char_perm (children m)), E.
  now apply list_elem_of_In.
Qed.

Lemma layout_next_sibling_other (nodes : list TrieNode) :
  forall off st x,
    (forall m c, In m nodes -> In c (children m) -> path c <> x) ->
    st_next_sibling (layout nodes off st) !! x = st_next_sibling st !! x.
Proof.
  induction nodes as [|m nodes IH]; intros off st x H; [reflexivity|].
  cbn [layout]. rewrite IH by (intros m' c Hm; apply H; now right).
  apply visit_next_sibling_other. intros c. apply H. now left.
Qed.

Lemma sorted_children_paths_NoDup (n : TrieNode) :
  well_named (path n) n -> NoDup (map path (sorted_by_char (children n))).
Proof.
  intros H. rewrite (sorted_by_char_perm (children n)).
  pose proof (well_named_children_NoDup _ H) as Hnd.
  assert (Hp : forall c, In c (children n) -> path c = path n ++ [char c])
    by (intros c Hc; exact (well_named_child n c H Hc)).
  induction (children n) as [|x l IH]; [constructor|].
  cbn [map] in *. apply NoDup_cons in Hnd as [Hx Hnd]. apply NoDup_cons.
  split; [|apply IH; [exact Hnd | intros c Hc; apply Hp; now right]].
  intros Hin. apply list_elem_of_fmap in Hin as (y & Ey & Hy). apply Hx.
  rewrite (Hp x), (Hp y) in Ey
    by first [now left | right; now apply list_elem_of_In].
  apply app_inj_tail in Ey as [_ ->].
  apply list_elem_of_fmap. eauto.
Qed.

(** The next_sibling of a child is its right neighbour among the sorted
    children of its parent. *)
Lemma layout_next_sibling_at (nodes : list TrieNode) :
  forall off st n l1 a b l2,
    NoDup (map path nodes) ->
    Forall (fun m => well_named (path m) m) nodes ->
    In n nodes ->
    sorted_by_char (children n) = l1 ++ a :: b :: l2 ->
    st_next_sibling (layout nodes off st) !! path a = Some (path b).
Proof.
  induction nodes as [|m nodes IH]; intros off st n l1 a b l2 Hnd Hwn Hn E;
    [contradiction|].
  cbn [map] in Hnd. apply NoDup_cons in Hnd as [Hm Hnd].
  inversion Hwn as [|? ? Hwm Hwn']; subst.
  cbn [layout]. destruct Hn as [->|Hn]; [|eapply IH; eauto].
  assert (Ha : In a (children n)).
  { apply list_elem_of_In. rewrite <- (sorted_by_char_perm (children n)), E.
    apply elem_of_app. right. apply elem_of_cons. now left. }
  rewrite layout_next_sibling_other.
  - pose proof (sorted_children_paths_NoDup _ Hwm) as Hndc. unfold visit.
    destruct (sorted_by_char (children n)) as [|c0 cs] eqn:E0.
    + destruct l1; discriminate.
    + rewrite E in Hndc |- *. now apply link_siblings_at.
  - intros m c Hmn Hc Ep. apply Hm.
    rewrite Forall_forall in Hwn'.
    assert (Hwm' : well_named (path m) m) by (apply Hwn'; now apply list_elem_of_In).
    rewrite (well_named_child _ _ Hwm' Hc), (well_named_child _ _ Hwm Ha) in Ep.
    apply app_inj_tail in Ep as [Ep _]. rewrite <- Ep.
    apply list_elem_of_In, in_map. exact Hmn.
Qed.

(** ** Capacity, links and the examples of the specification *)

(** The capacity check: [build_trie] returns the N nodes of the trie when
    10 (N - 1) <= 16777215 and raises [ValueError] otherwise. *)
Theorem build_trie_capacity (words : list (list Z * Z)) :
  (10 * (Z.of_nat (node_count (trie_of words)) - 1) <= MAX_OFFSET /\
   exists nodes st,
     build_trie words = Returned (nodes, st) /\
     length nodes = node_count (trie_of words)) \/
  (MAX_OFFSET < 10 * (Z.of_nat (node_count (trie_of words)) - 1) /\
   build_trie words = Raised ValueError).
Proof.
  destruct (Z_le_dec (10 * (Z.of_nat (node_count (trie_of words)) - 1)) MAX_OFFSET)
    as [Hle|Hgt].
  - left. split; [exact Hle|]. exists (order_of words), (store_of words).
    split; [now apply build_trie_returns|apply order_of_length].
  - right. split; [lia|]. apply build_trie_raises. lia.
Qed.

(** Let [build_trie] return on a table.  In a record that [write_bin]
    writes in full, the first_child field of a node with children is the
    offset of its child of least char, and the next_sibling field of a child
    is the offset of its right neighbour among the sorted children of its
    parent; these offsets are [10 j] for the index [j >= 1] of the node
    pointed at, hence never 0. *)
Theorem links_resolve (words : list (list Z * Z)) (nodes : list TrieNode)
    (st : Store) :
  build_trie words = Returned (nodes, st) ->
  (forall k node c0 rest,
     nodes !! k = Some node -> record_written (output nodes st) k ->
     sorted_by_char (children node) = c0 :: rest ->
     exists j, nodes !! S j = Some c0 /\
               rec_first_child (output nodes st) k = 10 * Z.of_nat (S j)) /\
  (forall k parent l1 a b l2,
     nodes !! k = Some a -> record_written (output nodes st) k ->
     In parent nodes ->
     sorted_by_char (children parent) = l1 ++ a :: b :: l2 ->
     exists j, nodes !! S j = Some b /\
               rec_next_sibling (output nodes st) k = 10 * Z.of_nat (S j)).
Proof.
  intros Hb. apply build_trie_inv in Hb as (-> & -> & Hfit).
  assert (Hoff : forall k node,
            order_of words !! k = Some node ->
            offset_of (store_of words) (path node) = 10 * Z.of_nat k).
  { intros k node Hk. unfold store_of.
    rewrite (layout_offset_at _ 0 empty_store k node); [lia|apply order_of_NoDup|exact Hk]. }
  split.
  - intros k node c0 rest Hk Hwr E.
    assert (Hnode : In node (order_of words)).
    { apply list_elem_of_In. eapply list_elem_of_lookup_2; eauto. }
    assert (Hc0 : In c0 (children node)).
    { apply list_elem_of_In. rewrite <- (sorted_by_char_perm (children node)), E.
      apply elem_of_cons. now left. }
    destruct (order_of_child_index _ _ _ Hnode Hc0) as [j Hj].
    exists j. split; [exact Hj|].
    destruct (written_record_fields _ _ _ _ Hk Hwr) as (_ & _ & _ & -> & _).
    unfold first_child_offset, store_of at 1.
    rewrite layout_first_child_at by (auto using order_of_NoDup).
    rewrite E. fold (store_of words). now apply Hoff.
  - intros k parent l1 a b l2 Hk Hwr Hpar E.
    assert (Hb : In b (children parent)).
    { apply list_elem_of_In. rewrite <- (sorted_by_char_perm (children parent)), E.
      apply elem_of_app. right. apply elem_of_cons. right. apply elem_of_cons. now left. }
    destruct (order_of_child_index _ _ _ Hpar Hb) as [j Hj].
    exists j. split; [exact Hj|].
    destruct (written_record_fields _ _ _ _ Hk Hwr) as (_ & _ & _ & _ & ->).
    unfold next_sibling_offset, store_of at 1.
    rewrite (layout_next_sibling_at _ _ _ parent l1 a b l2)
      by (auto using order_of_NoDup, order_of_well_named).
    fold (store_of words). now apply Hoff.
Qed.

Lemma links_resolve_witness :
  (forall k node c0 rest,
     order_of cat_car_can !! k = Some node ->
     record_written (output (order_of cat_car_can) (store_of cat_car_can)) k ->
     sorted_by_char (children node) = c0 :: rest ->
     exists j, order_of cat_car_can !! S j = Some c0 /\
               rec_first_child (output (order_of cat_car_can) (store_of cat_car_can)) k =
               10 * Z.of_nat (S j)) /\
  (forall k parent l1 a b l2,
     order_of cat_car_can !! k = Some a ->
     record_written (output (order_of cat_car_can) (store_of cat_car_can)) k ->
     In parent (order_of cat_car_can) ->
     sorted_by_char (children parent) = l1 ++ a :: b :: l2 ->
     exists j, order_of cat_car_can !! S j = Some b /\
               rec_next_sibling (output (order_of cat_car_can) (store_of cat_car_can)) k =
               10 * Z.of_nat (S j)).
Proof.
  apply (links_resolve cat_car_can (order_of cat_car_can) (store_of cat_car_can)).
  exact cat_car_can_builds.
Defined.

(** An empty table compiles to the 10 bytes of the root's record. *)
Theorem empty_table_compiles :
  compile [] = Returned ([0; 94; 0; 0; 0; 0; 0; 0; 0; 0], None).
Proof. vm_compute. reflexivity. Qed.

(** The line ["foo, 9999"] stores the frequency 255. *)
Theorem foo_9999_clamps :
  parse_words ascii_runtime [[102; 111; 111; 44; 32; 57; 57; 57; 57]] 50000 =
  Returned [([102; 111; 111], 255)].
Proof. vm_compute. reflexivity. Qed.

(** ** What the trie holds *)

Lemma get_child_setdefault_same (p : list Z) (ch : Z) (k : TrieNode -> TrieNode)
    (cs : list TrieNode) :
  (forall x, char (k x) = char x) ->
  get_child ch (setdefault_walk p ch k cs) =
  Some (k (match get_child ch cs with
           | Some c => c
           | None => TrieNode_new (p ++ [ch]) ch
           end)).
Proof.
  intros Hk. induction cs as [|c cs IH]; simpl.
  - rewrite Hk. simpl. now rewrite Z.eqb_refl.
  - destruct (char c =? ch) eqn:E; simpl.
    + rewrite Hk, E. reflexivity.
    + rewrite E. exact IH.
Qed.

Lemma get_child_setdefault_other (p : list Z) (ch ch' : Z) (k : TrieNode -> TrieNode)
    (cs : list TrieNode) :
  (forall x, char (k x) = char x) -> ch' <> ch ->
  get_child ch' (setdefault_walk p ch k cs) = get_child ch' cs.
Proof.
  intros Hk Hne. induction cs as [|c cs IH]; simpl.
  - rewrite Hk. simpl. destruct (Z.eqb_spec ch ch'); [congruence|reflexivity].
  - destruct (Z.eqb_spec (char c) ch) as [E|E]; simpl.
    + rewrite Hk. destruct (Z.eqb_spec (char c) ch'); [congruence|reflexivity].
    + destruct (char c =? ch'); [reflexivity|exact IH].
Qed.

(** The word just inserted leads to a node of its frequency. *)
Lemma trie_freq_insert_same (f : Z) :
  forall word t, trie_freq word (insert word f t) = Some f.
Proof.
  unfold trie_freq. induction word as [|ch word IH]; intros t; [reflexivity|].
  cbn [insert find_node set_children children].
  rewrite get_child_setdefault_same by (intros; apply insert_char).
  apply IH.
Qed.

Lemma is_prefix_refl (w : list Z) : is_prefix w w = true.
Proof. induction w as [|c w IH]; simpl; [reflexivity|]. now rewrite Z.eqb_refl. Qed.

Lemma trie_freq_new (p : list Z) (ch : Z) (word : list Z) :
  trie_freq word (TrieNode_new p ch) = match word with [] => Some 0 | _ => None end.
Proof. destruct word; reflexivity. Qed.

(** Any other word leads where it led before; if it led nowhere, it now
    leads to a node of frequency 0 when it is a prefix of the inserted word,
    and still nowhere otherwise. *)
Lemma trie_freq_insert_other (f : Z) :
  forall word' word t, word' <> word ->
    trie_freq word' (insert word f t) =
    match trie_freq word' t with
    | Some q => Some q
    | None => if is_prefix word' word then Some 0 else None
    end.
Proof.
  induction word' as [|c' word' IH]; intros word t Hne.
  - destruct word as [|c word]; [congruence|]. reflexivity.
  - destruct word as [|c word].
    + unfold trie_freq. cbn [insert find_node set_freq children].
      destruct (get_child c' (children t)) as [x|]; [|reflexivity].
      now destruct (option_map freq (find_node word' x)).
    + destruct (Z.eq_dec c' c) as [->|Hc].
      * assert (Hw : word' <> word) by congruence.
        unfold trie_freq in *. cbn [insert find_node set_children children is_prefix].
        rewrite get_child_setdefault_same by (intros; apply insert_char).
        rewrite Z.eqb_refl. cbn [andb]. rewrite (IH word _ Hw).
        destruct (get_child c (children t)) as [x|]; [reflexivity|].
        fold (trie_freq word' (TrieNode_new (path t ++ [c]) c)).
        rewrite trie_freq_new. destruct word'; reflexivity.
      * unfold trie_freq. cbn [insert find_node set_children children is_prefix].
        rewrite get_child_setdefault_other by (auto; intros; apply insert_char).
        destruct (Z.eqb_spec c' c); [congruence|]. cbn [andb].
        destruct (get_child c' (children t)) as [x|]; [|reflexivity].
        now destruct (option_map freq (find_node word' x)).
Qed.

Lemma dict_get_None (w : list Z) (words : list (list Z * Z)) :
  dict_get w words = None <-> ~ In w (map fst words).
Proof.
  induction words as [|[k f] words IH]; simpl; [tauto|].
  destruct (decide (w = k)) as [->|Hne].
  - split; [discriminate|]. intros H. exfalso. apply H. now left.
  - rewrite IH. split; [intros H [E|Hin]; [congruence|auto]|tauto].
Qed.

Lemma dict_get_Some (w : list Z) (f : Z) (words : list (list Z * Z)) :
  NoDup (map fst words) -> (dict_get w words = Some f <-> In (w, f) words).
Proof.
  induction words as [|[k q] words IH]; simpl; intros Hnd.
  - split; [discriminate|contradiction].
  - apply NoDup_cons in Hnd as [Hk Hnd]. destruct (decide (w = k)) as [->|Hne].
    + split; [intros [= ->]; now left|].
      intros [E|Hin]; [congruence|]. exfalso. apply Hk.
      apply list_elem_of_fmap. exists (k, f). split; [reflexivity|now apply list_elem_of_In].
    + rewrite (IH Hnd). split; [now right|intros [E|Hin]; [congruence|exact Hin]].
Qed.

Lemma trie_freq_insert_all (words : list (list Z * Z)) :
  NoDup (map fst words) ->
  forall t w,
    trie_freq w (insert_all words t) =
    match dict_get w words with
    | Some f => Some f
    | None =>
        match trie_freq w t with
        | Some q => Some q
        | None => if existsb (is_prefix w) (map fst words) then Some 0 else None
        end
    end.
Proof.
  induction words as [|[k f] words IH]; intros Hnd t w.
  - simpl. now destruct (trie_freq w t).
  - cbn [map fst] in Hnd. apply NoDup_cons in Hnd as [Hk Hnd].
    cbn [insert_all fold_left fst snd dict_get map existsb].
    change (fold_left _ words ?x) with (insert_all words x).
    rewrite (IH Hnd). destruct (decide (w = k)) as [->|Hne].
    + assert (E : dict_get k words = None).
      { apply dict_get_None. intros H. apply Hk. now apply list_elem_of_In. }
      rewrite E, trie_freq_insert_same. reflexivity.
    + destruct (dict_get w words); [reflexivity|].
      rewrite trie_freq_insert_other by exact Hne.
      destruct (trie_freq w t); [reflexivity|].
      destruct (is_prefix w k); reflexivity.
Qed.

(** The trie holds the table: a key leads to a node of its frequency; a word
    that is not a key leads to a node of frequency 0 when it is empty or a
    prefix of a key, and to no node otherwise. *)
Theorem trie_holds_table (words : list (list Z * Z)) (w : list Z) :
  NoDup (map fst words) ->
  trie_freq w (trie_of words) =
  match dict_get w words with
  | Some f => Some f
  | None =>
      match w with
      | [] => Some 0
      | _ => if existsb (is_prefix w) (map fst words) then Some 0 else None
      end
  end.
Proof.
  intros Hnd. unfold trie_of. rewrite trie_freq_insert_all by exact Hnd.
  destruct (dict_get w words); [reflexivity|].
  unfold root_node. rewrite trie_freq_new. now destruct w.
Qed.

Lemma trie_holds_table_witness :
  trie_freq [99; 97; 114] (trie_of cat_car_can) =
  match dict_get [99; 97; 114] cat_car_can with
  | Some f => Some f
  | None => if existsb (is_prefix [99; 97; 114]) (map fst cat_car_can) then Some 0 else None
  end.
Proof.
  apply (trie_holds_table cat_car_can [99; 97; 114]).
  exact cat_car_can_keys_NoDup.
Defined.

(** ** Looking a word up in the file *)

Lemma get_child_Some (c : Z) (l : list TrieNode) (x : TrieNode) :
  get_child c l = Some x -> In x l /\ char x = c.
Proof.
  induction l as [|a l IH]; simpl; [discriminate|].
  destruct (Z.eqb_spec (char a) c) as [E|E].
  - intros [= ->]. auto.
  - intros H. destruct (IH H). auto.
Qed.

Lemma get_child_None (c : Z) (l : list TrieNode) :
  get_child c l = None -> forall x, In x l -> char x <> c.
Proof.
  induction l as [|a l IH]; simpl; [contradiction|].
  intros H x Hin. destruct (Z.eqb_spec (char a) c); [discriminate|].
  destruct Hin as [<-|Hin]; auto.
Qed.

Lemma get_child_In (l : list TrieNode) (x : TrieNode) :
  NoDup (map char l) -> In x l -> get_child (char x) l = Some x.
Proof.
  induction l as [|a l IH]; simpl; intros Hnd Hin; [contradiction|].
  apply NoDup_cons in Hnd as [Ha Hnd].
  destruct Hin as [->|Hin].
  - now rewrite Z.eqb_refl.
  - destruct (Z.eqb_spec (char a) (char x)) as [E|E]; [|auto].
    exfalso. apply Ha. rewrite E. apply list_elem_of_In, in_map. exact Hin.
Qed.

(** The children of a node have distinct chars, so that the lookup by char
    does not depend on their order. *)
Lemma get_child_perm (c : Z) (l l' : list TrieNode) :
  Permutation l l' -> NoDup (map char l') -> get_child c l = get_child c l'.
Proof.
  intros Hp Hnd. destruct (get_child c l) as [x|] eqn:E.
  - apply get_child_Some in E as [Hin <-]. symmetry.
    apply get_child_In; [exact Hnd|].
    apply list_elem_of_In. rewrite <- Hp. now apply list_elem_of_In.
  - destruct (get_child c l') as [y|] eqn:E'; [|reflexivity].
    apply get_child_Some in E' as [Hin Hc]. exfalso.
    apply (get_child_None _ _ E y); [|exact Hc].
    apply list_elem_of_In. rewrite Hp. now apply list_elem_of_In.
Qed.

Lemma store_of_offset (words : list (list Z * Z)) (k : nat) (node : TrieNode) :
  order_of words !! k = Some node ->
  offset_of (store_of words) (path node) = 10 * Z.of_nat k.
Proof.
  intros Hk. unfold store_of.
  rewrite (layout_offset_at _ 0 empty_store k node); [lia|apply order_of_NoDup|exact Hk].
Qed.

Lemma store_of_first_child_offset (words : list (list Z * Z)) (node : TrieNode) :
  In node (order_of words) ->
  first_child_offset (store_of words) node =
  match sorted_by_char (children node) with
  | [] => 0
  | c0 :: _ => offset_of (store_of words) (path c0)
  end.
Proof.
  intros Hin. unfold first_child_offset, store_of at 1.
  rewrite layout_first_child_at by (auto using order_of_NoDup).
  destruct (sorted_by_char (children node)); [|reflexivity].
  simpl. now rewrite lookup_empty.
Qed.

Lemma store_of_next_sibling_offset (words : list (list Z * Z))
    (parent a : TrieNode) (l1 l2 : list TrieNode) :
  In parent (order_of words) ->
  sorted_by_char (children parent) = l1 ++ a :: l2 ->
  next_sibling_offset (store_of words) a =
  match l2 with
  | [] => 0
  | b :: _ => offset_of (store_of words) (path b)
  end.
Proof.
  intros Hpar E. unfold next_sibling_offset. destruct l2 as [|b l2].
  - rewrite (store_of_last_sibling words parent a Hpar); [reflexivity|].
    rewrite E. apply last_snoc.
  - unfold store_of at 1.
    rewrite (layout_next_sibling_at _ _ _ parent l1 a b l2)
      by (auto using order_of_NoDup, order_of_well_named).
    reflexivity.
Qed.

Lemma children_length_lt (words : list (list Z * Z)) (parent : TrieNode) :
  In parent (order_of words) ->
  (length (sorted_by_char (children parent)) <= length (order_of words))%nat.
Proof.
  intros Hpar.
  pose proof (order_of_well_named words) as Hwn. rewrite Forall_forall in Hwn.
  assert (Hwp : well_named (path parent) parent)
    by (apply Hwn; now apply list_elem_of_In).
  rewrite <- (length_map path (sorted_by_char (children parent))).
  rewrite <- (length_map path (order_of words)).
  apply submseteq_length, NoDup_submseteq; [now apply sorted_children_paths_NoDup|].
  intros x Hx. apply list_elem_of_fmap in Hx as (c & -> & Hc).
  apply list_elem_of_fmap. exists c. split; [reflexivity|].
  apply list_elem_of_In, (order_of_children_closed words parent c Hpar).
  apply list_elem_of_In. now rewrite <- (sorted_by_char_perm (children parent)).
Qed.

Section Lookup.

Variable words : list (list Z * Z).
Hypothesis Hwritten : snd (write_bin (order_of words) (store_of words)) = None.

Lemma file_of_record (k : nat) (node : TrieNode) :
  order_of words !! k = Some node ->
  rec_char (file_of words) k = char node /\
  rec_freq (file_of words) k = freq node /\
  rec_first_child (file_of words) k = first_child_offset (store_of words) node /\
  rec_next_sibling (file_of words) k = next_sibling_offset (store_of words) node.
Proof.
  intros Hk.
  destruct (written_record_fields _ _ _ _ Hk
              (returned_all_written _ _ _ _ Hwritten Hk)) as (_ & H).
  exact H.
Qed.

Lemma file_of_length : length (file_of words) = (10 * length (order_of words))%nat.
Proof.
  unfold file_of.
  destruct (output_shape (store_of words) (order_of words))
    as (done & partial & E & _ & _ & _ & Hall).
  destruct (Hall Hwritten) as [-> ->].
  now rewrite E, app_nil_r, records_length.
Qed.

(** Along the chain of the sorted children of a node, the scan finds the
    child of the char looked for. *)
Lemma scan_siblings_suffix (c : Z) (parent : TrieNode) :
  In parent (order_of words) ->
  forall l2 l1 fuel,
    sorted_by_char (children parent) = l1 ++ l2 ->
    (length l2 < fuel)%nat ->
    match get_child c l2 with
    | Some x =>
        exists j,
          scan_siblings fuel (file_of words)
            (match l2 with
             | [] => 0
             | a :: _ => offset_of (store_of words) (path a)
             end) c = Some j /\
          order_of words !! j = Some x
    | None =>
        scan_siblings fuel (file_of words)
          (match l2 with
           | [] => 0
           | a :: _ => offset_of (store_of words) (path a)
           end) c = None
    end.
Proof.
  intros Hpar. induction l2 as [|a l2 IH]; intros l1 fuel E Hfuel.
  - destruct fuel; [simpl in Hfuel; lia|]. reflexivity.
  - destruct fuel as [|fuel]; [simpl in Hfuel; lia|].
    assert (Ha : In a (children parent)).
    { apply list_elem_of_In. rewrite <- (sorted_by_char_perm (children parent)), E.
      apply elem_of_app. right. apply elem_of_cons. now left. }
    destruct (order_of_child_index _ _ _ Hpar Ha) as [j Hj].
    rewrite (store_of_offset _ _ _ Hj).
    cbn [scan_siblings get_child].
    replace (10 * Z.of_nat (S j) =? 0) with false by (symmetry; apply Z.eqb_neq; lia).
    replace (Z.to_nat (10 * Z.of_nat (S j) / NODE_SIZE)) with (S j).
    2:{ unfold NODE_SIZE. replace (10 * Z.of_nat (S j)) with (Z.of_nat (S j) * 10) by lia.
        rewrite Z.div_mul by lia. now rewrite Nat2Z.id. }
    destruct (file_of_record _ _ Hj) as (Hc & _ & _ & Hns).
    rewrite Hc. destruct (char a =? c); [eauto|].
    rewrite Hns, (store_of_next_sibling_offset words parent a l1 l2 Hpar E).
    apply (IH (l1 ++ [a])); [now rewrite <- app_assoc|simpl in Hfuel; lia].
Qed.

Lemma scan_siblings_children (c : Z) (k : nat) (parent : TrieNode) :
  order_of words !! k = Some parent ->
  match get_child c (children parent) with
  | Some x =>
      exists j,
        scan_siblings (length (file_of words)) (file_of words)
          (rec_first_child (file_of words) k) c = Some j /\
        order_of words !! j = Some x
  | None =>
      scan_siblings (length (file_of words)) (file_of words)
        (rec_first_child (file_of words) k) c = None
  end.
Proof.
  intros Hk.
  assert (Hpar : In parent (order_of words)).
  { apply list_elem_of_In. eapply list_elem_of_lookup_2; eauto. }
  pose proof (order_of_well_named words) as Hwn. rewrite Forall_forall in Hwn.
  assert (Hwp : well_named (path parent) parent)
    by (apply Hwn; now apply list_elem_of_In).
  rewrite <- (get_child_perm c (sorted_by_char (children parent)) (children parent)
                (sorted_by_char_perm _) (well_named_children_NoDup _ Hwp)).
  destruct (file_of_record _ _ Hk) as (_ & _ & -> & _).
  rewrite (store_of_first_child_offset _ _ Hpar).
  apply (scan_siblings_suffix c parent Hpar _ []); [reflexivity|].
  rewrite file_of_length. pose proof (children_length_lt words parent Hpar).
  apply lookup_lt_Some in Hk. lia.
Qed.

(** From the record of a node, the walk in the file ends at the record of
    the node the walk in the trie ends at, and fails when that one fails. *)
Lemma read_node_find :
  forall word k node,
    order_of words !! k = Some node ->
    match find_node word node with
    | Some x =>
        exists j, read_node (file_of words) k word = Some j /\
                  order_of words !! j = Some x
    | None => read_node (file_of words) k word = None
    end.
Proof.
  induction word as [|c word IH]; intros k node Hk; cbn [find_node read_node];
    [eauto|].
  pose proof (scan_siblings_children c k node Hk) as Hs.
  destruct (get_child c (children node)) as [x|].
  - destruct Hs as (j & -> & Hj). apply (IH j x Hj).
  - now rewrite Hs.
Qed.

Lemma read_freq_trie_freq (w : list Z) :
  read_freq (file_of words) w = trie_freq w (trie_of words).
Proof.
  unfold read_freq, trie_freq.
  assert (H0 : order_of words !! 0%nat = Some (trie_of words)).
  { destruct (order_of_head words) as [rest ->]. reflexivity. }
  pose proof (read_node_find w 0%nat _ H0) as H.
  destruct (find_node w (trie_of words)) as [x|].
  - destruct H as (j & -> & Hj). simpl. f_equal.
    now destruct (file_of_record _ _ Hj) as (_ & -> & _).
  - now rewrite H.
Qed.

End Lookup.

Lemma compile_inv (words : list (list Z * Z)) (out : list Z) (e : option exn) :
  compile words = Returned (out, e) ->
  out = file_of words /\ e = snd (write_bin (order_of words) (store_of words)).
Proof.
  unfold compile. intros H.
  destruct (build_trie words) as [[nodes st]| |] eqn:Hb; try discriminate.
  apply build_trie_inv in Hb as (-> & -> & _).
  unfold file_of, output.
  destruct (write_bin (order_of words) (store_of words)) as [o x].
  now inversion H.
Qed.

(** A reader that walks the file from record 0, to the first_child offset
    for each character and along the next_sibling offsets to the record of
    that char, ends where the same word ends in the trie: it finds a record
    exactly when the trie has a node for the word, and the frequency byte of
    the record is the frequency of the node. *)
Theorem file_lookup_agrees_with_trie (words : list (list Z * Z)) (out : list Z) :
  compile words = Returned (out, None) ->
  forall w, read_freq out w = trie_freq w (trie_of words).
Proof.
  intros H w. apply compile_inv in H as [-> H].
  now apply read_freq_trie_freq.
Qed.

Lemma cat_car_can_compile :
  compile cat_car_can = Returned (file_of cat_car_can, None).
Proof. vm_compute. reflexivity. Qed.

Lemma file_lookup_agrees_with_trie_witness :
  read_freq (file_of cat_car_can) [99; 97; 114] =
  trie_freq [99; 97; 114] (trie_of cat_car_can).
Proof.
  apply (file_lookup_agrees_with_trie cat_car_can (file_of cat_car_can)
           cat_car_can_compile [99; 97; 114]).
Defined.

(** Round trip of a table through the file: when the compilation of a table
    succeeds, the reader finds every key with its frequency; a word that
    is not a key is found with frequency 0 when it is empty or a prefix of a
    key, and is not found otherwise.  So the words the reader finds with a
    frequency other than 0 are exactly the keys of the table that have such
    a frequency, with that frequency; a key of frequency 0 reads like a
    prefix that is no key. *)
Theorem file_holds_table (words : list (list Z * Z)) (out : list Z) :
  NoDup (map fst words) ->
  compile words = Returned (out, None) ->
  (forall w,
     read_freq out w =
     match dict_get w words with
     | Some f => Some f
     | None =>
         match w with
         | [] => Some 0
         | _ => if existsb (is_prefix w) (map fst words) then Some 0 else None
         end
     end) /\
  (forall w f, f <> 0 -> (read_freq out w = Some f <-> In (w, f) words)).
Proof.
  intros Hnd H. apply compile_inv in H as [-> H].
  assert (Hall : forall w,
            read_freq (file_of words) w =
            match dict_get w words with
            | Some f => Some f
            | None =>
                match w with
                | [] => Some 0
                | _ => if existsb (is_prefix w) (map fst words) then Some 0 else None
                end
            end).
  { intros w. rewrite (read_freq_trie_freq words (eq_sym H)).
    unfold trie_of. rewrite trie_freq_insert_all by exact Hnd.
    destruct (dict_get w words); [reflexivity|].
    unfold root_node. rewrite trie_freq_new. now destruct w. }
  split; [exact Hall|].
  intros w f Hf. rewrite Hall, <- (dict_get_Some w f words Hnd).
  destruct (dict_get w words) as [q|]; [reflexivity|].
  split; [|discriminate].
  destruct w; [congruence|].
  destruct (existsb _ _); congruence.
Qed.

Lemma file_holds_table_witness :
  (forall w,
     read_freq (file_of cat_car_can) w =
     match dict_get w cat_car_can with
     | Some f => Some f
     | None =>
         match w with
         | [] => Some 0
         | _ => if existsb (is_prefix w) (map fst cat_car_can) then Some 0 else None
         end
     end) /\
  (forall w f, f <> 0 ->
     (read_freq (file_of cat_car_can) w = Some f <-> In (w, f) cat_car_can)).
Proof.
  apply (file_holds_table cat_car_can (file_of cat_car_can)).
  - exact cat_car_can_keys_NoDup.
  - exact cat_car_can_compile.
Defined.

(** ** The children of a node are laid out together *)

(** What is in the queue is dequeued first, in the order of the queue. *)
Lemma bfs_order_prefix (fuel : nat) :
  forall queue, (total_count queue <= fuel)%nat ->
    exists rest, bfs_order fuel queue = queue ++ rest.
Proof.
  induction fuel as [|fuel IH]; intros [|node queue] Hf; try (exists []; reflexivity).
  - rewrite total_count_cons, node_count_unfold in Hf. lia.
  - cbn [bfs_order].
    destruct (IH (queue ++ sorted_by_char (children node))) as [rest E].
    + rewrite total_count_app, (total_count_perm _ _ (sorted_by_char_perm _)).
      rewrite total_count_cons, node_count_unfold in Hf. lia.
    + rewrite E. exists (sorted_by_char (children node) ++ rest).
      now rewrite <- app_assoc.
Qed.

(** The sorted children of a dequeued node are dequeued one after the other,
    after the node. *)
Lemma bfs_order_block (fuel : nat) :
  forall queue n, (total_count queue <= fuel)%nat ->
    In n (bfs_order fuel queue) ->
    exists l1 l2 l3,
      bfs_order fuel queue = l1 ++ n :: l2 ++ sorted_by_char (children n) ++ l3.
Proof.
  induction fuel as [|fuel IH]; intros [|node queue] n Hf Hin; try contradiction.
  cbn [bfs_order] in *.
  assert (Hf' : (total_count (queue ++ sorted_by_char (children node)) <= fuel)%nat).
  { rewrite total_count_app, (total_count_perm _ _ (sorted_by_char_perm _)).
    rewrite total_count_cons, node_count_unfold in Hf. lia. }
  destruct Hin as [->|Hin].
  - destruct (bfs_order_prefix fuel _ Hf') as [rest E].
    exists [], queue, rest. rewrite E. simpl. now rewrite <- app_assoc.
  - destruct (IH _ n Hf' Hin) as (l1 & l2 & l3 & E).
    exists (node :: l1), l2, l3. now rewrite E.
Qed.

Lemma order_of_lookup_inj (words : list (list Z * Z)) (i j : nat) (n : TrieNode) :
  order_of words !! i = Some n -> order_of words !! j = Some n -> i = j.
Proof.
  apply NoDup_lookup. apply (NoDup_fmap_1 path). apply order_of_NoDup.
Qed.

Lemma order_of_children_block (words : list (list Z * Z)) (k : nat) (node : TrieNode) :
  order_of words !! k = Some node ->
  exists j, (k < j)%nat /\
    forall i c, sorted_by_char (children node) !! i = Some c ->
      order_of words !! (j + i)%nat = Some c.
Proof.
  intros Hk.
  assert (Hin : In node (order_of words)).
  { apply list_elem_of_In. eapply list_elem_of_lookup_2; eauto. }
  destruct (bfs_order_block (node_count (trie_of words)) [trie_of words] node)
    as (l1 & l2 & l3 & E).
  { rewrite total_count_singleton. lia. }
  { exact Hin. }
  fold (order_of words) in E.
  assert (Hl1 : k = length l1).
  { apply (order_of_lookup_inj words k (length l1) node Hk).
    rewrite E. rewrite lookup_app_r by lia. now rewrite Nat.sub_diag. }
  exists (length (l1 ++ node :: l2)). split.
  - rewrite length_app. simpl. lia.
  - intros i c Hi. rewrite E.
    replace (l1 ++ node :: l2 ++ sorted_by_char (children node) ++ l3)
      with ((l1 ++ node :: l2) ++ sorted_by_char (children node) ++ l3)
      by (now rewrite <- app_assoc).
    rewrite lookup_app_r by lia.
    replace (length (l1 ++ node :: l2) + i - length (l1 ++ node :: l2))%nat with i by lia.
    now apply lookup_app_l_Some.
Qed.

(** The children of a node are consecutive in the list [build_trie]
    returns, in ascending order of their chars, somewhere after the node:
    they are at the indices [j], [j + 1], ... for some [j > k], and at the
    offsets [10 j], [10 (j + 1)], ... *)
Theorem children_are_contiguous (words : list (list Z * Z)) (nodes : list TrieNode)
    (st : Store) :
  build_trie words = Returned (nodes, st) ->
  forall k node,
    nodes !! k = Some node ->
    exists j, (k < j)%nat /\
      forall i c, sorted_by_char (children node) !! i = Some c ->
        nodes !! (j + i)%nat = Some c /\
        offset_of st (path c) = 10 * Z.of_nat (j + i).
Proof.
  intros Hb k node Hk. apply build_trie_inv in Hb as (-> & -> & _).
  destruct (order_of_children_block words k node Hk) as (j & Hj & Hblock).
  exists j. split; [exact Hj|]. intros i c Hi.
  pose proof (Hblock i c Hi) as Hc. split; [exact Hc|].
  now apply store_of_offset.
Qed.

Lemma children_are_contiguous_witness :
  exists j, (2 < j)%nat /\
    forall i c, sorted_by_char (children node_a) !! i = Some c ->
      order_of cat_car_can !! (j + i)%nat = Some c /\
      offset_of (store_of cat_car_can) (path c) = 10 * Z.of_nat (j + i).
Proof.
  apply (children_are_contiguous cat_car_can (order_of cat_car_can)
           (store_of cat_car_can) cat_car_can_builds 2%nat node_a).
  vm_compute. reflexivity.
Defined.

(** In the file, no link points backwards: the first_child field of a record
    is 0 or an offset after the record, and the next_sibling field is 0 or
    the offset of the next record; both stay inside the file that a
    successful [write_bin] produces. *)
Theorem links_point_forward (words : list (list Z * Z)) (nodes : list TrieNode)
    (st : Store) :
  build_trie words = Returned (nodes, st) ->
  forall k node,
    nodes !! k = Some node ->
    record_written (output nodes st) k ->
    (rec_first_child (output nodes st) k = 0 \/
     10 * Z.of_nat k < rec_first_child (output nodes st) k < 10 * Z.of_nat (length nodes)) /\
    (rec_next_sibling (output nodes st) k = 0 \/
     rec_next_sibling (output nodes st) k = 10 * (Z.of_nat k + 1) /\
     (k + 1 < length nodes)%nat).
Proof.
  intros Hb k node Hk Hwr. apply build_trie_inv in Hb as (-> & -> & _).
  assert (Hin : In node (order_of words)).
  { apply list_elem_of_In. eapply list_elem_of_lookup_2; eauto. }
  destruct (written_record_fields _ _ _ _ Hk Hwr) as (_ & _ & _ & -> & ->).
  split.
  - rewrite (store_of_first_child_offset _ _ Hin).
    destruct (sorted_by_char (children node)) as [|c0 cs] eqn:E; [now left|right].
    destruct (order_of_children_block words k node Hk) as (j & Hj & Hblock).
    assert (Hc0 : order_of words !! (j + 0)%nat = Some c0).
    { apply Hblock. now rewrite E. }
    rewrite (store_of_offset _ _ _ Hc0). apply lookup_lt_Some in Hc0. lia.
  - unfold next_sibling_offset.
    destruct (st_next_sibling (store_of words) !! path node) as [y|] eqn:Hy;
      [right|now left].
    unfold store_of in Hy.
    apply layout_next_sibling in Hy as [Hy|(n & l1 & a & b & l2 & Hn & E & Ha & Hb)].
    { simpl in Hy. now rewrite lookup_empty in Hy. }
    assert (Ha_in : In a (order_of words)).
    { apply (order_of_children_closed words n a Hn).
      apply list_elem_of_In. rewrite <- (sorted_by_char_perm (children n)), E.
      apply elem_of_app. right. apply elem_of_cons. now left. }
    assert (Ea : a = node).
    { apply (NoDup_path_inj (order_of words)); auto using order_of_NoDup. }
    subst a. subst y.
    apply list_elem_of_In, list_elem_of_lookup in Hn as [kn Hkn].
    destruct (order_of_children_block words kn n Hkn) as (j & Hj & Hblock).
    assert (Hnode : order_of words !! (j + length l1)%nat = Some node).
    { apply Hblock. rewrite E. rewrite lookup_app_r by lia.
      now rewrite Nat.sub_diag. }
    assert (Hnext : order_of words !! (j + S (length l1))%nat = Some b).
    { apply Hblock. rewrite E. rewrite lookup_app_r by lia.
      now replace (S (length l1) - length l1)%nat with 1%nat by lia. }
    pose proof (order_of_lookup_inj words _ _ _ Hk Hnode) as ->.
    rewrite (store_of_offset _ _ _ Hnext). apply lookup_lt_Some in Hnext. lia.
Qed.

Lemma links_point_forward_witness :
  (rec_first_child (output (order_of cat_car_can) (store_of cat_car_can)) 3 = 0 \/
   10 * Z.of_nat 3 <
     rec_first_child (output (order_of cat_car_can) (store_of cat_car_can)) 3 <
     10 * Z.of_nat (length (order_of cat_car_can))) /\
  (rec_next_sibling (output (order_of cat_car_can) (store_of cat_car_can)) 3 = 0 \/
   rec_next_sibling (output (order_of cat_car_can) (store_of cat_car_can)) 3 =
     10 * (Z.of_nat 3 + 1) /\
   (3 + 1 < length (order_of cat_car_can))%nat).
Proof.
  apply (links_point_forward cat_car_can (order_of cat_car_can)
           (store_of cat_car_can) cat_car_can_builds 3%nat node_n).
  - vm_compute. reflexivity.
  - vm_compute. repeat constructor.
Defined.

(** ** One node per prefix *)

Lemma elem_of_prefixes (w p : list Z) : p ∈ prefixes w <-> is_prefix p w = true.
Proof.
  revert p. induction w as [|c w IH]; intros p.
  - simpl. rewrite list_elem_of_singleton. destruct p; simpl; split; congruence.
  - cbn [prefixes]. rewrite elem_of_cons, list_elem_of_fmap. destruct p as [|a p]; simpl.
    + split; auto.
    + rewrite andb_true_iff, Z.eqb_eq, <- IH. split.
      * intros [E|(y & E & Hy)]; [discriminate|]. injection E as -> ->. auto.
      * intros [-> Hp]. right. eauto.
Qed.

Lemma find_node_insert (f : Z) (p word : list Z) (t : TrieNode) :
  is_Some (find_node p (insert word f t)) <->
  is_Some (find_node p t) \/ is_prefix p word = true.
Proof.
  rewrite <- !(fmap_is_Some freq).
  change (freq <$> find_node p (insert word f t)) with (trie_freq p (insert word f t)).
  change (freq <$> find_node p t) with (trie_freq p t).
  destruct (decide (p = word)) as [->|Hne].
  - rewrite trie_freq_insert_same, is_prefix_refl. split; eauto.
  - rewrite trie_freq_insert_other by exact Hne.
    destruct (trie_freq p t) as [q|]; [split; eauto|].
    destruct (is_prefix p word); split; eauto.
    intros [[? ?]|?]; discriminate.
Qed.

Lemma find_node_insert_all (p : list Z) (words : list (list Z * Z)) :
  forall t,
    is_Some (find_node p (insert_all words t)) <->
    is_Some (find_node p t) \/ exists wf, In wf words /\ is_prefix p (fst wf) = true.
Proof.
  induction words as [|[w f] words IH]; intros t.
  - simpl. split; [auto|]. intros [H|(wf & [] & _)]. exact H.
  - cbn [insert_all fold_left fst snd].
    change (fold_left _ words ?x) with (insert_all words x).
    rewrite IH, find_node_insert. split.
    + intros [[H|H]|(wf & Hin & H)]; [now left|right|right].
      * exists (w, f). split; [now left|exact H].
      * exists wf. split; [now right|exact H].
    + intros [H|(wf & [<-|Hin] & H)]; [now left; left|now left; right|right; eauto].
Qed.

Lemma subnodes_child (t y x : TrieNode) :
  In y (children t) -> In x (subnodes y) -> In x (subnodes t).
Proof.
  intros Hy Hx. rewrite (subnodes_unfold t). right. unfold descendants.
  apply in_concat. exists (subnodes y). split; [now apply in_map|exact Hx].
Qed.

(** In a well-named trie, a word leads to the node whose path is this word. *)
Lemma find_node_path :
  forall w p0 t x,
    well_named p0 t -> find_node w t = Some x ->
    In x (subnodes t) /\ path x = p0 ++ w.
Proof.
  induction w as [|c w IH]; intros p0 t x Hwn H.
  - injection H as <-. split; [apply subnodes_self|].
    apply well_named_unfold in Hwn as (-> & _). now rewrite app_nil_r.
  - cbn [find_node] in H.
    destruct (get_child c (children t)) as [y|] eqn:Hy; [|discriminate].
    apply get_child_Some in Hy as [Hin <-].
    pose proof Hwn as Hwn'. apply well_named_unfold in Hwn' as (_ & _ & Hall).
    rewrite Forall_forall in Hall.
    destruct (IH _ y x (Hall y (proj2 (list_elem_of_In _ _) Hin)) H) as [Hx Hp].
    split.
    + now apply (subnodes_child t y).
    + rewrite Hp. now rewrite <- app_assoc.
Qed.

(** And every node is reached by the word its path spells. *)
Lemma subnodes_find_node (t : TrieNode) :
  forall p0 x,
    well_named p0 t -> In x (subnodes t) ->
    exists w, path x = p0 ++ w /\ find_node w t = Some x.
Proof.
  induction t as [p ch f cs IH] using TrieNode_ind'. intros p0 x Hwn Hx.
  pose proof Hwn as Hwn'. apply well_named_unfold in Hwn' as (Hp & Hnd & Hall).
  cbn [path children] in *.
  rewrite subnodes_unfold in Hx. destruct Hx as [<-|Hx].
  - exists []. split; [now rewrite app_nil_r|reflexivity].
  - unfold descendants in Hx. cbn [children] in Hx.
    apply in_concat in Hx as (l & Hl & Hx).
    apply in_map_iff in Hl as (y & <- & Hy).
    rewrite Forall_forall in IH, Hall.
    destruct (IH y (proj2 (list_elem_of_In _ _) Hy) (p0 ++ [char y]) x) as (w & Ew & Hw);
      [now apply Hall, list_elem_of_In|exact Hx|].
    exists (char y :: w). split; [now rewrite Ew, <- app_assoc|].
    cbn [find_node children]. now rewrite (get_child_In cs y Hnd Hy).
Qed.

Lemma trie_of_paths (words : list (list Z * Z)) (p : list Z) :
  p ∈ map path (subnodes (trie_of words)) <-> p ∈ prefix_set words.
Proof.
  unfold prefix_set. rewrite elem_of_list_to_set, elem_of_cons.
  pose proof (trie_of_well_named words) as Hwn.
  assert (Hfind : p ∈ map path (subnodes (trie_of words)) <->
                  is_Some (find_node p (trie_of words))).
  { rewrite list_elem_of_fmap. split.
    - intros (x & -> & Hx). apply list_elem_of_In in Hx.
      destruct (subnodes_find_node _ [] x Hwn Hx) as (w & -> & Hw). simpl. eauto.
    - intros [x Hx]. destruct (find_node_path p [] _ x Hwn Hx) as [Hin Hp].
      exists x. split; [now rewrite Hp|now apply list_elem_of_In]. }
  rewrite Hfind. unfold trie_of. rewrite find_node_insert_all. split.
  - intros [H|(wf & Hin & H)].
    + left. destruct p; [reflexivity|]. destruct H as [? H]. discriminate.
    + right. apply list_elem_of_In, in_concat. exists (prefixes (fst wf)).
      split; [now apply (in_map (fun wf => prefixes (fst wf)))|].
      now apply list_elem_of_In, elem_of_prefixes.
  - intros [->|H]; [left; simpl; eauto|right].
    apply list_elem_of_In, in_concat in H as (l & Hl & H).
    apply in_map_iff in Hl as (wf & <- & Hwf).
    exists wf. split; [exact Hwf|]. now apply elem_of_prefixes, list_elem_of_In.
Qed.

(** The trie has exactly one node for each distinct prefix of a key, the
    empty prefix (the root) and the keys themselves included: the paths of
    its nodes are these prefixes, and their number is the number of nodes
    that [build_trie] lays out, 10 bytes each. *)
Theorem one_node_per_prefix (words : list (list Z * Z)) :
  (forall p, (exists n, In n (subnodes (trie_of words)) /\ path n = p) <->
             p ∈ prefix_set words) /\
  NoDup (map path (subnodes (trie_of words))) /\
  node_count (trie_of words) = size (prefix_set words).
Proof.
  split; [|split].
  - intros p. rewrite <- trie_of_paths, list_elem_of_fmap. split.
    + intros (n & Hn & <-). exists n. split; [reflexivity|now apply list_elem_of_In].
    + intros (n & -> & Hn). exists n. split; [now apply list_elem_of_In|reflexivity].
  - apply (well_named_NoDup _ []), trie_of_well_named.
  - rewrite node_count_subnodes, <- (length_map path).
    rewrite <- (size_list_to_set (C := gset (list Z)))
      by (apply (well_named_NoDup _ []), trie_of_well_named).
    f_equal. apply set_eq. intros p.
    rewrite elem_of_list_to_set. apply trie_of_paths.
Qed.

(** ** Lines the parser passes over, lines it refuses, and its keys *)

Lemma parse_line_skipped (rt : Runtime) (raw : list Z) (ws : list (list Z * Z))
    (count : Z) :
  is_skipped raw = true -> parse_line rt raw ws count = Returned (ws, count).
Proof.
  unfold is_skipped, parse_line. destruct (strip raw) as [|c line]; [reflexivity|].
  now intros ->.
Qed.

Lemma parse_loop_capped (rt : Runtime) (max_words : Z) (lines : list (list Z))
    (ws : list (list Z * Z)) (count : Z) :
  max_words <= count -> parse_loop rt max_words lines ws count = Returned ws.
Proof.
  intros H. destruct lines as [|raw rest]; [reflexivity|]. simpl.
  destruct (Z.geb_spec count max_words); [reflexivity|lia].
Qed.

(** Blank lines and comment lines do not count: removing them from the file
    changes neither the table [parse_words] returns nor the exception it
    raises, whatever [max_words]. *)
Theorem parse_words_ignores_skipped_lines (rt : Runtime) (lines : list (list Z))
    (max_words : Z) :
  parse_words rt (List.filter (fun raw => negb (is_skipped raw)) lines) max_words =
  parse_words rt lines max_words.
Proof.
  unfold parse_words. generalize (@nil (list Z * Z)) 0.
  induction lines as [|raw rest IH]; intros ws count; [reflexivity|].
  cbn [List.filter]. destruct (is_skipped raw) eqn:Hs; cbn [negb].
  - cbn [parse_loop]. rewrite (parse_line_skipped _ _ _ _ Hs).
    destruct (Z.geb_spec count max_words) as [Hge|Hlt]; [|apply IH].
    now apply parse_loop_capped.
  - cbn [parse_loop]. destruct (count >=? max_words); [reflexivity|].
    destruct (parse_line rt raw ws count) as [[ws' count']| |]; auto.
Qed.

Lemma split_from_nil (s : list Z) :
  forall tok, split_from s tok = [] ->
    tok = [] /\ Forall (fun c => is_space c = true) s.
Proof.
  induction s as [|c s IH]; intros tok; simpl.
  - destruct tok; [auto|discriminate].
  - destruct (is_space c) eqn:Hc.
    + destruct tok; [|discriminate]. intros H. destruct (IH _ H). auto.
    + intros H. destruct (IH _ H) as [E _]. now destruct tok.
Qed.

Lemma is_space_replaced (c : Z) :
  is_space (if (if c =? TAB then SPACE else c) =? COMMA then SPACE
            else (if c =? TAB then SPACE else c)) = true <->
  c = COMMA \/ is_space c = true.
Proof.
  destruct (Z.eqb_spec c TAB) as [->|Ht]; [simpl; split; auto|].
  destruct (Z.eqb_spec c COMMA) as [->|Hc]; [simpl; split; auto|].
  split; [auto|]. now intros [?|?].
Qed.

Lemma tokens_nil (line : list Z) :
  tokens line = [] <-> Forall (fun c => c = COMMA \/ is_space c = true) line.
Proof.
  unfold tokens, split, replace_char. rewrite map_map. split.
  - intros H. apply split_from_nil in H as [_ H].
    apply Forall_map in H. eapply Forall_impl; [exact H|].
    intros c Hc. now apply is_space_replaced.
  - intros H. apply split_from_spaces, Forall_map.
    eapply Forall_impl; [exact H|]. intros c Hc. now apply is_space_replaced.
Qed.

Lemma line_freq_not_IndexError (rt : Runtime) (parts : list (list Z)) (count : Z) :
  line_freq rt parts count <> Raised IndexError /\
  line_freq rt parts count <> Exhausted.
Proof.
  unfold line_freq. destruct parts as [|w [|tok rest]]; try (split; discriminate).
  destruct (str_isdigit rt tok); [|split; discriminate].
  destruct (py_int rt tok); split; discriminate.
Qed.

(** The loop body raises [IndexError] on exactly the lines that are not
    empty once stripped and hold nothing but commas and white space. *)
Theorem parse_line_IndexError_iff (rt : Runtime) (raw : list Z)
    (ws : list (list Z * Z)) (count : Z) :
  parse_line rt raw ws count = Raised IndexError <->
  strip raw <> [] /\
  Forall (fun c => c = COMMA \/ is_space c = true) (strip raw).
Proof.
  unfold parse_line. destruct (strip raw) as [|c line] eqn:Hs.
  - split; [discriminate|]. now intros [H _].
  - rewrite <- tokens_nil. split.
    + destruct (c =? HASH); [discriminate|].
      destruct (tokens (c :: line)) as [|word rest]; [intros _; split; auto; discriminate|].
      pose proof (line_freq_not_IndexError rt (word :: rest) count) as [H1 H2].
      destruct (line_freq rt (word :: rest) count) as [v|e|]; try discriminate.
      intros [= ->]. congruence.
    + intros [_ Ht]. pose proof Ht as Hall. apply tokens_nil in Hall.
      inversion Hall as [|? ? Hc _]; subst.
      destruct (Z.eqb_spec c HASH) as [->|_]; [|now rewrite Ht].
      destruct Hc as [Hc|Hc]; discriminate.
Qed.

Lemma split_from_chars (Q : Z -> Prop) (s : list Z) :
  forall tok,
    Forall Q s -> Forall (fun c => is_space c = false /\ Q c) tok ->
    Forall (Forall (fun c => is_space c = false /\ Q c)) (split_from s tok).
Proof.
  induction s as [|c s IH]; intros tok Hs Htok; simpl.
  - destruct tok; [constructor|]. constructor; [exact Htok|constructor].
  - inversion Hs as [|? ? Hc Hs']; subst.
    destruct (is_space c) eqn:E.
    + destruct tok; [apply IH; auto|]. constructor; [exact Htok|apply IH; auto].
    + apply IH; [exact Hs'|]. apply Forall_app. split; [exact Htok|].
      repeat constructor; auto.
Qed.

Lemma tokens_chars (line : list Z) :
  Forall (Forall (fun c => is_space c = false /\ c <> COMMA)) (tokens line).
Proof.
  unfold tokens, split. apply split_from_chars; [|constructor].
  unfold replace_char. rewrite map_map. apply Forall_map, Forall_forall.
  intros c _. destruct (Z.eqb_spec c TAB); [discriminate|].
  destruct (Z.eqb_spec c COMMA); [discriminate|assumption].
Qed.

Lemma parse_loop_keys (P : list Z -> Prop) (rt : Runtime) (max_words : Z) :
  (forall line, Forall P (tokens line)) ->
  forall lines ws count words,
    Forall P (map fst ws) ->
    parse_loop rt max_words lines ws count = Returned words ->
    Forall P (map fst words).
Proof.
  intros HP. induction lines as [|raw rest IH]; simpl; intros ws count words Hws H.
  - now injection H as <-.
  - destruct (count >=? max_words); [now injection H as <-|].
    destruct (parse_line rt raw ws count) as [[ws' count']| |] eqn:Hl; try discriminate.
    eapply IH; [|exact H].
    apply parse_line_cases in Hl as [[-> ->]|(word & tl & v & Ht & _ & -> & ->)];
      [exact Hws|].
    apply dict_set_keys_Forall; [|exact Hws].
    pose proof (HP (strip raw)) as Hall. rewrite Ht in Hall. now inversion Hall.
Qed.

(** No key of a table [parse_words] returns holds a comma or a white-space
    character (a tab, a space, a line end, a no-break space, ...). *)
Theorem parse_words_keys_clean (rt : Runtime) (lines : list (list Z))
    (max_words : Z) (words : list (list Z * Z)) :
  parse_words rt lines max_words = Returned words ->
  Forall (fun wf => Forall (fun c => is_space c = false /\ c <> COMMA) (fst wf)) words.
Proof.
  intros H.
  apply (parse_loop_keys (Forall (fun c => is_space c = false /\ c <> COMMA)))
    in H; [|apply tokens_chars|constructor].
  exact (proj1 (Forall_map _ _ _) H).
Qed.

Lemma parse_words_keys_clean_witness :
  Forall (fun wf => Forall (fun c => is_space c = false /\ c <> COMMA) (fst wf))
    cat_car_can.
Proof.
  apply (parse_words_keys_clean ascii_runtime cat_car_can_lines 50000).
  reflexivity.
Defined.

(** ** The fields of the records *)

(** [_uint24] returns the three bytes of a value in [0, 0xFFFFFF], most
    significant first, and raises on any other value. *)
Theorem uint24_big_endian (v : Z) :
  match _uint24 v with
  | Some bs =>
      0 <= v <= MAX_OFFSET /\
      exists b1 b2 b3,
        bs = [b1; b2; b3] /\
        0 <= b1 <= 255 /\ 0 <= b2 <= 255 /\ 0 <= b3 <= 255 /\
        b1 * 65536 + b2 * 256 + b3 = v
  | None => v < 0 \/ MAX_OFFSET < v
  end.
Proof.
  destruct (offset_in_range_dec v) as [H|H].
  - rewrite (uint24_Some _ H). split; [exact H|].
    eexists _, _, _. split; [reflexivity|].
    assert (Hb : forall x, 0 <= Z.land x 0xFF <= 255).
    { intros x. pose proof (Z.land_ones x 8 ltac:(lia)) as E.
      change (Z.ones 8) with 255 in E. change (2 ^ 8) with 256 in E.
      rewrite E. pose proof (Z.mod_pos_bound x 256). lia. }
    repeat split; try apply Hb. now apply be24_decode.
  - rewrite (uint24_None _ H). unfold offset_in_range in H. lia.
Qed.

(** Whatever the nodes and their fields, a record that [write_bin] wrote in
    full reads back as the node of its index: its char, its frequency, the
    offset of its first child and of its next sibling (0 for none), and a
    last byte 0; char and frequency were then in the range of their
    fields. *)
Theorem record_round_trip (st : Store) (nodes : list TrieNode) (k : nat)
    (node : TrieNode) :
  nodes !! k = Some node ->
  record_written (output nodes st) k ->
  rec_char (output nodes st) k = char node /\
  rec_freq (output nodes st) k = freq node /\
  rec_first_child (output nodes st) k = first_child_offset st node /\
  rec_next_sibling (output nodes st) k = next_sibling_offset st node /\
  byte_at (output nodes st) (10 * k + 9) = 0 /\
  0 <= char node <= 0xFFFF /\ 0 <= freq node <= 0xFF.
Proof.
  intros Hk Hwr.
  destruct (written_record_fields _ _ _ _ Hk Hwr) as ((Hc & Hf & _) & H1 & H2 & H3 & H4).
  repeat split; try assumption; try lia.
  destruct (output_shape st nodes) as (done & partial & E & Hlen & Hd & [rest ->] & _).
  rewrite E in *.
  unfold record_written in Hwr. rewrite length_app, records_length in Hwr.
  assert (Hkd : (k < length done)%nat) by lia.
  rewrite lookup_app_l in Hk by exact Hkd.
  unfold byte_at. rewrite app_nth1 by (rewrite records_length; lia).
  change (nth (10 * k + 9) (concat (map (record st) done)) 0)
    with (byte_at (concat (map (record st) done)) (10 * k + 9)).
  rewrite (byte_at_records st done k node 9 Hk) by lia. reflexivity.
Qed.

Lemma record_round_trip_witness :
  rec_char (output (order_of cat_car_can) (store_of cat_car_can)) 3 = char node_n /\
  rec_freq (output (order_of cat_car_can) (store_of cat_car_can)) 3 = freq node_n /\
  rec_first_child (output (order_of cat_car_can) (store_of cat_car_can)) 3 =
    first_child_offset (store_of cat_car_can) node_n /\
  rec_next_sibling (output (order_of cat_car_can) (store_of cat_car_can)) 3 =
    next_sibling_offset (store_of cat_car_can) node_n /\
  byte_at (output (order_of cat_car_can) (store_of cat_car_can)) (10 * 3 + 9) = 0 /\
  0 <= char node_n <= 0xFFFF /\ 0 <= freq node_n <= 0xFF.
Proof.
  apply (record_round_trip (store_of cat_car_can) (order_of cat_car_can) 3 node_n).
  - reflexivity.
  - vm_compute. repeat constructor.
Defined.

(** ** compile_language *)

Lemma parse_loop_keys_NoDup (rt : Runtime) (max_words : Z) :
  forall lines ws count words,
    NoDup (map fst ws) ->
    parse_loop rt max_words lines ws count = Returned words ->
    NoDup (map fst words).
Proof.
  induction lines as [|raw rest IH]; simpl; intros ws count words Hws H.
  - now injection H as <-.
  - destruct (count >=? max_words); [now injection H as <-|].
    destruct (parse_line rt raw ws count) as [[ws' count']| |] eqn:Hl; try discriminate.
    eapply IH; [|exact H].
    apply parse_line_cases in Hl as [[-> ->]|(word & tl & v & _ & _ & -> & ->)];
      [exact Hws|].
    now apply dict_set_keys_NoDup.
Qed.

Lemma order_of_word_char (words : list (list Z * Z)) (w : list Z) (f c : Z) :
  In (w, f) words -> In c w -> exists n, n ∈ order_of words /\ char n = c.
Proof.
  intros Hw Hc.
  pose proof (trie_of_word_chars words w f c Hw Hc) as Hin.
  apply in_map_iff in Hin as (n & En & Hn). exists n. split; [|exact En].
  rewrite (order_of_perm words), subnodes_unfold.
  apply elem_of_cons. right. now apply list_elem_of_In.
Qed.

(** On a word list that [parse_words] accepts, [compile_language] ends in
    one of three ways, N being the number of nodes of the trie of the table:
    - 10 (N - 1) exceeds 0xFFFFFF: [build_trie] raises [ValueError] and the
      output file is not opened;
    - otherwise, and every character of every key is at most 0xFFFF: the
      call returns, the file holds 10 N bytes, and a reader finds every key
      in it with the frequency of the table;
    - otherwise: [write_bin] raises [struct.error], and the file is left
      with the records of the nodes before the first one whose char does
      not fit, a whole number of records, fewer than N.
    The frequency field and the offset fields never make it fail. *)
Theorem compile_language_outcome (rt : Runtime) (lines : list (list Z))
    (words : list (list Z * Z)) :
  parse_words rt lines DEFAULT_MAX_WORDS = Returned words ->
  (MAX_OFFSET < 10 * (Z.of_nat (node_count (trie_of words)) - 1) /\
   compile_language rt (Some lines) = Failed (Inner ValueError) None) \/
  (10 * (Z.of_nat (node_count (trie_of words)) - 1) <= MAX_OFFSET /\
   chars_in_range words /\
   exists out,
     compile_language rt (Some lines) = Compiled out /\
     length out = (10 * node_count (trie_of words))%nat /\
     forall w f, In (w, f) words -> read_freq out w = Some f) \/
  (10 * (Z.of_nat (node_count (trie_of words)) - 1) <= MAX_OFFSET /\
   ~ chars_in_range words /\
   exists partial m,
     compile_language rt (Some lines) = Failed (Inner StructError) (Some partial) /\
     length partial = (10 * m)%nat /\
     (m < node_count (trie_of words))%nat).
Proof.
  intros Hp. unfold compile_language. rewrite Hp.
  assert (Hnd : NoDup (map fst words)).
  { eapply parse_loop_keys_NoDup; [|exact Hp]. constructor. }
  assert (Hfr : freqs_in_range words).
  { eapply parse_loop_in_range; [|exact Hp]. constructor. }
  destruct (Z_le_dec (10 * (Z.of_nat (node_count (trie_of words)) - 1)) MAX_OFFSET)
    as [Hfit|Hbig].
  2:{ left. split; [lia|]. rewrite build_trie_raises by lia. reflexivity. }
  right. rewrite (build_trie_returns _ Hfit).
  pose proof (trie_of_freqs_in_range words Hfr) as Hfreq.
  rewrite <- (order_of_perm words) in Hfreq. rewrite Forall_forall in Hfreq.
  destruct (all_encodable_or_not (store_of words) (order_of words)) as [Hall|Hex].
  - left. split; [exact Hfit|].
    assert (Hch : chars_in_range words).
    { unfold chars_in_range. apply Forall_forall. intros [w f] Hw.
      apply Forall_forall. intros c Hc. cbn [fst] in Hc.
      apply list_elem_of_In in Hw, Hc.
      destruct (order_of_word_char words w f c Hw Hc) as (n & Hn & <-).
      rewrite Forall_forall in Hall. now destruct (Hall n Hn) as (? & _). }
    split; [exact Hch|].
    assert (Hw : write_bin (order_of words) (store_of words) =
                 (concat (map (record (store_of words)) (order_of words)), None)).
    { unfold write_bin. now rewrite write_loop_encodable. }
    rewrite Hw. eexists. split; [reflexivity|].
    split; [now rewrite records_length, order_of_length|].
    intros w f Hin.
    assert (Hok : snd (write_bin (order_of words) (store_of words)) = None)
      by now rewrite Hw.
    assert (Eo : concat (map (record (store_of words)) (order_of words)) = file_of words).
    { unfold file_of, output. now rewrite Hw. }
    rewrite Eo, (read_freq_trie_freq words Hok).
    unfold trie_of. rewrite trie_freq_insert_all by exact Hnd.
    now rewrite (proj2 (dict_get_Some w f words Hnd) Hin).
  - right. split; [exact Hfit|].
    split.
    { intros Hch. apply Exists_exists in Hex as (n & Hn & Hne). apply Hne.
      pose proof (trie_of_fields_in_range words Hch Hfr) as Hfields.
      rewrite <- (order_of_perm words) in Hfields. rewrite Forall_forall in Hfields.
      destruct (Hfields n Hn). now apply order_of_encodable. }
    destruct (first_not_encodable _ _ Hex) as (done & node & rest & E & Hd & Hnode).
    assert (Hin : node ∈ order_of words).
    { rewrite E. apply elem_of_app. right. apply elem_of_cons. now left. }
    destruct (write_node_not_encodable (store_of words) node
                (concat (map (record (store_of words)) done)) Hnode)
      as (e & partial & Hwn & Hm).
    assert (Hcase : e = StructError /\ partial = []).
    { destruct (pack_H (char node)) as [b|] eqn:Eh; [exfalso|exact Hm].
      apply Hnode. apply order_of_encodable; [exact Hfit| |].
      - eapply pack_H_Some_inv; eauto.
      - now apply Hfreq. }
    destruct Hcase as [-> ->].
    exists (concat (map (record (store_of words)) done)), (length done).
    split; [|split].
    + unfold write_bin. rewrite E, (write_loop_app _ _ _ _ Hd). cbn [write_loop app].
      rewrite Hwn, app_nil_r. reflexivity.
    + apply records_length.
    + rewrite <- order_of_length, E, length_app. simpl. lia.
Qed.

Lemma compile_language_outcome_witness :
  (MAX_OFFSET < 10 * (Z.of_nat (node_count (trie_of cat_car_can)) - 1) /\
   compile_language ascii_runtime (Some cat_car_can_lines) =
     Failed (Inner ValueError) None) \/
  (10 * (Z.of_nat (node_count (trie_of cat_car_can)) - 1) <= MAX_OFFSET /\
   chars_in_range cat_car_can /\
   exists out,
     compile_language ascii_runtime (Some cat_car_can_lines) = Compiled out /\
     length out = (10 * node_count (trie_of cat_car_can))%nat /\
     forall w f, In (w, f) cat_car_can -> read_freq out w = Some f) \/
  (10 * (Z.of_nat (node_count (trie_of cat_car_can)) - 1) <= MAX_OFFSET /\
   ~ chars_in_range cat_car_can /\
   exists partial m,
     compile_language ascii_runtime (Some cat_car_can_lines) =
       Failed (Inner StructError) (Some partial) /\
     length partial = (10 * m)%nat /\
     (m < node_count (trie_of cat_car_can))%nat).
Proof.
  apply (compile_language_outcome ascii_runtime cat_car_can_lines cat_car_can).
  reflexivity.
Defined.

(** ** The nodes are laid out level by level *)

(** The children of a node are one level below it. *)
Lemma sorted_children_depth (n : TrieNode) :
  well_named (path n) n ->
  Forall (fun c => length (path c) = S (length (path n)) /\ well_named (path c) c)
    (sorted_by_char (children n)).
Proof.
  intros Hwn. apply Forall_forall. intros c Hc.
  rewrite (sorted_by_char_perm (children n)) in Hc. apply list_elem_of_In in Hc.
  pose proof (well_named_child _ _ Hwn Hc) as Ep.
  split; [rewrite Ep, length_app; simpl; lia|].
  apply well_named_unfold in Hwn as (_ & _ & Hall). rewrite Forall_forall in Hall.
  rewrite Ep. now apply Hall, list_elem_of_In.
Qed.

Lemma bfs_order_depth_bound (m : nat) (fuel : nat) :
  forall queue,
    Forall (fun n => well_named (path n) n) queue ->
    Forall (fun n => (m <= length (path n))%nat) queue ->
    Forall (fun n => (m <= length (path n))%nat) (bfs_order fuel queue).
Proof.
  induction fuel as [|fuel IH]; intros [|h q] Hwn Hm; try constructor.
  - now inversion Hm.
  - inversion Hwn as [|? ? Hh Hq]; inversion Hm as [|? ? Hmh Hmq]; subst.
    pose proof (sorted_children_depth h Hh) as Hcs.
    apply IH; apply Forall_app; split; auto.
    + eapply Forall_impl; [exact Hcs|]. now intros c [_ ?].
    + eapply Forall_impl; [exact Hcs|]. intros c [E _]. lia.
Qed.

(** The queue holds nodes of one level followed by nodes of the next. *)
Lemma bfs_order_levels (fuel : nat) :
  forall queue d A B,
    queue = A ++ B ->
    Forall (fun n => length (path n) = d) A ->
    Forall (fun n => length (path n) = S d) B ->
    Forall (fun n => well_named (path n) n) queue ->
    forall l1 a l2,
      bfs_order fuel queue = l1 ++ a :: l2 ->
      Forall (fun b => (length (path a) <= length (path b))%nat) l2.
Proof.
  induction fuel as [|fuel IH]; intros [|h q] d A B Eq HA HB Hwn l1 a l2 E;
    try (destruct l1; discriminate).
  cbn [bfs_order] in E.
  inversion Hwn as [|? ? Hh Hq]; subst.
  pose proof (sorted_children_depth h Hh) as Hcs.
  assert (Hwn' : Forall (fun n => well_named (path n) n)
                   (q ++ sorted_by_char (children h))).
  { apply Forall_app. split; [exact Hq|].
    eapply Forall_impl; [exact Hcs|]. now intros c [_ ?]. }
  assert (Hsplit : exists d' A' B',
            q ++ sorted_by_char (children h) = A' ++ B' /\
            Forall (fun n => length (path n) = d') A' /\
            Forall (fun n => length (path n) = S d') B' /\
            Forall (fun n => (length (path h) <= length (path n))%nat)
              (q ++ sorted_by_char (children h))).
  { destruct A as [|x A].
    - simpl in Eq. subst B. inversion HB as [|? ? Hd HB']; subst.
      exists (length (path h)), q, (sorted_by_char (children h)).
      split; [reflexivity|]. split; [now rewrite Hd|].
      split; [eapply Forall_impl; [exact Hcs|]; now intros c [? _]|].
      apply Forall_app. split.
      + eapply Forall_impl; [exact HB'|]. intros c Hc. simpl in Hc. lia.
      + eapply Forall_impl; [exact Hcs|]. intros c [Hc _]. lia.
    - injection Eq as <- ->. inversion HA as [|? ? Hd HA']; subst.
      exists (length (path h)), A, (B ++ sorted_by_char (children h)).
      split; [now rewrite app_assoc|]. split; [exact HA'|].
      split.
      + apply Forall_app. split; [exact HB|].
        eapply Forall_impl; [exact Hcs|]. now intros c [? _].
      + rewrite !Forall_app. repeat split.
        * eapply Forall_impl; [exact HA'|]. intros c Hc. simpl in Hc. lia.
        * eapply Forall_impl; [exact HB|]. intros c Hc. simpl in Hc. lia.
        * eapply Forall_impl; [exact Hcs|]. intros c [Hc _]. lia. }
  destruct Hsplit as (d' & A' & B' & Eq' & HA' & HB' & Hge).
  destruct l1 as [|x l1]; injection E as <- E.
  - rewrite <- E. apply bfs_order_depth_bound; assumption.
  - exact (IH _ d' A' B' Eq' HA' HB' Hwn' l1 a l2 E).
Qed.

(** [build_trie] returns the nodes level by level: a node never comes before
    a node that is nearer to the root (the length of [path] is the number of
    characters between the root and the node). *)
Theorem nodes_in_level_order (words : list (list Z * Z)) (nodes : list TrieNode)
    (st : Store) :
  build_trie words = Returned (nodes, st) ->
  forall i j a b,
    nodes !! i = Some a -> nodes !! j = Some b -> (i <= j)%nat ->
    (length (path a) <= length (path b))%nat /\
    offset_of st (path a) <= offset_of st (path b).
Proof.
  intros Hb i j a b Hi Hj Hij. apply build_trie_inv in Hb as (-> & -> & _).
  split; [|rewrite (store_of_offset _ _ _ Hi), (store_of_offset _ _ _ Hj); lia].
  destruct (decide (i = j)) as [->|Hne].
  { rewrite Hi in Hj. injection Hj as ->. lia. }
  pose proof (take_drop_middle _ _ _ Hi) as E.
  assert (Hall : Forall (fun b => (length (path a) <= length (path b))%nat)
                   (drop (S i) (order_of words))).
  { apply (bfs_order_levels (node_count (trie_of words)) [trie_of words] 0
             [trie_of words] [] eq_refl) with (l1 := take i (order_of words)).
    - repeat constructor. now rewrite trie_of_path.
    - constructor.
    - repeat constructor. rewrite trie_of_path. apply trie_of_well_named.
    - symmetry. exact E. }
  rewrite Forall_forall in Hall. apply Hall.
  apply (list_elem_of_lookup_2 _ (j - S i)). rewrite lookup_drop.
  now replace (S i + (j - S i))%nat with j by lia.
Qed.

Lemma nodes_in_level_order_witness :
  (length (path node_c) <= length (path node_n))%nat /\
  offset_of (store_of cat_car_can) (path node_c) <=
  offset_of (store_of cat_car_can) (path node_n).
Proof.
  apply (nodes_in_level_order cat_car_can (order_of cat_car_can)
           (store_of cat_car_can) cat_car_can_builds 1%nat 3%nat node_c node_n).
  - vm_compute. reflexivity.
  - vm_compute. reflexivity.
  - lia.
Defined.

(** ** Along a chain of siblings the chars increase *)

(** The node a next_sibling link leaves from and the node it points at are
    neighbours among the sorted children of one node, and in the list. *)
Lemma order_of_next_sibling (words : list (list Z * Z)) (k : nat) (a : TrieNode)
    (y : list Z) :
  order_of words !! k = Some a ->
  st_next_sibling (store_of words) !! path a = Some y ->
  exists parent l1 b l2,
    In parent (order_of words) /\
    sorted_by_char (children parent) = l1 ++ a :: b :: l2 /\
    path b = y /\ order_of words !! S k = Some b.
Proof.
  intros Hk Hy. unfold store_of in Hy.
  apply layout_next_sibling in Hy as [Hy|(n & l1 & a' & b & l2 & Hn & E & Ha & Hb)].
  { simpl in Hy. now rewrite lookup_empty in Hy. }
  assert (Hin : In a (order_of words)).
  { apply list_elem_of_In. eapply list_elem_of_lookup_2; eauto. }
  assert (Ha_in : In a' (order_of words)).
  { apply (order_of_children_closed words n a' Hn).
    apply list_elem_of_In. rewrite <- (sorted_by_char_perm (children n)), E.
    apply elem_of_app. right. apply elem_of_cons. now left. }
  assert (Ea : a' = a).
  { apply (NoDup_path_inj (order_of words)); auto using order_of_NoDup. }
  subst a'. exists n, l1, b, l2. repeat split; auto.
  pose proof Hn as Hn'.
  apply list_elem_of_In, list_elem_of_lookup in Hn' as [kn Hkn].
  destruct (order_of_children_block words kn n Hkn) as (j & Hj & Hblock).
  assert (Hnode : order_of words !! (j + length l1)%nat = Some a).
  { apply Hblock. rewrite E. rewrite lookup_app_r by lia.
    now rewrite Nat.sub_diag. }
  assert (Hnext : order_of words !! (j + S (length l1))%nat = Some b).
  { apply Hblock. rewrite E. rewrite lookup_app_r by lia.
    now replace (S (length l1) - length l1)%nat with 1%nat by lia. }
  rewrite (order_of_lookup_inj words _ _ _ Hk Hnode).
  now replace (S (j + length l1)) with (j + S (length l1))%nat by lia.
Qed.

Lemma ascending_neighbours (l1 : list TrieNode) (a b : TrieNode) (l2 : list TrieNode) :
  ascending (l1 ++ a :: b :: l2) -> NoDup (map char (l1 ++ a :: b :: l2)) ->
  char a < char b.
Proof.
  unfold ascending. induction l1 as [|x l1 IH]; simpl; intros Hs Hnd.
  - inversion Hs as [|? ? _ Hall]; subst. inversion Hall as [|? ? Hab _]; subst.
    apply NoDup_cons in Hnd as [Hnot _].
    assert (char a <> char b) by (intros E; apply Hnot; rewrite E; apply elem_of_cons; now left).
    lia.
  - inversion Hs; subst. apply NoDup_cons in Hnd as [_ Hnd]. auto.
Qed.

(** In the file, a next_sibling field that is not 0 leads from a record to
    the next one, whose char is strictly greater: the chars of a chain of
    siblings are in strictly ascending order. *)
Theorem sibling_chars_increase (words : list (list Z * Z)) (nodes : list TrieNode)
    (st : Store) :
  build_trie words = Returned (nodes, st) ->
  forall k a,
    nodes !! k = Some a ->
    record_written (output nodes st) (S k) ->
    rec_next_sibling (output nodes st) k <> 0 ->
    rec_next_sibling (output nodes st) k = 10 * Z.of_nat (S k) /\
    rec_char (output nodes st) k < rec_char (output nodes st) (S k).
Proof.
  intros Hb k a Hk Hwr Hns. apply build_trie_inv in Hb as (-> & -> & _).
  assert (Hwr0 : record_written (output (order_of words) (store_of words)) k).
  { unfold record_written in *. lia. }
  destruct (written_record_fields _ _ _ _ Hk Hwr0) as (_ & Hca & _ & _ & Ens).
  rewrite Ens in *. unfold next_sibling_offset in *.
  destruct (st_next_sibling (store_of words) !! path a) as [y|] eqn:Hy; [|congruence].
  destruct (order_of_next_sibling words k a y Hk Hy)
    as (parent & l1 & b & l2 & Hpar & E & <- & Hnext).
  destruct (written_record_fields _ _ _ _ Hnext Hwr) as (_ & Hcb & _).
  rewrite Hca, Hcb. split; [now apply store_of_offset|].
  pose proof (order_of_well_named words) as Hwn. rewrite Forall_forall in Hwn.
  assert (Hwp : well_named (path parent) parent)
    by (apply Hwn; now apply list_elem_of_In).
  apply (ascending_neighbours l1 a b l2); rewrite <- E.
  - apply sorted_by_char_ascending.
  - now apply sorted_children_NoDup.
Qed.

Lemma sibling_chars_increase_witness :
  rec_next_sibling (output (order_of cat_car_can) (store_of cat_car_can)) 3 =
    10 * Z.of_nat 4 /\
  rec_char (output (order_of cat_car_can) (store_of cat_car_can)) 3 <
  rec_char (output (order_of cat_car_can) (store_of cat_car_can)) 4.
Proof.
  apply (sibling_chars_increase cat_car_can (order_of cat_car_can)
           (store_of cat_car_can) cat_car_can_builds 3%nat node_n).
  - vm_compute. reflexivity.
  - vm_compute. repeat constructor.
  - vm_compute. discriminate.
Defined.

(** ** The size of the file tells whether write_bin returned *)

(** Whatever the nodes and their fields, [write_bin] returns exactly when
    every node has its four fields in range, and exactly when the file it
    leaves has 10 bytes per node; when it raises, the file is shorter. *)
Theorem write_bin_returns_iff (nodes : list TrieNode) (st : Store) :
  (snd (write_bin nodes st) = None <-> Forall (encodable st) nodes) /\
  (snd (write_bin nodes st) = None <->
   length (output nodes st) = (10 * length nodes)%nat) /\
  (length (output nodes st) <= 10 * length nodes)%nat.
Proof.
  unfold output.
  destruct (all_encodable_or_not st nodes) as [Hall|Hex].
  - unfold write_bin. rewrite (write_loop_encodable _ _ _ Hall). cbn [fst snd app].
    rewrite records_length. repeat split; auto.
  - destruct (first_not_encodable _ _ Hex) as (done & node & rest & -> & Hd & Hn).
    destruct (write_node_fails_short st node (concat (map (record st) done)) Hn)
      as (e & partial & Hw & Hlen).
    unfold write_bin. rewrite (write_loop_app _ _ _ _ Hd). cbn [write_loop app].
    rewrite Hw. cbn [fst snd].
    rewrite !length_app, records_length. cbn [length].
    repeat split; try discriminate; try lia.
    intros Hall. exfalso. apply Hn. rewrite Forall_forall in Hall. apply Hall.
    apply elem_of_app. right. apply elem_of_cons. now left.
Qed.

(** ** The cap *)

Lemma parse_line_not_skipped (rt : Runtime) (raw : list Z)
    (ws ws' : list (list Z * Z)) (count count' : Z) :
  is_skipped raw = false ->
  parse_line rt raw ws count = Returned (ws', count') ->
  count' = count + 1.
Proof.
  unfold is_skipped, parse_line.
  destruct (strip raw) as [|c line]; [discriminate|]. intros ->.
  destruct (tokens (c :: line)) as [|word rest]; [discriminate|].
  destruct (line_freq rt (word :: rest) count); try discriminate.
  now intros [= _ <-].
Qed.

(** Once [max_words] lines that are not skipped have been read, the loop
    ends whatever follows. *)
Lemma parse_loop_stops (rt : Runtime) (max_words : Z) (more : list (list Z)) :
  forall lines ws count words,
    parse_loop rt max_words lines ws count = Returned words ->
    max_words <=
      count + Z.of_nat (length (List.filter (fun raw => negb (is_skipped raw)) lines)) ->
    parse_loop rt max_words (lines ++ more) ws count = Returned words.
Proof.
  induction lines as [|raw rest IH]; intros ws count words H Hcap.
  - simpl in *. injection H as <-. apply parse_loop_capped. lia.
  - cbn [app parse_loop] in *.
    destruct (count >=? max_words); [exact H|].
    destruct (parse_line rt raw ws count) as [[ws' count']| |] eqn:Hl; try discriminate.
    apply (IH _ _ _ H). cbn [List.filter] in Hcap.
    destruct (is_skipped raw) eqn:Hs; cbn [negb] in Hcap.
    + rewrite (parse_line_skipped _ _ _ _ Hs) in Hl. injection Hl as _ <-. exact Hcap.
    + rewrite (parse_line_not_skipped _ _ _ _ _ _ Hs Hl). cbn [length] in Hcap. lia.
Qed.

(** [parse_words] returns at most [max_words] entries, and it does not read
    the lines that come after the cap is reached: when it returns on lines
    of which [max_words] or more are not skipped (not blank, not comments),
    it returns the same table whatever lines follow them, be they lines on
    which the loop body would raise. *)
Theorem parse_words_cap (rt : Runtime) (lines : list (list Z)) (max_words : Z)
    (words : list (list Z * Z)) :
  0 <= max_words ->
  parse_words rt lines max_words = Returned words ->
  Z.of_nat (length words) <= max_words /\
  (max_words <=
     Z.of_nat (length (List.filter (fun raw => negb (is_skipped raw)) lines)) ->
   forall more, parse_words rt (lines ++ more) max_words = Returned words).
Proof.
  intros Hm H. split.
  - apply parse_loop_length in H; simpl; lia.
  - intros Hcap more. apply parse_loop_stops; [exact H|lia].
Qed.

(** Two entries are accepted; a third line, here a lone comma, is not read. *)
Lemma parse_words_cap_witness :
  Z.of_nat (length [([97], 255); ([98], 255)]) <= 2 /\
  parse_words ascii_runtime ([[97]; [98]] ++ [[44]]) 2 =
  Returned [([97], 255); ([98], 255)].
Proof.
  destruct (parse_words_cap ascii_runtime [[97]; [98]] 2 [([97], 255); ([98], 255)])
    as [Hlen Hmore].
  - lia.
  - reflexivity.
  - split; [exact Hlen|]. apply Hmore. vm_compute. discriminate.
Defined.
